(** * bead-pixel: pixelation, flood fill, view transform and undo history

    A shallow embedding of the TypeScript sources
    [utils/imageProcessor.ts], [utils/colorUtils.ts],
    [utils/canvasRenderer.ts] and [store/useStore.ts].

    Conventions.
    - JavaScript numbers that only ever hold integers (channel values,
      indices, sums of channels) are [Z]; the arithmetic the code performs
      on them is exact in IEEE doubles.
    - JavaScript numbers that hold fractions (Lab coordinates, pan, screen
      coordinates) are idealised as real numbers [R]; there is no NaN and
      no rounding in this idealisation.
    - Where the code clamps a number with [Math.max] and [Math.min] (the
      stored zoom, the brightness factor) the number is a [JsNumber]: a
      real, an infinity or NaN, because the clamp lets NaN through.
    - A grid cell is [Undefined], [Null] or a colour id: reading an array
      outside its bounds yields [Undefined], and assigning beyond the end
      of an array extends it, as in JavaScript. *)

From Stdlib Require Import ZArith Ascii String List Bool Lia Reals Lra.
Import ListNotations.

Local Open Scope Z_scope.

(** ** JavaScript arrays *)

Module JsArray.

Section Generic.
Context {A : Type}.

(** [l[i]] for an integer [i]; [None] stands for [undefined]. *)
Definition get (l : list A) (i : Z) : option A :=
  if i <? 0 then None else nth_error l (Z.to_nat i).

(** [l.length]. *)
Definition len (l : list A) : Z := Z.of_nat (length l).

(** [l.slice(0, e)]: a negative [e] counts from the end. *)
Definition slice0 (l : list A) (e : Z) : list A :=
  if e <? 0 then firstn (Z.to_nat (Z.max (len l + e) 0)) l
  else firstn (Z.to_nat e) l.

(** [l.slice(s)] for [0 <= s]. *)
Definition sliceFrom (l : list A) (s : Z) : list A := skipn (Z.to_nat s) l.

(** [l.splice(i, 1, a, b)] for [0 <= i < l.length]. *)
Definition splice2 (l : list A) (i : Z) (a b : A) : list A :=
  firstn (Z.to_nat i) l ++ a :: b :: skipn (S (Z.to_nat i)) l.

(** [l.map((x, index) => f(x, index))]. *)
Fixpoint mapi_from (f : A -> Z -> A) (i : Z) (l : list A) : list A :=
  match l with
  | [] => []
  | x :: t => f x i :: mapi_from f (i + 1) t
  end.

Definition mapi (f : A -> Z -> A) (l : list A) : list A := mapi_from f 0 l.
End Generic.

(** The integers [0, 1, ..., n-1] of a counting [for] loop (none when
    [n <= 0]). *)
Definition range (n : Z) : list Z := map Z.of_nat (seq 0 (Z.to_nat n)).

End JsArray.

(** ** JavaScript numbers *)

(** A number as [Math.max], [Math.min] and [Math.round] see it: a real
    (idealised, without rounding), an infinity, or NaN. *)
Inductive JsNumber :=
| Num (x : R)
| PosInfinity
| NegInfinity
| NaN.

Module Math.

(** [Math.max(a, b)]: NaN as soon as one argument is NaN. *)
Definition max (a b : JsNumber) : JsNumber :=
  match a, b with
  | NaN, _ | _, NaN => NaN
  | PosInfinity, _ | _, PosInfinity => PosInfinity
  | NegInfinity, n | n, NegInfinity => n
  | Num x, Num y => Num (Rmax x y)
  end.

(** [Math.min(a, b)]: NaN as soon as one argument is NaN. *)
Definition min (a b : JsNumber) : JsNumber :=
  match a, b with
  | NaN, _ | _, NaN => NaN
  | NegInfinity, _ | _, NegInfinity => NegInfinity
  | PosInfinity, n | n, PosInfinity => n
  | Num x, Num y => Num (Rmin x y)
  end.

(** [Math.round(a)]: the nearest integer, halves rounded up; the infinities
    and NaN are returned as they are. *)
Definition round (a : JsNumber) : JsNumber :=
  match a with
  | Num x => Num (IZR (Int_part (x + / 2)))
  | other => other
  end.

(** [c * a] for an integer [c]: zero times an infinity is NaN. *)
Definition times (c : Z) (a : JsNumber) : JsNumber :=
  match a with
  | Num x => Num (IZR c * x)
  | PosInfinity =>
      if c =? 0 then NaN else if 0 <? c then PosInfinity else NegInfinity
  | NegInfinity =>
      if c =? 0 then NaN else if 0 <? c then NegInfinity else PosInfinity
  | NaN => NaN
  end.

End Math.

(** ** Types ([types/index.ts]) *)

Record RGB := mkRGB { r : Z; g : Z; b : Z }.

Record Lab := mkLab { lab_l : R; lab_a : R; lab_b : R }.

Record BeadColor := mkBead {
  id : string;
  name : string;
  code : string;
  hex : string;
  rgb : RGB;
  lab : option Lab
}.

(** A cell of the grid as JavaScript sees it:  [string | null], and
    [undefined] for a hole or a read outside the array. *)
Inductive Cell := Undefined | Null | Color (colorId : string).

(** [PixelData = (string | null)[][]], rows outermost. *)
Definition PixelData := list (list Cell).

(** A value of type [string | null] passed to an action. *)
Definition cellOf (colorId : option string) : Cell :=
  match colorId with
  | None => Null
  | Some s => Color s
  end.

(** Strict equality [===] on cells. *)
Definition Cell_eqb (a c : Cell) : bool :=
  match a, c with
  | Undefined, Undefined => true
  | Null, Null => true
  | Color s, Color t => String.eqb s t
  | _, _ => false
  end.

(** [row[x]]. *)
Definition rowGet (row : list Cell) (x : Z) : Cell :=
  match JsArray.get row x with
  | Some c => c
  | None => Undefined
  end.

(** [row[x] = v] for [x >= 0]: overwrites in range, and otherwise extends
    the row, leaving holes before the new element. *)
Fixpoint rowSetNat (row : list Cell) (x : nat) (v : Cell) : list Cell :=
  match x, row with
  | O, [] => [v]
  | O, _ :: t => v :: t
  | S x', [] => Undefined :: rowSetNat [] x' v
  | S x', c :: t => c :: rowSetNat t x' v
  end.

Definition rowSet (row : list Cell) (x : Z) (v : Cell) : list Cell :=
  rowSetNat row (Z.to_nat x) v.

(** [pixelData[y][x]], read where the code has checked that row [y] exists
    (on a missing row JavaScript would throw; the value here is then
    [Undefined]). *)
Definition cellAt (pixelData : PixelData) (x y : Z) : Cell :=
  match JsArray.get pixelData y with
  | Some row => rowGet row x
  | None => Undefined
  end.

(** [height = pixelData.length] and
    [width = height > 0 ? pixelData[0].length : 0]. *)
Definition gridHeight (pixelData : PixelData) : Z := JsArray.len pixelData.

Definition gridWidth (pixelData : PixelData) : Z :=
  match pixelData with
  | [] => 0
  | row0 :: _ => JsArray.len row0
  end.

(** [data[y][x] = v] on a grid whose row [y] exists. *)
Fixpoint gridSetNat (data : PixelData) (x : Z) (y : nat) (v : Cell) : PixelData :=
  match y, data with
  | _, [] => []
  | O, row :: t => rowSet row x v :: t
  | S y', row :: t => row :: gridSetNat t x y' v
  end.

Definition gridSet (data : PixelData) (x y : Z) (v : Cell) : PixelData :=
  gridSetNat data x (Z.to_nat y) v.

(** ** Median-cut quantizer ([utils/imageProcessor.ts]) *)

(** One pixel of [ImageData.data]: the four bytes [data[4p .. 4p+3]].
    An [ImageData] always holds whole pixels. *)
Record RGBA := mkRGBA { px_r : Z; px_g : Z; px_b : Z; px_a : Z }.

Definition ImageData := list RGBA.

Record ColorBox := mkBox {
  colors : list RGB;
  rMin : Z; rMax : Z;
  gMin : Z; gMax : Z;
  bMin : Z; bMax : Z
}.

Definition createColorBox (colors : list RGB) : ColorBox :=
  fold_left
    (fun box color =>
       mkBox colors
             (Z.min (rMin box) (r color)) (Z.max (rMax box) (r color))
             (Z.min (gMin box) (g color)) (Z.max (gMax box) (g color))
             (Z.min (bMin box) (b color)) (Z.max (bMax box) (b color)))
    colors
    (mkBox colors 255 0 255 0 255 0).

Inductive Channel := chR | chG | chB.

Definition channelOf (ch : Channel) (c : RGB) : Z :=
  match ch with
  | chR => r c
  | chG => g c
  | chB => b c
  end.

(** [Array.prototype.sort] with the comparator [a[channel] - b[channel]]:
    a stable sort by the channel value. *)
Fixpoint insertBy (key : RGB -> Z) (x : RGB) (l : list RGB) : list RGB :=
  match l with
  | [] => [x]
  | h :: t => if key x <=? key h then x :: h :: t else h :: insertBy key x t
  end.

Definition sortBy (key : RGB -> Z) (l : list RGB) : list RGB :=
  fold_right (insertBy key) [] l.

Definition splitChannel (box : ColorBox) : Channel :=
  let rRange := rMax box - rMin box in
  let gRange := gMax box - gMin box in
  let bRange := bMax box - bMin box in
  if (rRange >=? gRange) && (rRange >=? bRange) then chR
  else if (gRange >=? rRange) && (gRange >=? bRange) then chG
  else chB.

Definition splitColorBox (box : ColorBox) : ColorBox * ColorBox :=
  let channel := splitChannel box in
  let sorted := sortBy (channelOf channel) (colors box) in
  let mid := JsArray.len sorted / 2 in
  (createColorBox (JsArray.slice0 sorted mid),
   createColorBox (JsArray.sliceFrom sorted mid)).

(** [Math.round(sum / count)] for integers [sum] and [count > 0]:
    the nearest integer, halves rounded up. *)
Definition roundDiv (sum count : Z) : Z := (2 * sum + count) / (2 * count).

Definition getAverageColor (box : ColorBox) : RGB :=
  let rSum := fold_left (fun s c => s + r c) (colors box) 0 in
  let gSum := fold_left (fun s c => s + g c) (colors box) 0 in
  let bSum := fold_left (fun s c => s + b c) (colors box) 0 in
  let count := JsArray.len (colors box) in
  mkRGB (roundDiv rSum count) (roundDiv gSum count) (roundDiv bSum count).

(** The pixels the quantizer samples: those with [data[i + 3] >= 128]. *)
Definition opaqueColors (imageData : ImageData) : list RGB :=
  flat_map
    (fun px => if px_a px <? 128 then [] else [mkRGB (px_r px) (px_g px) (px_b px)])
    imageData.

Definition boxVolume (box : ColorBox) : Z :=
  (rMax box - rMin box) * (gMax box - gMin box) * (bMax box - bMin box).

(** The inner [for] loop of [medianCutQuantize]: the state is
    [(i, maxIndex, maxVolume)]. *)
Definition selectStep (st : Z * Z * Z) (box : ColorBox) : Z * Z * Z :=
  let '(i, maxIndex, maxVolume) := st in
  if JsArray.len (colors box) <? 2 then (i + 1, maxIndex, maxVolume)
  else if boxVolume box >? maxVolume then (i + 1, i, boxVolume box)
  else (i + 1, maxIndex, maxVolume).

Definition selectBox (boxes : list ColorBox) : Z * Z :=
  let '(_, maxIndex, maxVolume) := fold_left selectStep boxes (0, 0, 0) in
  (maxIndex, maxVolume).

(** One pass of the [while] body; [None] is the [break]. *)
Definition splitStep (boxes : list ColorBox) : option (list ColorBox) :=
  let '(maxIndex, maxVolume) := selectBox boxes in
  if maxVolume =? 0 then None
  else
    match JsArray.get boxes maxIndex with
    | Some box =>
        let '(box1, box2) := splitColorBox box in
        Some (JsArray.splice2 boxes maxIndex box1 box2)
    | None => None
    end.

(** [while (boxes.length < colorCount) { ... }], run for at most [fuel]
    passes.  The second component tells whether the loop left through its
    own exit (the condition failing, or the [break]). *)
Fixpoint splitLoop (fuel : nat) (colorCount : Z) (boxes : list ColorBox)
  : list ColorBox * bool :=
  if JsArray.len boxes <? colorCount then
    match fuel with
    | O => (boxes, false)
    | S fuel' =>
        match splitStep boxes with
        | None => (boxes, true)
        | Some boxes' => splitLoop fuel' colorCount boxes'
        end
    end
  else (boxes, true).

Definition white : RGB := mkRGB 255 255 255.

Definition medianCutQuantize (imageData : ImageData) (colorCount : Z) : list RGB :=
  let colors := opaqueColors imageData in
  match colors with
  | [] => [white]
  | _ :: _ =>
      let boxes := fst (splitLoop (Z.to_nat colorCount) colorCount [createColorBox colors]) in
      map getAverageColor boxes
  end.

(** ** Colour math and palette matching ([utils/colorUtils.ts]) *)

Module ColorUtils.
Local Open Scope R_scope.

(** [c > 0.04045 ? Math.pow((c + 0.055) / 1.055, 2.4) : c / 12.92]. *)
Definition linearize (c : R) : R :=
  if Rlt_dec 0.04045 c then Rpower ((c + 0.055) / 1.055) 2.4 else c / 12.92.

(** [t > 0.008856 ? Math.pow(t, 1 / 3) : (7.787 * t) + 16 / 116]. *)
Definition labF (t : R) : R :=
  if Rlt_dec 0.008856 t then Rpower t (1 / 3) else (7.787 * t) + 16 / 116.

Definition rgbToLab (rgb : RGB) : Lab :=
  let r := linearize (IZR (r rgb) / 255) in
  let g := linearize (IZR (g rgb) / 255) in
  let b := linearize (IZR (b rgb) / 255) in
  let x := (r * 0.4124564 + g * 0.3575761 + b * 0.1804375) / 0.95047 in
  let y := (r * 0.2126729 + g * 0.7151522 + b * 0.0721750) in
  let z := (r * 0.0193339 + g * 0.1191920 + b * 0.9503041) / 1.08883 in
  let fx := labF x in
  let fy := labF y in
  let fz := labF z in
  mkLab ((116 * fy) - 16) (500 * (fx - fy)) (200 * (fy - fz)).

Definition deltaE (lab1 lab2 : Lab) : R :=
  let dL := lab_l lab1 - lab_l lab2 in
  let da := lab_a lab1 - lab_a lab2 in
  let db := lab_b lab1 - lab_b lab2 in
  sqrt (dL * dL + da * da + db * db).

(** [color.lab || rgbToLab(color.rgb)]. *)
Definition labOf (color : BeadColor) : Lab :=
  match lab color with
  | Some l => l
  | None => rgbToLab (rgb color)
  end.

(** [distance < minDistance], where [None] is the initial [Infinity]. *)
Definition belowMin (distance : R) (minDistance : option R) : bool :=
  match minDistance with
  | None => true
  | Some m => if Rlt_dec distance m then true else false
  end.

(** The body of the [for] loop of [findClosestBeadColor]; the state is
    [(closestColor, minDistance)]. *)
Definition closestStep (targetLab : Lab) (st : BeadColor * option R)
           (color : BeadColor) : BeadColor * option R :=
  let distance := deltaE targetLab (labOf color) in
  if belowMin distance (snd st) then (color, Some distance) else st.

Definition findClosestBeadColor (rgb : RGB) (colors : list BeadColor)
  : option BeadColor :=
  match colors with
  | [] => None
  | first :: _ =>
      let targetLab := rgbToLab rgb in
      Some (fst (fold_left (closestStep targetLab) colors (first, None)))
  end.

Definition precomputeLabValues (colors : list BeadColor) : list BeadColor :=
  map (fun color =>
         mkBead (id color) (name color) (code color) (hex color) (rgb color)
                (Some (labOf color)))
      colors.

End ColorUtils.

(** ** Pixelizer ([utils/imageProcessor.ts]) *)

(** A call either returns or throws. *)
Inductive Outcome (A : Type) :=
| Returned (value : A)
| Thrown (error : string).

Arguments Returned {A} value.
Arguments Thrown {A} error.

Definition bind {A B} (m : Outcome A) (k : A -> Outcome B) : Outcome B :=
  match m with
  | Returned a => k a
  | Thrown e => Thrown e
  end.

Fixpoint mapM {A B} (f : A -> Outcome B) (l : list A) : Outcome (list B) :=
  match l with
  | [] => Returned []
  | a :: t => bind (f a) (fun v => bind (mapM f t) (fun vs => Returned (v :: vs)))
  end.

(** [dist < minDist] on integers, where [None] is the initial [Infinity]. *)
Definition nearer (dist : Z) (minDist : option Z) : bool :=
  match minDist with
  | None => true
  | Some m => dist <? m
  end.

Definition sqDist (c1 c2 : RGB) : Z :=
  (r c1 - r c2) ^ 2 + (g c1 - g c2) ^ 2 + (b c1 - b c2) ^ 2.

(** [mapToNearestColor].  The argument is [None] when the channels read
    from the image were [undefined] (every distance is then NaN and no
    comparison succeeds); the result is [None] when [palette[0]] is
    [undefined] and never replaced. *)
Definition mapToNearestColor (rgb : option RGB) (palette : list RGB) : option RGB :=
  fst (fold_left
         (fun (st : option RGB * option Z) color =>
            match rgb with
            | Some c =>
                let dist := sqDist c color in
                if nearer dist (snd st) then (Some color, Some dist) else st
            | None => st
            end)
         palette
         (hd_error palette, None)).

(** [findClosestBeadColor(quantizedColor, colorsWithLab)] as it is called
    from [pixelateImage]: on an [undefined] colour and a non-empty palette,
    reading [rgb.r] throws. *)
Definition closestBeadOf (quantizedColor : option RGB) (colors : list BeadColor)
  : Outcome (option BeadColor) :=
  match quantizedColor, colors with
  | _, [] => Returned None
  | Some q, _ => Returned (ColorUtils.findClosestBeadColor q colors)
  | None, _ :: _ => Thrown "TypeError: cannot read properties of undefined"
  end.

(** [beadColor?.id || null]: an empty id is falsy. *)
Definition idOrNull (beadColor : option BeadColor) : Cell :=
  match beadColor with
  | Some c => if String.eqb (id c) "" then Null else Color (id c)
  | None => Null
  end.

(** The body of the inner loop of [pixelateImage] for the cell [(x, y)];
    pixel [y * width + x] is [data[i .. i + 3]] with [i = (y * width + x) * 4]. *)
Definition pixelateCell (imageData : ImageData) (width : Z) (palette : list RGB)
           (colorsWithLab : list BeadColor) (y x : Z) : Outcome Cell :=
  match JsArray.get imageData (y * width + x) with
  | Some px =>
      if px_a px <? 128 then Returned Null
      else
        let originalColor := mkRGB (px_r px) (px_g px) (px_b px) in
        let quantizedColor := mapToNearestColor (Some originalColor) palette in
        bind (closestBeadOf quantizedColor colorsWithLab)
             (fun beadColor => Returned (idOrNull beadColor))
  | None =>
      let quantizedColor := mapToNearestColor None palette in
      bind (closestBeadOf quantizedColor colorsWithLab)
           (fun beadColor => Returned (idOrNull beadColor))
  end.

(** [pixelateImage], from the image data that [getImagePixelData] (a
    canvas call) hands back for the image. *)
Definition pixelateImage (imageData : ImageData) (width height colorCount : Z)
           (beadColors : list BeadColor) : Outcome PixelData :=
  let palette := medianCutQuantize imageData colorCount in
  let colorsWithLab := ColorUtils.precomputeLabValues beadColors in
  mapM (fun y =>
          mapM (pixelateCell imageData width palette colorsWithLab y)
               (JsArray.range width))
       (JsArray.range height).

(** [pixelateImage] from its first line on.  [getImagePixelData] draws the
    image on a canvas of the target size and reads the pixels back: DOM
    calls, which either hand back the image data or throw (the canvas
    rejects a zero width or height); what they do is a parameter here. *)
Section Sampling.
Variable getImagePixelData : Z -> Z -> Outcome ImageData.

Definition pixelateImageOf (width height colorCount : Z)
           (beadColors : list BeadColor) : Outcome PixelData :=
  bind (getImagePixelData width height)
       (fun imageData => pixelateImage imageData width height colorCount beadColors).

End Sampling.

(** [Array(height).fill(null).map(() => Array(width).fill(null))] for
    non-negative integers ([Array(n)] throws a [RangeError] for a negative
    [n]; the definition is meant for sizes that are not negative). *)
Definition createEmptyPixelData (width height : Z) : PixelData :=
  repeat (repeat Null (Z.to_nat width)) (Z.to_nat height).

(** ** Flood fill ([utils/imageProcessor.ts]) *)

Definition Point := (Z * Z)%type.

(** [visited.has(`${x},${y}`)]: the key determines the pair of integers. *)
Definition visitedHas (visited : list Point) (p : Point) : bool :=
  existsb (fun q => (fst q =? fst p) && (snd q =? snd p)) visited.

(** The [while (queue.length > 0)] loop, run for at most [fuel] passes; it
    returns the grid together with whatever is left of the queue. *)
Fixpoint floodLoop (fuel : nat) (width height : Z) (targetColorId newColorId : Cell)
         (newData : PixelData) (queue visited : list Point)
  : PixelData * list Point :=
  match queue with
  | [] => (newData, [])
  | (x, y) :: rest =>
      match fuel with
      | O => (newData, queue)
      | S fuel' =>
          if visitedHas visited (x, y) then
            floodLoop fuel' width height targetColorId newColorId newData rest visited
          else if (x <? 0) || (x >=? width) || (y <? 0) || (y >=? height) then
            floodLoop fuel' width height targetColorId newColorId newData rest visited
          else if negb (Cell_eqb (cellAt newData x y) targetColorId) then
            floodLoop fuel' width height targetColorId newColorId newData rest visited
          else
            floodLoop fuel' width height targetColorId newColorId
                      (gridSet newData x y newColorId)
                      (rest ++ [(x + 1, y); (x - 1, y); (x, y + 1); (x, y - 1)])
                      ((x, y) :: visited)
      end
  end.

(** Passes that always suffice: each pass removes one queue entry, and only
    a pass that marks a fresh in-bounds cell adds four. *)
Definition floodFuel (width height : Z) : nat := Z.to_nat (4 * (width * height) + 1).

Definition floodFill (pixelData : PixelData) (startX startY : Z) (newColorId : string)
  : PixelData :=
  let height := gridHeight pixelData in
  let width := gridWidth pixelData in
  if (startX <? 0) || (startX >=? width) || (startY <? 0) || (startY >=? height) then
    pixelData
  else
    let targetColorId := cellAt pixelData startX startY in
    if Cell_eqb targetColorId (Color newColorId) then pixelData
    else
      fst (floodLoop (floodFuel width height) width height targetColorId
                     (Color newColorId) pixelData [(startX, startY)] []).

(** ** The editing store ([store/useStore.ts]) *)

Inductive BeadBrand := perler | artkal | hama | mard | nabbi | ikea.

Record PixelConfig := mkConfig {
  width : Z;
  height : Z;
  colorCount : Z;
  brand : BeadBrand;
  lockAspectRatio : bool
}.

(** [Partial<PixelConfig>]: every field may be absent. *)
Record PartialConfig := mkPartial {
  p_width : option Z;
  p_height : option Z;
  p_colorCount : option Z;
  p_brand : option BeadBrand;
  p_lockAspectRatio : option bool
}.

Inductive EditorTool := brush | bucket | eyedropper | move.

Inductive Mode := editor | display.

Record HistoryItem := mkItem {
  itemPixelData : PixelData;
  timestamp : Z
}.

Record UIState := mkUI {
  mode : Mode;
  currentTool : EditorTool;
  selectedColorId : option string;
  highlightColorId : option string;
  zoom : JsNumber;
  panX : R;
  panY : R;
  showColorCode : bool;
  isFullscreen : bool;
  showColorStats : bool
}.

Record StoreState := mkStore {
  pixelData : PixelData;
  config : PixelConfig;
  originalImage : option string;
  ui : UIState;
  history : list HistoryItem;
  historyIndex : Z
}.

Definition MAX_HISTORY : Z := 50.

Definition initialUIState : UIState :=
  mkUI editor brush (Some "P01"%string) None (Num 1) 0%R 0%R true false true.

Module Store.

Section Actions.
(** [defaultConfig] is imported from [data/beadColors], which only the
    store's callers define; it stays a parameter. *)
Variable defaultConfig : PixelConfig.

Definition initialConfig : PixelConfig := defaultConfig.

Definition initialState : StoreState :=
  mkStore (createEmptyPixelData (width initialConfig) (height initialConfig))
          initialConfig None initialUIState [] (-1).

Definition withPixelData (data : PixelData) (st : StoreState) : StoreState :=
  mkStore data (config st) (originalImage st) (ui st) (history st) (historyIndex st).

Definition withUI (u : UIState) (st : StoreState) : StoreState :=
  mkStore (pixelData st) (config st) (originalImage st) u (history st)
          (historyIndex st).

(** [setPixelData(data, saveHistory)]; [now] is [Date.now()]. *)
Definition setPixelData (data : PixelData) (saveHistory : bool) (now : Z)
           (st : StoreState) : StoreState :=
  if saveHistory then
    let pushed :=
      JsArray.slice0 (history st) (historyIndex st + 1)
        ++ [mkItem (pixelData st) now] in
    let newHistory :=
      if JsArray.len pushed >? MAX_HISTORY then tl pushed else pushed in
    mkStore data (config st) (originalImage st) (ui st) newHistory
            (JsArray.len newHistory - 1)
  else withPixelData data st.

Definition setPixel (x y : Z) (colorId : option string) (now : Z)
           (st : StoreState) : StoreState :=
  let pixelData := pixelData st in
  if (y <? 0) || (y >=? JsArray.len pixelData) || (x <? 0)
     || (x >=? gridWidth pixelData) then st
  else if Cell_eqb (cellAt pixelData x y) (cellOf colorId) then st
  else
    let newData :=
      JsArray.mapi
        (fun row rowIndex =>
           if rowIndex =? y then rowSet row x (cellOf colorId) else row)
        pixelData in
    setPixelData newData true now st.

Definition fillArea (x y : Z) (colorId : string) (now : Z) (st : StoreState)
  : StoreState :=
  let newData := floodFill (pixelData st) x y colorId in
  setPixelData newData true now st.

Definition orElse {A} (o : option A) (d : A) : A :=
  match o with
  | Some a => a
  | None => d
  end.

Definition setConfig (c : PartialConfig) (st : StoreState) : StoreState :=
  let old := config st in
  mkStore (pixelData st)
          (mkConfig (orElse (p_width c) (width old))
                    (orElse (p_height c) (height old))
                    (orElse (p_colorCount c) (colorCount old))
                    (orElse (p_brand c) (brand old))
                    (orElse (p_lockAspectRatio c) (lockAspectRatio old)))
          (originalImage st) (ui st) (history st) (historyIndex st).

Definition setOriginalImage (image : option string) (st : StoreState) : StoreState :=
  mkStore (pixelData st) (config st) image (ui st) (history st) (historyIndex st).

Definition setMode (m : Mode) (st : StoreState) : StoreState :=
  let u := ui st in
  withUI (mkUI m (currentTool u) (selectedColorId u) (highlightColorId u)
               (zoom u) (panX u) (panY u) (showColorCode u) (isFullscreen u)
               (showColorStats u)) st.

Definition setTool (tool : EditorTool) (st : StoreState) : StoreState :=
  let u := ui st in
  withUI (mkUI (mode u) tool (selectedColorId u) (highlightColorId u)
               (zoom u) (panX u) (panY u) (showColorCode u) (isFullscreen u)
               (showColorStats u)) st.

Definition setSelectedColor (colorId : option string) (st : StoreState) : StoreState :=
  let u := ui st in
  withUI (mkUI (mode u) (currentTool u) colorId (highlightColorId u)
               (zoom u) (panX u) (panY u) (showColorCode u) (isFullscreen u)
               (showColorStats u)) st.

Definition setHighlightColor (colorId : option string) (st : StoreState) : StoreState :=
  let u := ui st in
  withUI (mkUI (mode u) (currentTool u) (selectedColorId u) colorId
               (zoom u) (panX u) (panY u) (showColorCode u) (isFullscreen u)
               (showColorStats u)) st.

(** [zoom: Math.max(0.1, Math.min(10, zoom))]. *)
Definition setZoom (zoom : JsNumber) (st : StoreState) : StoreState :=
  let u := ui st in
  withUI (mkUI (mode u) (currentTool u) (selectedColorId u) (highlightColorId u)
               (Math.max (Num 0.1) (Math.min (Num 10) zoom))
               (panX u) (panY u) (showColorCode u)
               (isFullscreen u) (showColorStats u)) st.

Definition setPan (x y : R) (st : StoreState) : StoreState :=
  let u := ui st in
  withUI (mkUI (mode u) (currentTool u) (selectedColorId u) (highlightColorId u)
               (zoom u) x y (showColorCode u) (isFullscreen u)
               (showColorStats u)) st.

Definition setShowColorCode (show : bool) (st : StoreState) : StoreState :=
  let u := ui st in
  withUI (mkUI (mode u) (currentTool u) (selectedColorId u) (highlightColorId u)
               (zoom u) (panX u) (panY u) show (isFullscreen u)
               (showColorStats u)) st.

Definition setFullscreen (fullscreen : bool) (st : StoreState) : StoreState :=
  let u := ui st in
  withUI (mkUI (mode u) (currentTool u) (selectedColorId u) (highlightColorId u)
               (zoom u) (panX u) (panY u) (showColorCode u) fullscreen
               (showColorStats u)) st.

Definition setShowColorStats (show : bool) (st : StoreState) : StoreState :=
  let u := ui st in
  withUI (mkUI (mode u) (currentTool u) (selectedColorId u) (highlightColorId u)
               (zoom u) (panX u) (panY u) (showColorCode u) (isFullscreen u)
               show) st.

(** [undo].  [state.history[state.historyIndex]] exists in every state the
    store reaches (see [history_inv]); were it missing, reading its
    [pixelData] would throw before [set] ran, leaving the state as it was. *)
Definition undo (st : StoreState) : StoreState :=
  if historyIndex st >=? 0 then
    match JsArray.get (history st) (historyIndex st) with
    | Some item =>
        mkStore (itemPixelData item) (config st) (originalImage st) (ui st)
                (history st) (historyIndex st - 1)
    | None => st
    end
  else st.

(** [redo]: the cursor is advanced first; the grid is only replaced when an
    entry exists at [nextIndex + 1]. *)
Definition redo (st : StoreState) : StoreState :=
  if historyIndex st <? JsArray.len (history st) - 1 then
    let nextIndex := historyIndex st + 1 in
    let st1 :=
      mkStore (pixelData st) (config st) (originalImage st) (ui st)
              (history st) nextIndex in
    if nextIndex + 1 <? JsArray.len (history st) then
      match JsArray.get (history st) (nextIndex + 1) with
      | Some item => withPixelData (itemPixelData item) st1
      | None => st1
      end
    else st1
  else st.

Definition canUndo (st : StoreState) : bool := historyIndex st >=? 0.

Definition canRedo (st : StoreState) : bool :=
  historyIndex st <? JsArray.len (history st) - 1.

Definition resetProject (st : StoreState) : StoreState := initialState.

Definition loadProject (data : PixelData) (cfg : PixelConfig) (st : StoreState)
  : StoreState :=
  mkStore data cfg (originalImage st) (ui st) [] (-1).

(** The store's actions, and the state each one leads to. *)
Inductive Action :=
| SetPixelData (data : PixelData) (saveHistory : bool) (now : Z)
| SetPixel (x y : Z) (colorId : option string) (now : Z)
| FillArea (x y : Z) (colorId : string) (now : Z)
| SetConfig (c : PartialConfig)
| SetOriginalImage (image : option string)
| SetMode (m : Mode)
| SetTool (tool : EditorTool)
| SetSelectedColor (colorId : option string)
| SetHighlightColor (colorId : option string)
| SetZoom (z : JsNumber)
| SetPan (x y : R)
| SetShowColorCode (show : bool)
| SetFullscreen (fullscreen : bool)
| SetShowColorStats (show : bool)
| Undo
| Redo
| ResetProject
| LoadProject (data : PixelData) (cfg : PixelConfig).

Definition dispatch (a : Action) (st : StoreState) : StoreState :=
  match a with
  | SetPixelData data saveHistory now => setPixelData data saveHistory now st
  | SetPixel x y colorId now => setPixel x y colorId now st
  | FillArea x y colorId now => fillArea x y colorId now st
  | SetConfig c => setConfig c st
  | SetOriginalImage image => setOriginalImage image st
  | SetMode m => setMode m st
  | SetTool tool => setTool tool st
  | SetSelectedColor colorId => setSelectedColor colorId st
  | SetHighlightColor colorId => setHighlightColor colorId st
  | SetZoom z => setZoom z st
  | SetPan x y => setPan x y st
  | SetShowColorCode show => setShowColorCode show st
  | SetFullscreen fullscreen => setFullscreen fullscreen st
  | SetShowColorStats show => setShowColorStats show st
  | Undo => undo st
  | Redo => redo st
  | ResetProject => resetProject st
  | LoadProject data cfg => loadProject data cfg st
  end.

(** The states the store can be in: the initial one, and whatever an
    action makes of a reachable state. *)
Inductive reachable : StoreState -> Prop :=
| reach_init : reachable initialState
| reach_step a st : reachable st -> reachable (dispatch a st).

End Actions.

End Store.

(** ** View transform ([utils/canvasRenderer.ts]) *)

Module View.
Local Open Scope R_scope.

(** What [screenToPixel] reads of the canvas element: its bitmap size and
    its bounding client rectangle. *)
Record Canvas := mkCanvas {
  canvasWidth : R;
  canvasHeight : R;
  rectLeft : R;
  rectTop : R;
  rectWidth : R;
  rectHeight : R
}.

Record Options := mkOptions {
  optPixelData : PixelData;
  cellSize : R;
  optZoom : R;
  optPanX : R;
  optPanY : R
}.

(** The transform [renderPixelGrid] installs before drawing,
    [translate(centerX + panX, centerY + panY); scale(zoom, zoom);
    translate(-gridWidth / 2, -gridHeight / 2)], applied to the point
    [(px, py)] of the grid's own coordinates: the canvas point it is drawn
    at. *)
Definition gridToCanvas (canvas : Canvas) (o : Options) (px py : R) : R * R :=
  let centerX := canvasWidth canvas / 2 in
  let centerY := canvasHeight canvas / 2 in
  let gridWidth := IZR (gridWidth (optPixelData o)) * cellSize o in
  let gridHeight := IZR (gridHeight (optPixelData o)) * cellSize o in
  (centerX + optPanX o + optZoom o * (px - gridWidth / 2),
   centerY + optPanY o + optZoom o * (py - gridHeight / 2)).

(** The centre of cell [(x, y)] in the grid's coordinates, where the
    renderer anchors the cell's label. *)
Definition cellCenter (o : Options) (x y : Z) : R * R :=
  (IZR x * cellSize o + cellSize o / 2, IZR y * cellSize o + cellSize o / 2).

(** The fractional grid coordinates [screenToPixel] computes before
    flooring. *)
Definition screenToGrid (screenX screenY : R) (canvas : Canvas) (o : Options)
  : R * R :=
  let width := IZR (gridWidth (optPixelData o)) in
  let height := IZR (gridHeight (optPixelData o)) in
  let canvasX := screenX - rectLeft canvas in
  let canvasY := screenY - rectTop canvas in
  let scaleX := canvasWidth canvas / rectWidth canvas in
  let scaleY := canvasHeight canvas / rectHeight canvas in
  let centerX := canvasWidth canvas / 2 in
  let centerY := canvasHeight canvas / 2 in
  let gridWidth := width * cellSize o in
  let gridHeight := height * cellSize o in
  (((canvasX * scaleX - centerX - optPanX o) / optZoom o + gridWidth / 2) / cellSize o,
   ((canvasY * scaleY - centerY - optPanY o) / optZoom o + gridHeight / 2) / cellSize o).

(** [screenToPixel]; [Int_part] is [Math.floor]. *)
Definition screenToPixel (screenX screenY : R) (canvas : Canvas) (o : Options)
  : option (Z * Z) :=
  let width := gridWidth (optPixelData o) in
  let height := gridHeight (optPixelData o) in
  let '(x, y) := screenToGrid screenX screenY canvas o in
  let pixelX := Int_part x in
  let pixelY := Int_part y in
  if ((pixelX >=? 0) && (pixelX <? width) && (pixelY >=? 0) && (pixelY <? height))%Z
  then Some (pixelX, pixelY)
  else None.

End View.

(** ** Further colour helpers ([utils/colorUtils.ts]) *)

(** [Math.round] on the idealised reals: the nearest integer, halves
    rounded up. *)
Definition roundR (x : R) : Z := Int_part (x + / 2).

Definition colorSimilarity (rgb1 rgb2 : RGB) : R :=
  let lab1 := ColorUtils.rgbToLab rgb1 in
  let lab2 := ColorUtils.rgbToLab rgb2 in
  let distance := ColorUtils.deltaE lab1 lab2 in
  Rmax 0 (100 - distance).

Definition blendColors (color1 color2 : RGB) (ratio : R) : RGB :=
  mkRGB (roundR (IZR (r color1) * (1 - ratio) + IZR (r color2) * ratio))
        (roundR (IZR (g color1) * (1 - ratio) + IZR (g color2) * ratio))
        (roundR (IZR (b color1) * (1 - ratio) + IZR (b color2) * ratio)).

(** A colour whose channels are what the arithmetic left: numbers, possibly
    NaN. *)
Record JsRGB := mkJsRGB { jsR : JsNumber; jsG : JsNumber; jsB : JsNumber }.

Definition adjustBrightness (rgb : RGB) (factor : JsNumber) : JsRGB :=
  mkJsRGB
    (Math.min (Num 255) (Math.max (Num 0) (Math.round (Math.times (r rgb) factor))))
    (Math.min (Num 255) (Math.max (Num 0) (Math.round (Math.times (g rgb) factor))))
    (Math.min (Num 255) (Math.max (Num 0) (Math.round (Math.times (b rgb) factor)))).

(** The value of a character matched by [[a-f\d]] under the [i] flag, as
    [parseInt(_, 16)] reads it; [None] when the class does not match. *)
Definition hexDigit (c : ascii) : option Z :=
  let n := Z.of_N (N_of_ascii c) in
  if (48 <=? n) && (n <=? 57) then Some (n - 48)
  else if (97 <=? n) && (n <=? 102) then Some (n - 87)
  else if (65 <=? n) && (n <=? 70) then Some (n - 55)
  else None.

(** [/^#?([a-f\d]{2})([a-f\d]{2})([a-f\d]{2})$/i.exec(hex)]: an optional
    leading [#], then exactly six hexadecimal digits; the three groups are
    read with [parseInt(_, 16)].  Anything else yields black. *)
Definition hexToRgb (hex : string) : RGB :=
  let digits :=
    match hex with
    | String "#" rest => rest
    | _ => hex
    end in
  match map hexDigit (list_ascii_of_string digits) with
  | [Some r1; Some r2; Some g1; Some g2; Some b1; Some b2] =>
      mkRGB (16 * r1 + r2) (16 * g1 + g2) (16 * b1 + b2)
  | _ => mkRGB 0 0 0
  end.

(** One digit of [Number.prototype.toString(16)]. *)
Definition digitChar (d : Z) : ascii :=
  ascii_of_N (Z.to_N (if d <? 10 then 48 + d else 87 + d)).

(** [v.toString(16)] for an integer [0 <= v <= 255], which is what the
    clamp in [toHex] hands it. *)
Definition toString16 (v : Z) : string :=
  if v <? 16 then String (digitChar v) EmptyString
  else String (digitChar (v / 16)) (String (digitChar (v mod 16)) EmptyString).

(** The local [toHex] of [rgbToHex], on an integer channel. *)
Definition toHex (n : Z) : string :=
  let hex := toString16 (Z.max 0 (Z.min 255 n)) in
  if (String.length hex =? 1)%nat then String "0" hex else hex.

Definition rgbToHex (rgb : RGB) : string :=
  String "#" (toHex (r rgb) ++ toHex (g rgb) ++ toHex (b rgb))%string.

(** ** Resizing ([utils/imageProcessor.ts]) *)

(** [resizePixelData], nearest neighbour; on integers
    [Math.floor(x * oldWidth / newWidth)] is the integer quotient. *)
Definition resizePixelData (pixelData : PixelData) (newWidth newHeight : Z)
  : PixelData :=
  let oldHeight := gridHeight pixelData in
  let oldWidth := gridWidth pixelData in
  map (fun y =>
         map (fun x =>
                let srcX := x * oldWidth / newWidth in
                let srcY := y * oldHeight / newHeight in
                if (srcY <? oldHeight) && (srcX <? oldWidth)
                then cellAt pixelData srcX srcY
                else Null)
             (JsArray.range newWidth))
      (JsArray.range newHeight).

(** ** The colour map ([utils/canvasRenderer.ts]) *)

(** A JavaScript [Map] with string keys, as the list of its entries in
    insertion order: [set] on a key that is present replaces the value in
    place, on a fresh key it appends. *)
Definition JsMap (V : Type) := list (string * V).

Fixpoint mapSet {V} (m : JsMap V) (key : string) (value : V) : JsMap V :=
  match m with
  | [] => [(key, value)]
  | (k, v) :: rest =>
      if String.eqb k key then (k, value) :: rest
      else (k, v) :: mapSet rest key value
  end.

Fixpoint mapGet {V} (m : JsMap V) (key : string) : option V :=
  match m with
  | [] => None
  | (k, v) :: rest => if String.eqb k key then Some v else mapGet rest key
  end.

Definition createColorMap (colors : list BeadColor) : JsMap BeadColor :=
  fold_left (fun m color => mapSet m (id color) color) colors [].

(** ** Colour statistics ([components/ColorStats.tsx]) *)

Record ColorStatItem := mkStat {
  statColorId : string;
  statColor : BeadColor;
  statCount : Z
}.

(** The body of the counting loops: [if (colorId)
    countMap.set(colorId, (countMap.get(colorId) || 0) + 1)]; [null],
    [undefined] and the empty string are falsy. *)
Definition countCell (countMap : JsMap Z) (cell : Cell) : JsMap Z :=
  match cell with
  | Color colorId =>
      if String.eqb colorId "" then countMap
      else
        let old := match mapGet countMap colorId with
                   | Some n => if n =? 0 then 0 else n
                   | None => 0
                   end in
        mapSet countMap colorId (old + 1)
  | _ => countMap
  end.

Definition countColors (pixelData : PixelData) : JsMap Z :=
  fold_left (fun countMap row => fold_left countCell row countMap) pixelData [].

(** [result.sort((a, b) => b.count - a.count)]: a stable sort, largest
    count first. *)
Fixpoint insertStat (item : ColorStatItem) (l : list ColorStatItem)
  : list ColorStatItem :=
  match l with
  | [] => [item]
  | h :: t =>
      if statCount h <=? statCount item then item :: h :: t
      else h :: insertStat item t
  end.

Definition sortStats (l : list ColorStatItem) : list ColorStatItem :=
  fold_right insertStat [] l.

(** The [stats] memo: one entry per counted id that [colors.find] knows. *)
Definition colorStats (pixelData : PixelData) (colors : list BeadColor)
  : list ColorStatItem :=
  let countMap := countColors pixelData in
  let result :=
    flat_map
      (fun entry : string * Z =>
         let '(colorId, count) := entry in
         match find (fun c => String.eqb (id c) colorId) colors with
         | Some color => [mkStat colorId color count]
         | None => []
         end)
      countMap in
  sortStats result.

(** The [totalCount] memo. *)
Definition totalCount (stats : list ColorStatItem) : Z :=
  fold_left (fun sum item => sum + statCount item) stats 0.

(** * Vocabulary of the properties *)

(** ** Sample inputs *)

Definition demoConfig : PixelConfig := mkConfig 2 2 2 perler true.

Definition demoGrid : PixelData :=
  [[Color "red"; Color "red"]; [Color "blue"; Color "blue"]]%string.

Definition demoStore : StoreState :=
  Store.loadProject demoGrid demoConfig (Store.initialState demoConfig).

(** A 3x1 grid red, blue, red: filling from the left cell must not touch the
    right one, which an in-between blue cell separates from the start. *)
Definition redBlueRed : PixelData := [[Color "red"; Color "blue"; Color "red"]]%string.

Definition opaquePixel (red green blue : Z) : RGBA := mkRGBA red green blue 255.

(** Three black samples and a white one: two distinct colours. *)
Definition blackBlackBlackWhite : ImageData :=
  [opaquePixel 0 0 0; opaquePixel 0 0 0; opaquePixel 0 0 0; opaquePixel 255 255 255].

(** The 2x2 image of the scenario: two red pixels over two blue ones, all
    opaque. *)
Definition redRedBlueBlue : ImageData :=
  [opaquePixel 255 0 0; opaquePixel 255 0 0; opaquePixel 0 0 255; opaquePixel 0 0 255].

Definition redBead : BeadColor :=
  mkBead "red" "Red" "R" "#FF0000" (mkRGB 255 0 0) None.

Definition blueBead : BeadColor :=
  mkBead "blue" "Blue" "B" "#0000FF" (mkRGB 0 0 255) None.

(** The bead the matcher picks for the quantized purple: blue, with the
    Lab value [precomputeLabValues] attached to it. *)
Definition blueBeadWithLab : BeadColor :=
  mkBead "blue" "Blue" "B" "#0000FF" (mkRGB 0 0 255)
         (Some (ColorUtils.rgbToLab (mkRGB 0 0 255))).

(** The demo store after fifty fills of its red cell [(0, 0)] with red, all
    at time 7. *)
Definition fiftyRedFills : StoreState :=
  Nat.iter 50 (Store.fillArea 0 0 "red" 7) demoStore.

Definition demoCanvas : View.Canvas := View.mkCanvas 800 600 8 16 800 600.

Definition demoOptions : View.Options := View.mkOptions demoGrid 20 2 30 (-10).

(** ** The store *)

(** What [setPixelData] makes of the history: the entries up to the cursor,
    the snapshot, and the eviction of the oldest entry beyond
    [MAX_HISTORY]. *)
Definition pushHistory (st : StoreState) (now : Z) : list HistoryItem :=
  let pushed :=
    JsArray.slice0 (history st) (historyIndex st + 1) ++ [mkItem (pixelData st) now] in
  if JsArray.len pushed >? MAX_HISTORY then tl pushed else pushed.

(** The cursor stays between [-1] and the last index, and the history
    within its capacity. *)
Definition history_inv (st : StoreState) : Prop :=
  -1 <= historyIndex st < JsArray.len (history st)
  /\ JsArray.len (history st) <= MAX_HISTORY.

Definition zoomClamped (u : UIState) : Prop :=
  match zoom u with
  | Num z => (0.1 <= z <= 10)%R
  | _ => False
  end.

(** The states the store reaches when [setZoom] is never handed NaN. *)
Inductive reachableNumeric (cfg : PixelConfig) : StoreState -> Prop :=
| numeric_init : reachableNumeric cfg (Store.initialState cfg)
| numeric_step a st :
    reachableNumeric cfg st ->
    a <> Store.SetZoom NaN ->
    reachableNumeric cfg (Store.dispatch cfg a st).

Definition fillIsNoop (data : PixelData) (x y : Z) (colorId : string) : Prop :=
  x < 0 \/ x >= gridWidth data \/ y < 0 \/ y >= gridHeight data
  \/ cellAt data x y = Color colorId.

(** A sequence of committed edits: each is the new grid and the time of the
    edit. *)
Definition applyEdits (edits : list (PixelData * Z)) (st : StoreState) : StoreState :=
  fold_left (fun s e => Store.setPixelData (fst e) true (snd e) s) edits st.

Fixpoint undoTimes (n : nat) (st : StoreState) : StoreState :=
  match n with
  | O => st
  | S n' => undoTimes n' (Store.undo st)
  end.

(** The grids [undo] would restore, the nearest first: the snapshots up to
    the cursor, read backwards. *)
Definition undoStack (st : StoreState) : list PixelData :=
  rev (map itemPixelData (firstn (Z.to_nat (historyIndex st + 1)) (history st))).

(** ** The quantizer *)

(** The number of colours held by all boxes together. *)
Definition totalColors (boxes : list ColorBox) : nat :=
  fold_right (fun box n => (length (colors box) + n)%nat) 0%nat boxes.

Definition boxesInhabited (boxes : list ColorBox) : Prop :=
  Forall (fun box => (1 <= length (colors box))%nat) boxes.

Definition RGB_eq_dec (c1 c2 : RGB) : {c1 = c2} + {c1 <> c2}.
Proof. decide equality; apply Z.eq_dec. Defined.

(** The number of distinct colours among the samples. *)
Definition distinctColors (samples : list RGB) : nat :=
  length (nodup RGB_eq_dec samples).

(** ** Lab coordinates *)

(** [rgbToLab] from the linearized channels. *)
Definition labOfLinear (r g b : R) : Lab :=
  (let x := (r * 0.4124564 + g * 0.3575761 + b * 0.1804375) / 0.95047 in
   let y := (r * 0.2126729 + g * 0.7151522 + b * 0.0721750) in
   let z := (r * 0.0193339 + g * 0.1191920 + b * 0.9503041) / 1.08883 in
   mkLab ((116 * ColorUtils.labF y) - 16)
         (500 * (ColorUtils.labF x - ColorUtils.labF y))
         (200 * (ColorUtils.labF y - ColorUtils.labF z)))%R.

Definition labWithin (l : Lab) (l0 l1 a0 a1 b0 b1 : R) : Prop :=
  (l0 <= lab_l l <= l1)%R /\ (a0 <= lab_a l <= a1)%R /\ (b0 <= lab_b l <= b1)%R.

(** ** The view *)

(** The screen point at which the canvas shows a given canvas point:
    [screenToPixel] maps the screen point [(sx, sy)] to the canvas point
    [((sx - rect.left) * scaleX, (sy - rect.top) * scaleY)]. *)
Definition showsAt (canvas : View.Canvas) (screenX screenY : R) (p : R * R) : Prop :=
  ((screenX - View.rectLeft canvas) * (View.canvasWidth canvas / View.rectWidth canvas)
   = fst p)%R
  /\ ((screenY - View.rectTop canvas)
      * (View.canvasHeight canvas / View.rectHeight canvas)
      = snd p)%R.

Definition inGrid (data : PixelData) (p : Z * Z) : Prop :=
  0 <= fst p < gridWidth data /\ 0 <= snd p < gridHeight data.

(** ** Flood fill *)

Definition inBounds (data : PixelData) (x y : Z) : Prop :=
  0 <= x < gridWidth data /\ 0 <= y < gridHeight data.

(** The four neighbours the loop enqueues. *)
Definition adjacent4 (p q : Point) : Prop :=
  q = (fst p + 1, snd p) \/ q = (fst p - 1, snd p)
  \/ q = (fst p, snd p + 1) \/ q = (fst p, snd p - 1).

(** The 4-connected region of the start cell: the cells reachable from it
    through in-bounds cells that hold the value the start cell holds. *)
Inductive sameColorRegion (data : PixelData) (startX startY : Z) : Z -> Z -> Prop :=
| region_start :
    inBounds data startX startY -> sameColorRegion data startX startY startX startY
| region_step x y x' y' :
    sameColorRegion data startX startY x y ->
    adjacent4 (x, y) (x', y') ->
    inBounds data x' y' ->
    cellAt data x' y' = cellAt data startX startY ->
    sameColorRegion data startX startY x' y'.

(** A queue entry is the start cell or a neighbour of a region cell. *)
Definition frontier (data : PixelData) (startX startY : Z) (q : Point) : Prop :=
  q = (startX, startY)
  \/ exists x y, sameColorRegion data startX startY x y /\ adjacent4 (x, y) q.

(** What every pass of the loop maintains: the copy has the height of the
    grid, each of its cells is either untouched or a recoloured cell of the
    region, and the queue holds frontier cells only. *)
Definition fillInv (data : PixelData) (startX startY : Z) (newColorId : Cell)
           (newData : PixelData) (queue : list Point) : Prop :=
  gridHeight newData = gridHeight data
  /\ (forall x y, cellAt newData x y = cellAt data x y
                  \/ (cellAt newData x y = newColorId
                      /\ sameColorRegion data startX startY x y))
  /\ (forall q, In q queue -> frontier data startX startY q).

(** All cells [(x, y)] with [0 <= x < width] and [0 <= y < height]. *)
Definition allCells (width height : Z) : list Point :=
  flat_map (fun y : Z => map (fun x : Z => (x, y)) (JsArray.range width)) (JsArray.range height).

Definition unvisited (width height : Z) (visited : list Point) : nat :=
  length (filter (fun p => negb (visitedHas visited p)) (allCells width height)).

(** ** Flood fill: the cells still to be reached *)

(** A cell the loop will still recolour: it holds the target value, lies in
    bounds, and is in the queue or next to another such cell. *)
Inductive openCell (data : PixelData) (startX startY : Z)
          (newData : PixelData) (queue : list Point) : Point -> Prop :=
| open_here p :
    In p queue ->
    inBounds data (fst p) (snd p) ->
    cellAt newData (fst p) (snd p) = cellAt data startX startY ->
    openCell data startX startY newData queue p
| open_step p' p :
    openCell data startX startY newData queue p' ->
    adjacent4 p' p ->
    inBounds data (fst p) (snd p) ->
    cellAt newData (fst p) (snd p) = cellAt data startX startY ->
    openCell data startX startY newData queue p.

(** What every pass of the loop maintains towards completeness: the copy has
    the height of the grid, visited cells are recoloured, and every cell of
    the region is recoloured or still open. *)
Definition fillProgress (data : PixelData) (startX startY : Z) (newColorId : Cell)
           (newData : PixelData) (queue visited : list Point) : Prop :=
  gridHeight newData = gridHeight data
  /\ (forall v, In v visited -> cellAt newData (fst v) (snd v) = newColorId)
  /\ (forall x y, sameColorRegion data startX startY x y ->
                  cellAt newData x y = newColorId
                  \/ openCell data startX startY newData queue (x, y)).

(** ** Grids *)

(** Every row has the width of the first one. *)
Definition rectangular (data : PixelData) : Prop :=
  Forall (fun row => JsArray.len row = gridWidth data) data.

(** One entry of [precomputeLabValues]: the bead with its Lab value filled in. *)
Definition withLab (color : BeadColor) : BeadColor :=
  mkBead (id color) (name color) (code color) (hex color) (rgb color)
         (Some (ColorUtils.labOf color)).

(** [Math.max(0, Math.min(255, n))]. *)
Definition clampChannel (n : Z) : Z := Z.max 0 (Z.min 255 n).

(** An integer colour among the colours with number channels. *)
Definition ofRGB (c : RGB) : JsRGB :=
  mkJsRGB (Num (IZR (r c))) (Num (IZR (g c))) (Num (IZR (b c))).

(** A channel of a colour lies within [lo .. hi]. *)
Definition channelWithin (ch : Channel) (lo hi : Z) (c : RGB) : Prop :=
  lo <= channelOf ch c <= hi.

(** Every colour of every box is one of [samples]. *)
Definition boxesFrom (samples : list RGB) (boxes : list ColorBox) : Prop :=
  Forall (fun box => incl (colors box) samples) boxes.

(** The box bounds are exactly the channels of [c]. *)
Definition tightAround (c : RGB) (box : ColorBox) : Prop :=
  rMin box = r c /\ rMax box = r c /\ gMin box = g c /\ gMax box = g c
  /\ bMin box = b c /\ bMax box = b c.


(** Every pixel is opaque and has the colour [c]. *)
Definition allOpaque (c : RGB) (imageData : ImageData) : Prop :=
  Forall (fun px => 128 <= px_a px /\ mkRGB (px_r px) (px_g px) (px_b px) = c)
         imageData.

(** The cell holds an id that [ColorStats] counts and finds in [colors]. *)
Definition countedCell (colors : list BeadColor) (cell : Cell) : bool :=
  match cell with
  | Color colorId =>
      negb (String.eqb colorId "")
      && existsb (fun c => String.eqb (id c) colorId) colors
  | _ => false
  end.

(** The cell holds the id [colorId]. *)
Definition holdsId (colorId : string) (cell : Cell) : bool :=
  match cell with
  | Color i => String.eqb i colorId
  | _ => false
  end.

(** [countMap.get(key) || 0]. *)
Definition countOf (countMap : JsMap Z) (key : string) : Z :=
  match mapGet countMap key with
  | Some n => n
  | None => 0
  end.

(** The entries [ColorStats] keeps of a count map, before sorting. *)
Definition statsOf (colors : list BeadColor) (countMap : JsMap Z)
  : list ColorStatItem :=
  flat_map
    (fun entry : string * Z =>
       let '(colorId, count) := entry in
       match find (fun c => String.eqb (id c) colorId) colors with
       | Some color => [mkStat colorId color count]
       | None => []
       end)
    countMap.

(** Largest count first. *)
Fixpoint descending (stats : list ColorStatItem) : Prop :=
  match stats with
  | [] => True
  | item :: rest =>
      (forall later, In later rest -> statCount later <= statCount item)
      /\ descending rest
  end.

(** The cells of the grid that hold an id [ColorStats] counts and finds in
    [colors], and those that hold a given id. *)
Definition countedCells (colors : list BeadColor) (pixelData : PixelData) : Z :=
  Z.of_nat (length (filter (countedCell colors) (concat pixelData))).

Definition cellsHolding (colorId : string) (pixelData : PixelData) : Z :=
  Z.of_nat (length (filter (holdsId colorId) (concat pixelData))).

(** The actions that edit the grid or move through its history; the others
    set the configuration, the image or a field of the UI. *)
Definition touchesGrid (a : Store.Action) : bool :=
  match a with
  | Store.SetPixelData _ _ _ | Store.SetPixel _ _ _ _ | Store.FillArea _ _ _ _
  | Store.Undo | Store.Redo | Store.ResetProject | Store.LoadProject _ _ => true
  | _ => false
  end.

(** * Properties *)

(** ** Arrays and grids *)

Lemma Cell_eqb_eq (a c : Cell) : Cell_eqb a c = true <-> a = c.
Proof.
  destruct a, c; simpl; split; intros H; try reflexivity; try discriminate.
  - apply String.eqb_eq in H. now subst.
  - injection H as ->. apply String.eqb_refl.
Qed.

Lemma Cell_eqb_refl (a : Cell) : Cell_eqb a a = true.
Proof. now apply Cell_eqb_eq. Qed.

Lemma Cell_eqb_neq (a c : Cell) : Cell_eqb a c = false <-> a <> c.
Proof.
  rewrite <- Cell_eqb_eq. destruct (Cell_eqb a c); split; congruence.
Qed.

Lemma cellOf_defined (colorId : option string) : cellOf colorId <> Undefined.
Proof. destruct colorId; discriminate. Qed.

Lemma get_nth {A} (l : list A) (i : Z) :
  0 <= i -> JsArray.get l i = nth_error l (Z.to_nat i).
Proof.
  intros Hi. unfold JsArray.get.
  destruct (Z.ltb_spec i 0); [lia | reflexivity].
Qed.

Lemma get_some_lt {A} (l : list A) (i : Z) (a : A) :
  JsArray.get l i = Some a -> 0 <= i < JsArray.len l.
Proof.
  unfold JsArray.get, JsArray.len. destruct (Z.ltb_spec i 0); [discriminate|].
  intros Hg. assert (nth_error l (Z.to_nat i) <> None) as Hn by congruence.
  apply nth_error_Some in Hn. lia.
Qed.

Lemma get_in_range {A} (l : list A) (i : Z) :
  0 <= i < JsArray.len l -> exists a, JsArray.get l i = Some a.
Proof.
  intros [H0 H1]. rewrite get_nth by assumption.
  destruct (nth_error l (Z.to_nat i)) eqn:E; [eauto|].
  apply nth_error_None in E. unfold JsArray.len in H1. lia.
Qed.

Lemma rowGet_nth (row : list Cell) (x : Z) :
  0 <= x -> rowGet row x = nth (Z.to_nat x) row Undefined.
Proof.
  intros Hx. unfold rowGet. rewrite get_nth by assumption.
  generalize (Z.to_nat x) as n. clear.
  induction row as [|c t IH]; intros [|n]; simpl; auto.
Qed.

Lemma rowGet_neg (row : list Cell) (x : Z) : x < 0 -> rowGet row x = Undefined.
Proof.
  intros Hx. unfold rowGet, JsArray.get.
  destruct (Z.ltb_spec x 0); [reflexivity | lia].
Qed.

Lemma nth_rowSetNat (row : list Cell) (n m : nat) (v : Cell) :
  nth m (rowSetNat row n v) Undefined
  = if Nat.eqb m n then v else nth m row Undefined.
Proof.
  revert row m. induction n as [|n IH]; intros [|c t] [|m]; simpl; auto.
  - now destruct m.
  - rewrite IH. destruct (Nat.eqb m n); [reflexivity | now destruct m].
Qed.

(** Reading back what [row[x] = v] wrote, at every index. *)
Lemma rowGet_rowSet (row : list Cell) (x x' : Z) (v : Cell) :
  0 <= x ->
  rowGet (rowSet row x v) x' = if x' =? x then v else rowGet row x'.
Proof.
  intros Hx. destruct (Z.ltb_spec x' 0) as [Hneg|Hpos].
  - rewrite !rowGet_neg by assumption.
    destruct (Z.eqb_spec x' x); [lia | reflexivity].
  - rewrite !rowGet_nth by assumption. unfold rowSet. rewrite nth_rowSetNat.
    destruct (Z.eqb_spec x' x) as [->|Hne].
    + now rewrite Nat.eqb_refl.
    + destruct (Nat.eqb_spec (Z.to_nat x') (Z.to_nat x)); [lia | reflexivity].
Qed.

Lemma rowSetNat_length_in (row : list Cell) (n : nat) (v : Cell) :
  (n < length row)%nat -> length (rowSetNat row n v) = length row.
Proof.
  revert row. induction n as [|n IH]; intros [|c t] H; simpl in *; try lia.
  now rewrite IH by lia.
Qed.

(** Writing back the value a cell held restores the row. *)
Lemma rowSetNat_restore (row : list Cell) (n : nat) (v : Cell) :
  (n < length row)%nat ->
  rowSetNat (rowSetNat row n v) n (nth n row Undefined) = row.
Proof.
  revert row. induction n as [|n IH]; intros [|c t] H; simpl in *; try lia.
  - reflexivity.
  - now rewrite IH by lia.
Qed.

(** The [map] of [setPixel] is the assignment [newData[y][x] = colorId] on
    a copy. *)
Lemma mapi_from_gridSet (data : PixelData) (x y i : Z) (v : Cell) :
  0 <= y ->
  JsArray.mapi_from
    (fun row rowIndex => if rowIndex =? y + i then rowSet row x v else row) i data
  = gridSetNat data x (Z.to_nat y) v.
Proof.
  intros Hy. remember (Z.to_nat y) as n eqn:En.
  revert y i Hy En data. induction n as [|n IH]; intros y i Hy En [|row t]; simpl; auto.
  - assert (y = 0) by lia. subst y. rewrite Z.add_0_l, Z.eqb_refl. f_equal.
    clear. assert (forall j, i < j ->
      JsArray.mapi_from (fun row rowIndex => if rowIndex =? i then rowSet row x v else row) j t = t)
      as H.
    { induction t as [|r t IH]; intros j Hj; simpl; [reflexivity|].
      destruct (Z.eqb_spec j i); [lia|]. now rewrite IH by lia. }
    replace (0 + i) with i by lia. apply H. lia.
  - destruct (Z.eqb_spec i (y + i)); [lia|]. f_equal.
    replace (y + i) with ((y - 1) + (i + 1)) by lia.
    apply IH; lia.
Qed.

Lemma mapi_gridSet (data : PixelData) (x y : Z) (v : Cell) :
  0 <= y ->
  JsArray.mapi (fun row rowIndex => if rowIndex =? y then rowSet row x v else row) data
  = gridSet data x y v.
Proof.
  intros Hy. unfold JsArray.mapi, gridSet.
  rewrite <- (mapi_from_gridSet data x y 0 v Hy).
  now replace (y + 0) with y by lia.
Qed.

Lemma gridSetNat_length (data : PixelData) (x : Z) (n : nat) (v : Cell) :
  length (gridSetNat data x n v) = length data.
Proof.
  revert data. induction n as [|n IH]; intros [|row t]; simpl; auto.
Qed.

Lemma gridHeight_gridSet (data : PixelData) (x y : Z) (v : Cell) :
  gridHeight (gridSet data x y v) = gridHeight data.
Proof.
  unfold gridHeight, JsArray.len, gridSet. now rewrite gridSetNat_length.
Qed.

Lemma nth_gridSetNat (data : PixelData) (x : Z) (n m : nat) (v : Cell) :
  (n < length data)%nat ->
  nth m (gridSetNat data x n v) []
  = if Nat.eqb m n then rowSet (nth n data []) x v else nth m data [].
Proof.
  revert data m. induction n as [|n IH]; intros [|row t] [|m] Hn; simpl in *;
    try lia; auto.
  apply IH. lia.
Qed.

Lemma cellAt_nth (data : PixelData) (x y : Z) :
  0 <= y -> cellAt data x y = rowGet (nth (Z.to_nat y) data []) x.
Proof.
  intros Hy. unfold cellAt. rewrite get_nth by assumption.
  destruct (nth_error data (Z.to_nat y)) eqn:E.
  - now rewrite (nth_error_nth _ _ _ E).
  - apply nth_error_None in E. rewrite nth_overflow by assumption.
    unfold rowGet, JsArray.get. destruct (x <? 0); [reflexivity|].
    now destruct (Z.to_nat x).
Qed.

(** Reading back what [data[y][x] = v] wrote, at every cell. *)
Lemma cellAt_gridSet (data : PixelData) (x y x' y' : Z) (v : Cell) :
  0 <= x -> 0 <= y < gridHeight data ->
  cellAt (gridSet data x y v) x' y'
  = if (x' =? x) && (y' =? y) then v else cellAt data x' y'.
Proof.
  intros Hx [Hy0 Hy1]. unfold gridHeight, JsArray.len in Hy1.
  destruct (Z.ltb_spec y' 0) as [Hneg|Hpos].
  - unfold cellAt, JsArray.get. destruct (Z.ltb_spec y' 0); [|lia].
    destruct (Z.eqb_spec y' y); [lia|]. now rewrite andb_false_r.
  - rewrite !cellAt_nth by assumption. unfold gridSet.
    rewrite nth_gridSetNat by lia.
    destruct (Z.eqb_spec y' y) as [->|Hne].
    + rewrite Nat.eqb_refl, rowGet_rowSet by assumption.
      now rewrite andb_true_r.
    + destruct (Nat.eqb_spec (Z.to_nat y') (Z.to_nat y)); [lia|].
      now rewrite andb_false_r.
Qed.

Lemma gridSetNat_restore (data : PixelData) (x : Z) (n : nat) (v : Cell) :
  (n < length data)%nat ->
  (Z.to_nat x < length (nth n data []))%nat ->
  gridSetNat (gridSetNat data x n v) x n (nth (Z.to_nat x) (nth n data []) Undefined)
  = data.
Proof.
  revert data. induction n as [|n IH]; intros [|row t] H Hx; simpl in *; try lia.
  - unfold rowSet. now rewrite rowSetNat_restore.
  - now rewrite IH by lia.
Qed.

(** A cell that holds a [string | null] value lies inside its row. *)
Lemma cellAt_defined_in_row (data : PixelData) (x y : Z) :
  0 <= x -> 0 <= y -> cellAt data x y <> Undefined ->
  (Z.to_nat y < length data)%nat
  /\ (Z.to_nat x < length (nth (Z.to_nat y) data []))%nat.
Proof.
  intros Hx Hy Hc. rewrite cellAt_nth, rowGet_nth in Hc by assumption.
  assert (Z.to_nat x < length (nth (Z.to_nat y) data []))%nat as Hlt.
  { destruct (Nat.ltb_spec (Z.to_nat x) (length (nth (Z.to_nat y) data []))); auto.
    now rewrite nth_overflow in Hc by assumption. }
  split; [|assumption].
  destruct (Nat.ltb_spec (Z.to_nat y) (length data)); auto.
  rewrite nth_overflow in Hlt by assumption. simpl in Hlt. lia.
Qed.

Lemma gridWidth_gridSet (data : PixelData) (x y : Z) (v : Cell) :
  0 <= x < gridWidth data -> gridWidth (gridSet data x y v) = gridWidth data.
Proof.
  intros Hx. unfold gridSet. destruct data as [|row t]; [now destruct (Z.to_nat y)|].
  destruct (Z.to_nat y); simpl; [|reflexivity].
  simpl in Hx. unfold JsArray.len in *. unfold rowSet.
  rewrite rowSetNat_length_in; [reflexivity | lia].
Qed.

(** ** The store: single-cell edits *)

Lemma pixelData_setPixelData data saveHistory now st :
  pixelData (Store.setPixelData data saveHistory now st) = data.
Proof. unfold Store.setPixelData. now destruct saveHistory. Qed.

Lemma setPixel_out_of_range x y colorId now st :
  y < 0 \/ y >= gridHeight (pixelData st) \/ x < 0 \/ x >= gridWidth (pixelData st) ->
  Store.setPixel x y colorId now st = st.
Proof.
  intros H. unfold Store.setPixel. unfold gridHeight in H.
  destruct (Z.ltb_spec y 0); simpl; [reflexivity|].
  destruct (Z.geb_spec y (JsArray.len (pixelData st))); simpl; [reflexivity|].
  destruct (Z.ltb_spec x 0); simpl; [reflexivity|].
  destruct (Z.geb_spec x (gridWidth (pixelData st))); simpl; [reflexivity|].
  lia.
Qed.

Lemma setPixel_in_range x y colorId now st :
  0 <= y < gridHeight (pixelData st) -> 0 <= x < gridWidth (pixelData st) ->
  Store.setPixel x y colorId now st
  = if Cell_eqb (cellAt (pixelData st) x y) (cellOf colorId) then st
    else Store.setPixelData (gridSet (pixelData st) x y (cellOf colorId)) true now st.
Proof.
  intros Hy Hx. unfold Store.setPixel. unfold gridHeight in Hy.
  destruct (Z.ltb_spec y 0); [lia|].
  destruct (Z.geb_spec y (JsArray.len (pixelData st))); [lia|].
  destruct (Z.ltb_spec x 0); [lia|].
  destruct (Z.geb_spec x (gridWidth (pixelData st))); [lia|]. simpl.
  now rewrite mapi_gridSet by lia.
Qed.

(** C7.  For every store state, every in-bounds cell [(x, y)] holding the
    value [orig] and every colour value [v]: [setPixel(x, y, v)] followed by
    [setPixel(x, y, orig)] leaves a grid equal to the starting grid. *)
Theorem setPixel_round_trip (st : StoreState) (x y : Z) (v orig : option string)
        (now1 now2 : Z) :
  0 <= y < gridHeight (pixelData st) ->
  0 <= x < gridWidth (pixelData st) ->
  cellAt (pixelData st) x y = cellOf orig ->
  pixelData (Store.setPixel x y orig now2 (Store.setPixel x y v now1 st))
  = pixelData st.
Proof.
  intros Hy Hx Horig.
  rewrite (setPixel_in_range x y v now1 st Hy Hx).
  destruct (Cell_eqb (cellAt (pixelData st) x y) (cellOf v)) eqn:Ev.
  - rewrite (setPixel_in_range x y orig now2 st Hy Hx).
    now rewrite Horig, Cell_eqb_refl.
  - rewrite setPixel_in_range; rewrite pixelData_setPixelData.
    + rewrite cellAt_gridSet by lia. rewrite !Z.eqb_refl. cbn [andb].
      destruct (Cell_eqb (cellOf v) (cellOf orig)) eqn:Eo.
      * apply Cell_eqb_eq in Eo. rewrite Eo, Horig in Ev.
        now rewrite Cell_eqb_refl in Ev.
      * rewrite pixelData_setPixelData.
        assert (cellAt (pixelData st) x y <> Undefined) as Hdef
            by (rewrite Horig; apply cellOf_defined).
        destruct (cellAt_defined_in_row _ x y ltac:(lia) ltac:(lia) Hdef) as [Hr Hc].
        rewrite <- Horig, cellAt_nth, rowGet_nth by lia.
        unfold gridSet. now apply gridSetNat_restore.
    + now rewrite gridHeight_gridSet.
    + now rewrite gridWidth_gridSet.
Qed.

Lemma setPixel_round_trip_witness :
  pixelData (Store.setPixel 1 0 (Some "red"%string) 2
               (Store.setPixel 1 0 (Some "blue"%string) 1 demoStore))
  = pixelData demoStore.
Proof.
  apply (setPixel_round_trip demoStore 1 0 (Some "blue"%string) (Some "red"%string) 1 2).
  - vm_compute. split; [discriminate | reflexivity].
  - vm_compute. split; [discriminate | reflexivity].
  - reflexivity.
Defined.

(** ** The store: history *)

Lemma history_setPixelData data now st :
  history (Store.setPixelData data true now st) = pushHistory st now.
Proof. reflexivity. Qed.

Lemma historyIndex_setPixelData data now st :
  historyIndex (Store.setPixelData data true now st)
  = JsArray.len (pushHistory st now) - 1.
Proof. reflexivity. Qed.

(** The pushed history always ends with the snapshot of the grid that was
    current before the edit. *)
Lemma pushHistory_shape st now :
  exists older, pushHistory st now = older ++ [mkItem (pixelData st) now]
    /\ (older = JsArray.slice0 (history st) (historyIndex st + 1)
        \/ older = tl (JsArray.slice0 (history st) (historyIndex st + 1))).
Proof.
  unfold pushHistory.
  set (s := JsArray.slice0 (history st) (historyIndex st + 1)).
  destruct (Z.gtb_spec (JsArray.len (s ++ [mkItem (pixelData st) now])) MAX_HISTORY)
    as [Hgt|Hle].
  - destruct s as [|a s'].
    + unfold JsArray.len, MAX_HISTORY in Hgt. simpl in Hgt. lia.
    + exists s'. simpl. auto.
  - exists s. auto.
Qed.

Lemma get_last {A} (l : list A) (a : A) :
  JsArray.get (l ++ [a]) (JsArray.len (l ++ [a]) - 1) = Some a.
Proof.
  unfold JsArray.len. rewrite length_app. simpl.
  rewrite get_nth by lia.
  replace (Z.to_nat (Z.of_nat (length l + 1) - 1)) with (length l) by lia.
  rewrite nth_error_app2 by lia. now rewrite Nat.sub_diag.
Qed.

(** After any committed edit, [undo] brings back the grid the edit
    replaced. *)
Lemma undo_setPixelData data now st :
  pixelData (Store.undo (Store.setPixelData data true now st)) = pixelData st
  /\ history (Store.undo (Store.setPixelData data true now st)) = pushHistory st now
  /\ historyIndex (Store.undo (Store.setPixelData data true now st))
     = JsArray.len (pushHistory st now) - 2.
Proof.
  unfold Store.undo.
  rewrite historyIndex_setPixelData, history_setPixelData.
  destruct (pushHistory_shape st now) as (older & -> & _).
  rewrite get_last.
  assert (JsArray.len (older ++ [mkItem (pixelData st) now]) >= 1) as Hlen.
  { unfold JsArray.len. rewrite length_app. simpl. lia. }
  destruct (Z.geb_spec (JsArray.len (older ++ [mkItem (pixelData st) now]) - 1) 0);
    [|lia].
  simpl. repeat split. lia.
Qed.

(** [redo] straight after that [undo] moves the cursor forward again but
    leaves the grid as [undo] set it: no entry follows the cursor, so the
    grid the edit produced is not brought back. *)
Lemma redo_undo_setPixelData data now st :
  Store.canRedo (Store.undo (Store.setPixelData data true now st)) = true
  /\ pixelData (Store.redo (Store.undo (Store.setPixelData data true now st)))
     = pixelData st
  /\ historyIndex (Store.redo (Store.undo (Store.setPixelData data true now st)))
     = JsArray.len (pushHistory st now) - 1.
Proof.
  destruct (undo_setPixelData data now st) as (Hp & Hh & Hi).
  remember (Store.undo (Store.setPixelData data true now st)) as u eqn:Eu.
  clear Eu. unfold Store.canRedo, Store.redo. rewrite Hh, Hi.
  set (n := JsArray.len (pushHistory st now)).
  destruct (Z.ltb_spec (n - 2) (n - 1)); [|lia].
  destruct (Z.ltb_spec (n - 2 + 1 + 1) n); [lia|].
  cbn [pixelData historyIndex]. repeat split; [assumption | lia].
Qed.

(** C1 (the code departs from the claim).  On the 2x2 demo grid, one edit
    followed by [undo] and then [redo]: [undo] restores the initial grid,
    [canRedo] answers true, yet [redo] leaves the initial grid in place
    instead of the grid the edit had produced. *)
Theorem redo_after_undo_does_not_restore_edit :
  let st1 := Store.setPixel 0 0 (Some "green"%string) 1 demoStore in
  pixelData st1 = [[Color "green"; Color "red"]; [Color "blue"; Color "blue"]]%string
  /\ pixelData (Store.undo st1) = demoGrid
  /\ Store.canRedo (Store.undo st1) = true
  /\ pixelData (Store.redo (Store.undo st1)) = demoGrid
  /\ pixelData (Store.redo (Store.undo st1)) <> pixelData st1.
Proof.
  vm_compute. repeat split; discriminate.
Qed.

Lemma len_slice0_le {A} (l : list A) (e : Z) :
  JsArray.len (JsArray.slice0 l e) <= JsArray.len l.
Proof.
  unfold JsArray.slice0, JsArray.len.
  destruct (e <? 0); rewrite length_firstn; lia.
Qed.

Lemma slice0_in_range {A} (l : list A) (e : Z) :
  0 <= e <= JsArray.len l ->
  JsArray.slice0 l e = firstn (Z.to_nat e) l /\ JsArray.len (JsArray.slice0 l e) = e.
Proof.
  intros He. unfold JsArray.slice0, JsArray.len in *.
  destruct (Z.ltb_spec e 0); [lia|]. split; [reflexivity|].
  rewrite length_firstn. lia.
Qed.

Lemma len_tl {A} (l : list A) : JsArray.len (tl l) = Z.max 0 (JsArray.len l - 1).
Proof. unfold JsArray.len. destruct l; cbn [tl length]; lia. Qed.

Lemma len_pushHistory st now :
  1 <= JsArray.len (pushHistory st now)
  /\ (JsArray.len (history st) <= MAX_HISTORY ->
      JsArray.len (pushHistory st now) <= MAX_HISTORY).
Proof.
  unfold pushHistory.
  set (s := JsArray.slice0 (history st) (historyIndex st + 1)).
  assert (JsArray.len s <= JsArray.len (history st)) as Hs by apply len_slice0_le.
  assert (JsArray.len (s ++ [mkItem (pixelData st) now]) = JsArray.len s + 1) as Hp.
  { unfold JsArray.len. rewrite length_app. simpl. lia. }
  assert (0 <= JsArray.len s) as H0 by (unfold JsArray.len; lia).
  destruct (Z.gtb_spec (JsArray.len (s ++ [mkItem (pixelData st) now])) MAX_HISTORY).
  - rewrite len_tl. unfold MAX_HISTORY in *. lia.
  - unfold MAX_HISTORY in *. lia.
Qed.

Lemma history_inv_setPixelData data saveHistory now st :
  history_inv st -> history_inv (Store.setPixelData data saveHistory now st).
Proof.
  intros [Hi Hc]. destruct saveHistory; [|exact (conj Hi Hc)].
  unfold history_inv. rewrite historyIndex_setPixelData, history_setPixelData.
  destruct (len_pushHistory st now) as [H1 H2]. specialize (H2 Hc). lia.
Qed.

Lemma history_inv_setPixel x y colorId now st :
  history_inv st -> history_inv (Store.setPixel x y colorId now st).
Proof.
  intros H. unfold Store.setPixel.
  repeat match goal with |- context [if ?c then _ else _] => destruct c end;
    auto using history_inv_setPixelData.
Qed.

Lemma history_inv_undo st : history_inv st -> history_inv (Store.undo st).
Proof.
  intros [Hi Hc]. unfold Store.undo.
  destruct (Z.geb_spec (historyIndex st) 0); [|exact (conj Hi Hc)].
  destruct (JsArray.get (history st) (historyIndex st)); [|exact (conj Hi Hc)].
  unfold history_inv. simpl. lia.
Qed.

Lemma history_inv_redo st : history_inv st -> history_inv (Store.redo st).
Proof.
  intros [Hi Hc]. unfold Store.redo.
  destruct (Z.ltb_spec (historyIndex st) (JsArray.len (history st) - 1));
    [|exact (conj Hi Hc)].
  destruct (historyIndex st + 1 + 1 <? JsArray.len (history st)).
  - destruct (JsArray.get (history st) (historyIndex st + 1 + 1));
      unfold history_inv; simpl; lia.
  - unfold history_inv; simpl; lia.
Qed.

Lemma history_inv_initial cfg : history_inv (Store.initialState cfg).
Proof. unfold history_inv, MAX_HISTORY. simpl. unfold JsArray.len. simpl. lia. Qed.

Lemma history_inv_dispatch cfg a st :
  history_inv st -> history_inv (Store.dispatch cfg a st).
Proof.
  intros H. destruct a; simpl;
    auto using history_inv_setPixelData, history_inv_setPixel, history_inv_undo,
      history_inv_redo, history_inv_initial.
  - apply history_inv_setPixelData, H.
  - apply history_inv_initial.
  - unfold history_inv, MAX_HISTORY. simpl. unfold JsArray.len. simpl. lia.
Qed.

(** In every reachable state the cursor is [-1 .. length - 1] and the
    history holds at most [MAX_HISTORY] entries; in particular the entry
    [undo] reads exists. *)
Lemma history_inv_reachable cfg st : Store.reachable cfg st -> history_inv st.
Proof.
  induction 1; auto using history_inv_initial, history_inv_dispatch.
Qed.

(** ** The store: zoom *)

Lemma clamp_range (z : R) : (0.1 <= Rmax 0.1 (Rmin 10 z) <= 10)%R.
Proof.
  unfold Rmax, Rmin.
  destruct (Rle_dec 10 z); destruct (Rle_dec 0.1 _); lra.
Qed.

Lemma ui_setPixelData data saveHistory now st :
  ui (Store.setPixelData data saveHistory now st) = ui st.
Proof. now destruct saveHistory. Qed.

Lemma ui_setPixel x y colorId now st : ui (Store.setPixel x y colorId now st) = ui st.
Proof.
  unfold Store.setPixel.
  repeat match goal with |- context [if ?c then _ else _] => destruct c end;
    auto using ui_setPixelData.
Qed.

Lemma ui_undo st : ui (Store.undo st) = ui st.
Proof.
  unfold Store.undo. destruct (historyIndex st >=? 0); [|reflexivity].
  now destruct (JsArray.get (history st) (historyIndex st)).
Qed.

Lemma ui_redo st : ui (Store.redo st) = ui st.
Proof.
  unfold Store.redo.
  destruct (historyIndex st <? JsArray.len (history st) - 1); [|reflexivity].
  destruct (historyIndex st + 1 + 1 <? JsArray.len (history st)); [|reflexivity].
  now destruct (JsArray.get (history st) (historyIndex st + 1 + 1)).
Qed.

Lemma setZoom_clamps (z : JsNumber) :
  z <> NaN ->
  exists c, Math.max (Num 0.1) (Math.min (Num 10) z) = Num c /\ (0.1 <= c <= 10)%R.
Proof.
  intros Hz. destruct z as [x| | |]; cbn [Math.max Math.min].
  - exists (Rmax 0.1 (Rmin 10 x)). split; [reflexivity | apply clamp_range].
  - exists (Rmax 0.1 10). split; [reflexivity|].
    unfold Rmax. destruct (Rle_dec 0.1 10); lra.
  - exists 0.1%R. split; [reflexivity | lra].
  - contradiction.
Qed.

Lemma zoomClamped_setZoom (z : JsNumber) (st : StoreState) :
  z <> NaN -> zoomClamped (ui (Store.setZoom z st)).
Proof.
  intros Hz. destruct (setZoom_clamps z Hz) as (c & Hc & Hrange).
  unfold zoomClamped, Store.setZoom. cbn [ui Store.withUI zoom].
  now rewrite Hc.
Qed.

Lemma zoom_setZoom_NaN (st : StoreState) : zoom (ui (Store.setZoom NaN st)) = NaN.
Proof. reflexivity. Qed.

Lemma ui_dispatch_zoom cfg a st :
  (forall z, a <> Store.SetZoom z) ->
  zoom (ui (Store.dispatch cfg a st)) = zoom (ui st)
  \/ zoom (ui (Store.dispatch cfg a st)) = Num 1.
Proof.
  intros Ha. destruct a; cbn [Store.dispatch];
    rewrite ?ui_setPixelData, ?ui_setPixel, ?ui_undo, ?ui_redo;
    try (left; reflexivity).
  - now elim (Ha z).
  - right. reflexivity.
Qed.

Lemma zoomClamped_initial : zoomClamped initialUIState.
Proof. unfold zoomClamped. cbn [zoom initialUIState]. lra. Qed.

Lemma zoomClamped_dispatch cfg a st :
  a <> Store.SetZoom NaN ->
  zoomClamped (ui st) -> zoomClamped (ui (Store.dispatch cfg a st)).
Proof.
  intros Ha H.
  assert ((exists z, a = Store.SetZoom z) \/ forall z, a <> Store.SetZoom z) as [[z ->]|Hn].
  { destruct a; try (right; intros ?; discriminate). left. now exists z. }
  - cbn [Store.dispatch]. apply zoomClamped_setZoom. intros ->. now apply Ha.
  - destruct (ui_dispatch_zoom cfg a st Hn) as [Hz|Hz];
      unfold zoomClamped in *; rewrite Hz; [exact H | lra].
Qed.

Lemma zoomOrNaN_dispatch cfg a st :
  zoomClamped (ui st) \/ zoom (ui st) = NaN ->
  zoomClamped (ui (Store.dispatch cfg a st))
  \/ zoom (ui (Store.dispatch cfg a st)) = NaN.
Proof.
  intros H.
  assert ((exists z, a = Store.SetZoom z) \/ forall z, a <> Store.SetZoom z) as [[z ->]|Hn].
  { destruct a; try (right; intros ?; discriminate). left. now exists z. }
  - cbn [Store.dispatch]. destruct z as [x| | |];
      try (left; apply zoomClamped_setZoom; discriminate).
    right. reflexivity.
  - destruct (ui_dispatch_zoom cfg a st Hn) as [Hz|Hz].
    + unfold zoomClamped in *. rewrite Hz. exact H.
    + left. unfold zoomClamped. rewrite Hz. lra.
Qed.

(** C9 (the code departs from the claim).  [setZoom] clamps with
    [Math.max(0.1, Math.min(10, zoom))], which misses one case: NaN passes
    through both calls and is stored.  The editor's pinch handler calls
    [setZoom(ui.zoom * (dist / touchStart.dist))], which is NaN when both
    distances are zero.  The state so reached has a zoom outside
    [0.1, 10], whereas the value 25 is clamped to 10. *)
Theorem setZoom_NaN_escapes_clamp :
  let st := Store.dispatch demoConfig (Store.SetZoom NaN)
                           (Store.initialState demoConfig) in
  Store.reachable demoConfig st
  /\ zoom (ui st) = NaN
  /\ ~ zoomClamped (ui st)
  /\ zoom (ui (Store.dispatch demoConfig (Store.SetZoom (Num 25))
                              (Store.initialState demoConfig)))
     = Num (Rmax 0.1 (Rmin 10 25)).
Proof.
  cbv zeta. split; [|split; [|split]].
  - apply Store.reach_step, Store.reach_init.
  - reflexivity.
  - unfold zoomClamped. cbn. intros [].
  - reflexivity.
Qed.

(** NaN is the only value the clamp misses.  After every zoom adjustment
    with a value that is not NaN (an infinity included) the stored zoom lies
    in [0.1, 10]; so the zoom of a reachable state lies in [0.1, 10] or is
    NaN, and it lies in [0.1, 10] in every state reached without handing NaN
    to [setZoom]. *)
Lemma zoom_clamped_unless_NaN (cfg : PixelConfig) (st : StoreState) :
  Store.reachable cfg st ->
  (zoomClamped (ui st) \/ zoom (ui st) = NaN)
  /\ (reachableNumeric cfg st -> zoomClamped (ui st))
  /\ (forall z : JsNumber, z <> NaN -> zoomClamped (ui (Store.setZoom z st)))
  /\ zoom (ui (Store.setZoom NaN st)) = NaN.
Proof.
  intros Hr. split; [|split; [|split]].
  - induction Hr as [|a st Hr IH].
    + left. apply zoomClamped_initial.
    + now apply zoomOrNaN_dispatch.
  - clear Hr. induction 1 as [|a st Hn IH Ha].
    + apply zoomClamped_initial.
    + now apply zoomClamped_dispatch.
  - intros z Hz. now apply zoomClamped_setZoom.
  - apply zoom_setZoom_NaN.
Qed.

Lemma zoom_clamped_unless_NaN_witness :
  zoomClamped (ui (Store.setZoom PosInfinity
                     (Store.dispatch demoConfig (Store.SetZoom (Num 25))
                        (Store.initialState demoConfig)))).
Proof.
  apply (zoom_clamped_unless_NaN demoConfig
           (Store.dispatch demoConfig (Store.SetZoom (Num 25))
              (Store.initialState demoConfig))).
  - apply Store.reach_step, Store.reach_init.
  - discriminate.
Defined.

(** ** The store: fills that change nothing *)

Lemma floodFill_noop data x y colorId :
  fillIsNoop data x y colorId -> floodFill data x y colorId = data.
Proof.
  intros H. unfold floodFill.
  destruct (Z.ltb_spec x 0); simpl; [reflexivity|].
  destruct (Z.geb_spec x (gridWidth data)); simpl; [reflexivity|].
  destruct (Z.ltb_spec y 0); simpl; [reflexivity|].
  destruct (Z.geb_spec y (gridHeight data)); simpl; [reflexivity|].
  destruct H as [H|[H|[H|[H|H]]]]; try lia.
  now rewrite H, Cell_eqb_refl.
Qed.

Lemma setPixel_noop data_x data_y colorId now st :
  fillIsNoop (pixelData st) data_x data_y colorId ->
  Store.setPixel data_x data_y (Some colorId) now st = st.
Proof.
  intros H.
  destruct (Z.ltb_spec data_y 0); [apply setPixel_out_of_range; lia|].
  destruct (Z.ltb_spec data_x 0); [apply setPixel_out_of_range; lia|].
  destruct (Z_lt_ge_dec data_y (gridHeight (pixelData st)));
    [|apply setPixel_out_of_range; lia].
  destruct (Z_lt_ge_dec data_x (gridWidth (pixelData st)));
    [|apply setPixel_out_of_range; lia].
  rewrite setPixel_in_range by lia.
  destruct H as [H|[H|[H|[H|H]]]]; try lia.
  now rewrite H, Cell_eqb_refl.
Qed.

(** The two regimes of a push, in a state that satisfies [history_inv]:
    below capacity the snapshot is appended to the entries up to the cursor;
    with the cursor on the last of [MAX_HISTORY] entries the oldest entry
    makes room for it. *)
Lemma pushHistory_below_capacity st now :
  history_inv st -> historyIndex st + 1 < MAX_HISTORY ->
  pushHistory st now
  = firstn (Z.to_nat (historyIndex st + 1)) (history st) ++ [mkItem (pixelData st) now]
  /\ JsArray.len (pushHistory st now) = historyIndex st + 2.
Proof.
  intros [Hidx Hcap] Hbelow.
  destruct (slice0_in_range (history st) (historyIndex st + 1)) as [Hs Hl]; [lia|].
  assert (JsArray.len (JsArray.slice0 (history st) (historyIndex st + 1)
                       ++ [mkItem (pixelData st) now]) = historyIndex st + 2) as Hp.
  { unfold JsArray.len in *. rewrite length_app. simpl. lia. }
  unfold pushHistory. rewrite Hp.
  destruct (Z.gtb_spec (historyIndex st + 2) MAX_HISTORY); [lia|].
  now rewrite Hp, Hs.
Qed.

Lemma pushHistory_at_capacity st now :
  history_inv st -> historyIndex st + 1 = MAX_HISTORY ->
  pushHistory st now = tl (history st) ++ [mkItem (pixelData st) now]
  /\ JsArray.len (pushHistory st now) = MAX_HISTORY.
Proof.
  intros [Hidx Hcap] Hfull.
  destruct (slice0_in_range (history st) (historyIndex st + 1)) as [Hs Hl]; [lia|].
  assert (JsArray.slice0 (history st) (historyIndex st + 1) = history st) as Hall.
  { rewrite Hs. apply firstn_all2. unfold JsArray.len in *. lia. }
  unfold pushHistory. rewrite Hall.
  assert (JsArray.len (history st ++ [mkItem (pixelData st) now])
          = JsArray.len (history st) + 1) as Hp.
  { unfold JsArray.len. rewrite length_app. simpl. lia. }
  rewrite Hp.
  destruct (Z.gtb_spec (JsArray.len (history st) + 1) MAX_HISTORY); [|lia].
  destruct (history st) as [|h0 t] eqn:Eh.
  - unfold JsArray.len, MAX_HISTORY in *. simpl in *. lia.
  - cbn [tl app]. split; [reflexivity|].
    unfold JsArray.len in *. rewrite length_app. cbn [length] in *. lia.
Qed.

(** C10, as stated, fails at capacity.  After fifty fills of the already
    red cell [(0, 0)] at one and the same time stamp, the history holds fifty
    equal snapshots and the cursor is 49; one more such fill evicts the
    oldest snapshot and appends an equal one: the cursor is still 49 and the
    whole state is what it was. *)
Lemma fillArea_noop_at_capacity_changes_nothing :
  cellAt (pixelData fiftyRedFills) 0 0 = Color "red"
  /\ historyIndex fiftyRedFills = 49
  /\ historyIndex (Store.fillArea 0 0 "red" 7 fiftyRedFills) = 49
  /\ Store.fillArea 0 0 "red" 7 fiftyRedFills = fiftyRedFills.
Proof.
  vm_compute. repeat split.
Qed.

(** C10, amended.  When [fillArea] is called with a start outside the grid,
    or on a cell that already holds the new colour, [floodFill] hands back
    the grid unchanged, and the store still pushes history: the new history
    is the entries up to the cursor followed by a snapshot of the (unchanged)
    grid, less the oldest entry beyond capacity, and the cursor is the index
    of that snapshot.  Below capacity the cursor is thereby one more than
    before, so that the state has changed; with the cursor on the last of
    fifty entries its index stays as it was and the history is the old one
    shifted by one entry, so that the state is unchanged exactly when the
    shifted history equals the old one.  [setPixel] on the same cell and
    colour returns the state untouched. *)
Theorem fillArea_noop_still_pushes_history
        (st : StoreState) (x y : Z) (colorId : string) (now : Z) :
  fillIsNoop (pixelData st) x y colorId ->
  let st' := Store.fillArea x y colorId now st in
  let snapshot := mkItem (pixelData st) now in
  floodFill (pixelData st) x y colorId = pixelData st
  /\ pixelData st' = pixelData st
  /\ history st' = pushHistory st now
  /\ JsArray.get (history st') (historyIndex st') = Some snapshot
  /\ historyIndex st' = JsArray.len (history st') - 1
  /\ (history_inv st -> historyIndex st + 1 < MAX_HISTORY ->
      history st' = firstn (Z.to_nat (historyIndex st + 1)) (history st) ++ [snapshot]
      /\ historyIndex st' = historyIndex st + 1
      /\ st' <> st)
  /\ (history_inv st -> historyIndex st + 1 = MAX_HISTORY ->
      history st' = tl (history st) ++ [snapshot]
      /\ historyIndex st' = historyIndex st
      /\ (st' = st <-> tl (history st) ++ [snapshot] = history st))
  /\ Store.setPixel x y (Some colorId) now st = st.
Proof.
  intros Hnoop st' snapshot.
  assert (floodFill (pixelData st) x y colorId = pixelData st) as Hff
      by now apply floodFill_noop.
  assert (st' = Store.setPixelData (pixelData st) true now st) as Est.
  { unfold st', Store.fillArea. cbv zeta. now rewrite Hff. }
  assert (history st' = pushHistory st now) as Hh by now rewrite Est.
  assert (historyIndex st' = JsArray.len (history st') - 1) as Hi
      by now rewrite Est.
  destruct (pushHistory_shape st now) as (older & Hshape & _).
  split; [exact Hff|].
  split; [now rewrite Est, pixelData_setPixelData|].
  split; [exact Hh|].
  split; [rewrite Hi, Hh, Hshape; apply get_last|].
  split; [exact Hi|].
  split; [|split; [|now apply setPixel_noop]].
  - intros Hinv Hbelow.
    destruct (pushHistory_below_capacity st now Hinv Hbelow) as [Hpush Hlen].
    assert (historyIndex st' = historyIndex st + 1) as Hadv
        by (rewrite Hi, Hh, Hlen; lia).
    split; [now rewrite Hh|]. split; [exact Hadv|].
    intros Heq. rewrite Heq in Hadv. lia.
  - intros Hinv Hfull.
    destruct (pushHistory_at_capacity st now Hinv Hfull) as [Hpush Hlen].
    assert (history st' = tl (history st) ++ [snapshot]) as Hshift
        by now rewrite Hh.
    assert (historyIndex st' = historyIndex st) as Hsame
        by (rewrite Hi, Hh, Hlen; lia).
    split; [exact Hshift|]. split; [exact Hsame|]. split.
    + intros Heq. rewrite <- Hshift. now rewrite Heq.
    + intros Heq. rewrite Heq in Hshift.
      assert (st' = mkStore (pixelData st) (config st) (originalImage st) (ui st)
                            (history st') (historyIndex st')) as Eta
          by (rewrite Est; reflexivity).
      rewrite Eta, Hshift, Hsame. now destruct st.
Qed.

Lemma fillArea_noop_still_pushes_history_witness :
  let st' := Store.fillArea 0 0 "red" 7 demoStore in
  floodFill demoGrid 0 0 "red" = demoGrid
  /\ pixelData st' = demoGrid
  /\ history st' = [mkItem demoGrid 7]
  /\ historyIndex st' = 0
  /\ historyIndex demoStore = -1
  /\ Store.setPixel 0 0 (Some "red"%string) 7 demoStore = demoStore.
Proof.
  assert (fillIsNoop (pixelData demoStore) 0 0 "red") as Hnoop
      by (do 4 right; reflexivity).
  destruct (fillArea_noop_still_pushes_history demoStore 0 0 "red" 7 Hnoop)
    as (Hff & Hp & Hh & _ & Hi & _ & _ & Hs).
  repeat split; try assumption; reflexivity.
Defined.

(** ** The quantizer *)

Lemma colors_createColorBox (l : list RGB) : colors (createColorBox l) = l.
Proof.
  unfold createColorBox.
  assert (forall l0 box, colors box = l ->
            colors (fold_left
                      (fun box color =>
                         mkBox l
                               (Z.min (rMin box) (r color)) (Z.max (rMax box) (r color))
                               (Z.min (gMin box) (g color)) (Z.max (gMax box) (g color))
                               (Z.min (bMin box) (b color)) (Z.max (bMax box) (b color)))
                      l0 box) = l) as H.
  { induction l0 as [|c t IH]; intros box Hb; simpl; [assumption|].
    now apply IH. }
  now apply H.
Qed.

Lemma length_insertBy key x l : length (insertBy key x l) = S (length l).
Proof.
  induction l as [|h t IH]; simpl; [reflexivity|].
  destruct (key x <=? key h); simpl; [reflexivity | now rewrite IH].
Qed.

Lemma length_sortBy key l : length (sortBy key l) = length l.
Proof.
  induction l as [|h t IH]; simpl; [reflexivity|].
  now rewrite length_insertBy, IH.
Qed.

(** Both halves of a split are non-empty and together hold the colours of
    the box, when the box holds at least two. *)
Lemma splitColorBox_sizes (box : ColorBox) :
  (2 <= length (colors box))%nat ->
  let '(box1, box2) := splitColorBox box in
  (1 <= length (colors box1))%nat /\ (1 <= length (colors box2))%nat
  /\ (length (colors box1) + length (colors box2) = length (colors box))%nat.
Proof.
  intros Hn. unfold splitColorBox. rewrite !colors_createColorBox.
  set (sorted := sortBy (channelOf (splitChannel box)) (colors box)).
  assert (length sorted = length (colors box)) as Hs by apply length_sortBy.
  set (mid := JsArray.len sorted / 2).
  assert (1 <= mid /\ mid < JsArray.len sorted) as Hmid.
  { unfold mid, JsArray.len. rewrite Hs. split.
    - apply Z.div_le_lower_bound; lia.
    - apply Z.div_lt_upper_bound; lia. }
  unfold JsArray.len in Hmid.
  destruct (slice0_in_range sorted mid) as [Hsl Hlen]; [unfold JsArray.len; lia|].
  unfold JsArray.len in Hlen. unfold JsArray.sliceFrom.
  rewrite length_skipn. lia.
Qed.

(** The scan for the box to split: a non-zero [maxVolume] comes with the
    index of a box of at least two colours. *)
Lemma selectStep_fold (l : list ColorBox) (i maxIndex maxVolume : Z) :
  let '(i', maxIndex', maxVolume') := fold_left selectStep l (i, maxIndex, maxVolume) in
  i' = i + JsArray.len l
  /\ ((maxIndex', maxVolume') = (maxIndex, maxVolume)
      \/ (i <= maxIndex' < i + JsArray.len l
          /\ exists box, nth_error l (Z.to_nat (maxIndex' - i)) = Some box
                         /\ (2 <= length (colors box))%nat)).
Proof.
  revert i maxIndex maxVolume. induction l as [|box t IH]; intros i mi mv.
  - simpl. unfold JsArray.len. simpl. split; [lia | now left].
  - cbn [fold_left]. unfold selectStep at 2.
    assert (JsArray.len (box :: t) = 1 + JsArray.len t) as Hl
        by (unfold JsArray.len; cbn [length]; lia).
    assert (0 <= JsArray.len t) as Ht by (unfold JsArray.len; lia).
    destruct (Z.ltb_spec (JsArray.len (colors box)) 2) as [Hsmall|Hbig].
    + specialize (IH (i + 1) mi mv).
      destruct (fold_left selectStep t (i + 1, mi, mv)) as [[i' mi'] mv'].
      destruct IH as [Hi [Hsame|(Hr & b0 & Hb0 & Hb1)]].
      * split; [lia | now left].
      * split; [lia|]. right. split; [lia|]. exists b0. split; [|assumption].
        replace (Z.to_nat (mi' - i)) with (S (Z.to_nat (mi' - (i + 1)))) by lia.
        exact Hb0.
    + destruct (Z.gtb_spec (boxVolume box) mv).
      * specialize (IH (i + 1) i (boxVolume box)).
        destruct (fold_left selectStep t (i + 1, i, boxVolume box)) as [[i' mi'] mv'].
        destruct IH as [Hi [Hsame|(Hr & b0 & Hb0 & Hb1)]].
        -- split; [lia|]. right. injection Hsame as -> ->. split; [lia|].
           exists box. rewrite Z.sub_diag. split; [reflexivity|].
           unfold JsArray.len in Hbig. lia.
        -- split; [lia|]. right. split; [lia|]. exists b0. split; [|assumption].
           replace (Z.to_nat (mi' - i)) with (S (Z.to_nat (mi' - (i + 1)))) by lia.
           exact Hb0.
      * specialize (IH (i + 1) mi mv).
        destruct (fold_left selectStep t (i + 1, mi, mv)) as [[i' mi'] mv'].
        destruct IH as [Hi [Hsame|(Hr & b0 & Hb0 & Hb1)]].
        -- split; [lia | now left].
        -- split; [lia|]. right. split; [lia|]. exists b0. split; [|assumption].
           replace (Z.to_nat (mi' - i)) with (S (Z.to_nat (mi' - (i + 1)))) by lia.
           exact Hb0.
Qed.

Lemma selectBox_spec (boxes : list ColorBox) :
  let '(maxIndex, maxVolume) := selectBox boxes in
  maxVolume <> 0 ->
  0 <= maxIndex < JsArray.len boxes
  /\ exists box, JsArray.get boxes maxIndex = Some box
                 /\ (2 <= length (colors box))%nat.
Proof.
  unfold selectBox. pose proof (selectStep_fold boxes 0 0 0) as H.
  destruct (fold_left selectStep boxes (0, 0, 0)) as [[i' mi'] mv'].
  destruct H as [_ [Hsame|(Hr & b0 & Hb0 & Hb1)]]; intros Hv.
  - injection Hsame as -> ->. contradiction.
  - split; [lia|]. exists b0. split; [|assumption].
    rewrite get_nth by lia. now rewrite Z.sub_0_r in Hb0.
Qed.

Lemma totalColors_app l1 l2 :
  totalColors (l1 ++ l2) = (totalColors l1 + totalColors l2)%nat.
Proof. induction l1 as [|b0 t IH]; simpl; [reflexivity | rewrite IH; lia]. Qed.

Lemma boxes_le_total boxes :
  boxesInhabited boxes -> (length boxes <= totalColors boxes)%nat.
Proof. induction 1; simpl; lia. Qed.

(** A pass that does not [break] replaces one box by two non-empty ones
    that share its colours. *)
Lemma splitStep_spec boxes boxes' :
  splitStep boxes = Some boxes' ->
  boxesInhabited boxes ->
  length boxes' = S (length boxes)
  /\ boxesInhabited boxes'
  /\ totalColors boxes' = totalColors boxes.
Proof.
  unfold splitStep. pose proof (selectBox_spec boxes) as Hsel.
  destruct (selectBox boxes) as [maxIndex maxVolume].
  destruct (Z.eqb_spec maxVolume 0) as [|Hv]; [discriminate|].
  destruct (Hsel Hv) as (Hr & box & Hget & Hbig). rewrite Hget.
  pose proof (splitColorBox_sizes box Hbig) as Hsz.
  destruct (splitColorBox box) as [box1 box2]. destruct Hsz as (H1 & H2 & H12).
  intros [= <-] Hinh.
  rewrite get_nth in Hget by lia.
  destruct (nth_error_split _ _ Hget) as (l1 & l2 & -> & Hl1).
  unfold JsArray.splice2. rewrite <- Hl1.
  rewrite firstn_app, Nat.sub_diag, firstn_all. cbn [firstn].
  rewrite app_nil_r.
  replace (skipn (S (length l1)) (l1 ++ box :: l2)) with l2.
  2:{ rewrite skipn_app, (skipn_all2 l1) by lia.
      replace (S (length l1) - length l1)%nat with 1%nat by lia. reflexivity. }
  repeat split.
  - rewrite !length_app. simpl. lia.
  - unfold boxesInhabited in *. apply Forall_app in Hinh as [Ha Hb].
    apply Forall_app. split; [assumption|].
    inversion Hb; subst. repeat constructor; assumption.
  - rewrite !totalColors_app. simpl. lia.
Qed.

Lemma splitLoop_spec (fuel : nat) (k : Z) (boxes : list ColorBox) :
  boxesInhabited boxes ->
  let '(boxes', exited) := splitLoop fuel k boxes in
  (length boxes <= length boxes')%nat
  /\ JsArray.len boxes' <= Z.max k (JsArray.len boxes)
  /\ boxesInhabited boxes'
  /\ totalColors boxes' = totalColors boxes
  /\ (k - JsArray.len boxes <= Z.of_nat fuel -> exited = true).
Proof.
  revert boxes. induction fuel as [|fuel IH]; intros boxes Hinh.
  - cbn [splitLoop]. destruct (Z.ltb_spec (JsArray.len boxes) k).
    + repeat split; auto; lia.
    + repeat split; auto; lia.
  - cbn [splitLoop]. destruct (Z.ltb_spec (JsArray.len boxes) k) as [Hlt|Hge].
    + destruct (splitStep boxes) as [boxes1|] eqn:Estep.
      * destruct (splitStep_spec _ _ Estep Hinh) as (Hlen & Hinh1 & Htot).
        specialize (IH boxes1 Hinh1).
        destruct (splitLoop fuel k boxes1) as [boxes' exited].
        destruct IH as (H1 & H2 & H3 & H4 & H5).
        unfold JsArray.len in *. repeat split; auto; try lia.
        intros Hf. apply H5. lia.
      * repeat split; auto; lia.
    + repeat split; auto; lia.
Qed.

(** C5, as stated, fails.  With [k = 3] the samples
    black, black, black, white (two distinct colours) are cut into the three
    boxes {black, black}, {black}, {white}: three colours are returned. *)
Lemma quantizer_exceeds_distinct_colors :
  medianCutQuantize blackBlackBlackWhite 3
  = [mkRGB 0 0 0; mkRGB 0 0 0; mkRGB 255 255 255]
  /\ distinctColors (opaqueColors blackBlackBlackWhite) = 2%nat
  /\ ~ (length (medianCutQuantize blackBlackBlackWhite 3)
        <= distinctColors (opaqueColors blackBlackBlackWhite))%nat.
Proof.
  vm_compute. repeat split. lia.
Qed.

(** C5, amended.  For every target count [k >= 1]: on samples that are not
    empty the quantizer returns between 1 and [k] colours, and never more
    colours than there are samples (counted with repetition); the loop ends
    through its own exit; on no samples it returns the single colour white. *)
Theorem medianCutQuantize_bounds (imageData : ImageData) (k : Z) :
  1 <= k ->
  (opaqueColors imageData = [] -> medianCutQuantize imageData k = [white])
  /\ (opaqueColors imageData <> [] ->
      1 <= JsArray.len (medianCutQuantize imageData k) <= k
      /\ (length (medianCutQuantize imageData k)
          <= length (opaqueColors imageData))%nat
      /\ snd (splitLoop (Z.to_nat k) k [createColorBox (opaqueColors imageData)])
         = true).
Proof.
  intros Hk. unfold medianCutQuantize. split.
  - now intros ->.
  - intros Hne. destruct (opaqueColors imageData) as [|c t] eqn:Es; [contradiction|].
    assert (boxesInhabited [createColorBox (c :: t)]) as Hinh.
    { repeat constructor. rewrite colors_createColorBox. simpl. lia. }
    pose proof (splitLoop_spec (Z.to_nat k) k _ Hinh) as H.
    destruct (splitLoop (Z.to_nat k) k [createColorBox (c :: t)]) as [boxes exited].
    destruct H as (H1 & H2 & H3 & H4 & H5).
    cbn [fst snd]. unfold JsArray.len in *. rewrite length_map.
    cbn [length] in *.
    pose proof (boxes_le_total _ H3) as Hle. rewrite H4 in Hle.
    cbn [totalColors fold_right] in Hle. rewrite colors_createColorBox in Hle.
    cbn [length] in Hle.
    repeat split; try lia. apply H5. lia.
Qed.

Lemma medianCutQuantize_bounds_witness :
  1 <= JsArray.len (medianCutQuantize blackBlackBlackWhite 3) <= 3
  /\ (length (medianCutQuantize blackBlackBlackWhite 3)
      <= length (opaqueColors blackBlackBlackWhite))%nat.
Proof.
  destruct (medianCutQuantize_bounds blackBlackBlackWhite 3 ltac:(lia)) as [_ H].
  destruct H as (H1 & H2 & _); [discriminate|].
  exact (conj H1 H2).
Defined.

(** ** The palette matcher and the pixelizer *)

Arguments ColorUtils.findClosestBeadColor : simpl never.
Arguments ColorUtils.rgbToLab : simpl never.
Arguments ColorUtils.deltaE : simpl never.
Arguments medianCutQuantize : simpl never.




Lemma medianCutQuantize_nonempty imageData k : medianCutQuantize imageData k <> [].
Proof.
  unfold medianCutQuantize. destruct (opaqueColors imageData) as [|c t]; [discriminate|].
  assert (boxesInhabited [createColorBox (c :: t)]) as Hinh.
  { repeat constructor. rewrite colors_createColorBox. simpl. lia. }
  pose proof (splitLoop_spec (Z.to_nat k) k _ Hinh) as H.
  destruct (splitLoop (Z.to_nat k) k [createColorBox (c :: t)]) as [boxes exited].
  destruct H as (H1 & _). cbn [fst]. destruct boxes; [simpl in H1; lia | discriminate].
Qed.

(** A target count below one quantizes like a target count of one: the
    splitting loop is never entered. *)
Lemma medianCutQuantize_below_one imageData k :
  k <= 1 -> medianCutQuantize imageData k = medianCutQuantize imageData 1.
Proof.
  intros Hk. unfold medianCutQuantize.
  destruct (opaqueColors imageData) as [|c t]; [reflexivity|].
  assert (forall fuel j, j <= 1 ->
            splitLoop fuel j [createColorBox (c :: t)]
            = ([createColorBox (c :: t)], true)) as H.
  { intros fuel j Hj. destruct fuel; cbn [splitLoop];
      unfold JsArray.len; cbn [length];
      destruct (Z.ltb_spec (Z.of_nat 1) j); try lia; reflexivity. }
  now rewrite !H by lia.
Qed.

Lemma mapToNearestColor_defined rgb palette :
  palette <> [] -> exists q, mapToNearestColor rgb palette = Some q.
Proof.
  intros Hne. unfold mapToNearestColor. destruct palette as [|p0 t]; [contradiction|].
  cbn [hd_error].
  set (step := fun (st : option RGB * option Z) (color : RGB) => _).
  assert (forall l st, fst st <> None -> fst (fold_left step l st) <> None) as H.
  { induction l as [|c l IH]; intros st Hst; simpl; [assumption|].
    apply IH. unfold step. destruct rgb; [|assumption].
    destruct (nearer _ _); [discriminate | assumption]. }
  specialize (H (p0 :: t) (Some p0, None) ltac:(discriminate)).
  destruct (fst (fold_left step (p0 :: t) (Some p0, None))); [eauto | contradiction].
Qed.

Lemma mapToNearestColor_single c p : mapToNearestColor (Some c) [p] = Some p.
Proof. reflexivity. Qed.

Lemma pixelateCell_returns imageData width palette colorsWithLab y x :
  palette <> [] ->
  exists cell, pixelateCell imageData width palette colorsWithLab y x = Returned cell.
Proof.
  intros Hne. unfold pixelateCell.
  destruct (JsArray.get imageData (y * width + x)) as [px|].
  - destruct (px_a px <? 128); [eauto|].
    destruct (mapToNearestColor_defined (Some (mkRGB (px_r px) (px_g px) (px_b px)))
                                        palette Hne) as [q ->].
    destruct colorsWithLab; simpl; eauto.
  - destruct (mapToNearestColor_defined None palette Hne) as [q ->].
    destruct colorsWithLab; simpl; eauto.
Qed.

Lemma mapM_returns {A B} (f : A -> Outcome B) (l : list A) :
  (forall a, exists v, f a = Returned v) ->
  exists vs, mapM f l = Returned vs /\ length vs = length l.
Proof.
  intros Hf. induction l as [|a t (vs & Hvs & Hlen)]; simpl.
  - now exists [].
  - destruct (Hf a) as [v ->]. rewrite Hvs. simpl. exists (v :: vs).
    simpl. now rewrite Hlen.
Qed.

Lemma mapM_ext {A B} (f f' : A -> Outcome B) (l : list A) :
  (forall a, In a l -> f a = f' a) -> mapM f l = mapM f' l.
Proof.
  induction l as [|a t IH]; intros H; simpl; [reflexivity|].
  rewrite (H a) by now left. rewrite IH; [reflexivity|].
  intros a' Ha'. apply H. now right.
Qed.

Lemma mapM_const {A B} (v : B) (l : list A) :
  mapM (fun _ => Returned v) l = Returned (repeat v (length l)).
Proof.
  induction l as [|a t IH]; simpl; [reflexivity|]. now rewrite IH.
Qed.

Lemma length_range n : length (JsArray.range n) = Z.to_nat n.
Proof. unfold JsArray.range. now rewrite length_map, length_seq. Qed.

(** [pixelateImage] never throws: it returns a grid of [height] rows of
    [width] cells (none when the number is not positive). *)
Lemma pixelateImage_returns imageData width height colorCount beadColors :
  exists grid,
    pixelateImage imageData width height colorCount beadColors = Returned grid
    /\ length grid = Z.to_nat height
    /\ Forall (fun row => length row = Z.to_nat width) grid.
Proof.
  unfold pixelateImage.
  set (palette := medianCutQuantize imageData colorCount).
  set (beads := ColorUtils.precomputeLabValues beadColors).
  assert (palette <> []) as Hne by apply medianCutQuantize_nonempty.
  assert (forall rows, exists grid,
             mapM (fun y => mapM (pixelateCell imageData width palette beads y)
                                 (JsArray.range width)) rows = Returned grid
             /\ length grid = length rows
             /\ Forall (fun row => length row = Z.to_nat width) grid) as H.
  { induction rows as [|y t (grid & Hg & Hl & Hw)]; simpl.
    - exists []. auto.
    - destruct (mapM_returns (pixelateCell imageData width palette beads y)
                             (JsArray.range width)) as (row & -> & Hrow).
      { intros x. now apply pixelateCell_returns. }
      rewrite Hg. simpl. exists (row :: grid). repeat split.
      + simpl. now rewrite Hl.
      + constructor; [now rewrite Hrow, length_range | assumption]. }
  destruct (H (JsArray.range height)) as (grid & Hg & Hl & Hw).
  exists grid. rewrite length_range in Hl. auto.
Qed.

(** ** Lab coordinates of the scenario's colours *)

Module LabFacts.
Import ColorUtils.
Local Open Scope R_scope.

(** Bounds on an [n]-th root from bounds on its argument. *)
Lemma root_bounds (n : nat) (t lo hi : R) :
  (0 < n)%nat -> 0 < lo -> 0 < hi -> lo ^ n <= t -> t <= hi ^ n ->
  lo <= Rpower t (/ INR n) <= hi.
Proof.
  intros Hn Hlo Hhi H1 H2.
  assert (0 < INR n) as HnR by (apply lt_0_INR; lia).
  assert (forall x, 0 < x -> Rpower (x ^ n) (/ INR n) = x) as Hroot.
  { intros x Hx. rewrite <- Rpower_pow by assumption.
    rewrite Rpower_mult, Rinv_r by lra. now apply Rpower_1. }
  assert (0 < lo ^ n) as Hpos by now apply pow_lt.
  split.
  - rewrite <- (Hroot lo Hlo) at 1. apply Rle_Rpower_l.
    + left. now apply Rinv_0_lt_compat.
    + lra.
  - rewrite <- (Hroot hi Hhi) at 1. apply Rle_Rpower_l.
    + left. now apply Rinv_0_lt_compat.
    + lra.
Qed.

Lemma labF_bounds (t lo hi : R) :
  0.008856 < t -> 0 < lo -> 0 < hi -> lo ^ 3 <= t -> t <= hi ^ 3 ->
  lo <= labF t <= hi.
Proof.
  intros Ht Hlo Hhi H1 H2. unfold labF.
  destruct (Rlt_dec 0.008856 t) as [_|Hn]; [|contradiction].
  replace (1 / 3) with (/ INR 3) by (simpl; lra).
  apply root_bounds; auto; lia.
Qed.

Lemma linearize_bounds (c lo hi : R) :
  0.04045 < c -> 0 < lo -> 0 < hi ->
  lo ^ 5 <= ((c + 0.055) / 1.055) ^ 12 -> ((c + 0.055) / 1.055) ^ 12 <= hi ^ 5 ->
  lo <= linearize c <= hi.
Proof.
  intros Hc Hlo Hhi H1 H2. unfold linearize.
  destruct (Rlt_dec 0.04045 c) as [_|Hn]; [|contradiction].
  assert (0 < (c + 0.055) / 1.055) as Hu by (apply Rdiv_lt_0_compat; lra).
  replace (Rpower ((c + 0.055) / 1.055) 2.4)
    with (Rpower (((c + 0.055) / 1.055) ^ 12) (/ INR 5)).
  - apply root_bounds; auto; lia.
  - rewrite <- Rpower_pow by assumption. rewrite Rpower_mult. f_equal.
    simpl. lra.
Qed.

Lemma linearize_zero : linearize (0 / 255) = 0.
Proof. unfold linearize. destruct (Rlt_dec 0.04045 (0 / 255)); lra. Qed.

Lemma linearize_full : linearize (255 / 255) = 1.
Proof.
  unfold linearize. destruct (Rlt_dec 0.04045 (255 / 255)) as [_|Hn]; [|lra].
  replace ((255 / 255 + 0.055) / 1.055) with 1 by lra.
  unfold Rpower. now rewrite ln_1, Rmult_0_r, exp_0.
Qed.

Lemma linearize_half : 0.215 <= linearize (128 / 255) <= 0.217.
Proof. apply linearize_bounds; lra. Qed.

Lemma rgbToLab_linear (c : RGB) :
  rgbToLab c
  = labOfLinear (linearize (IZR (r c) / 255)) (linearize (IZR (g c) / 255))
                (linearize (IZR (b c) / 255)).
Proof. reflexivity. Qed.

Lemma lab_red : labWithin (rgbToLab (mkRGB 255 0 0)) 53 53.3 80 81 67 67.4.
Proof.
  rewrite rgbToLab_linear. cbn [r g b].
  rewrite linearize_zero, linearize_full. unfold labOfLinear, labWithin.
  cbn [lab_l lab_a lab_b].
  assert (0.757 <= labF ((1 * 0.4124564 + 0 * 0.3575761 + 0 * 0.1804375) / 0.95047)
          <= 0.758) as Hx by (apply labF_bounds; lra).
  assert (0.596 <= labF (1 * 0.2126729 + 0 * 0.7151522 + 0 * 0.0721750) <= 0.597)
    as Hy by (apply labF_bounds; lra).
  assert (0.260 <= labF ((1 * 0.0193339 + 0 * 0.1191920 + 0 * 0.9503041) / 1.08883)
          <= 0.261) as Hz by (apply labF_bounds; lra).
  lra.
Qed.

Lemma lab_blue : labWithin (rgbToLab (mkRGB 0 0 255)) 32.2 32.4 78.5 79.5 (-108) (-107.6).
Proof.
  rewrite rgbToLab_linear. cbn [r g b].
  rewrite linearize_zero, linearize_full. unfold labOfLinear, labWithin.
  cbn [lab_l lab_a lab_b].
  assert (0.574 <= labF ((0 * 0.4124564 + 0 * 0.3575761 + 1 * 0.1804375) / 0.95047)
          <= 0.575) as Hx by (apply labF_bounds; lra).
  assert (0.416 <= labF (0 * 0.2126729 + 0 * 0.7151522 + 1 * 0.0721750) <= 0.417)
    as Hy by (apply labF_bounds; lra).
  assert (0.955 <= labF ((0 * 0.0193339 + 0 * 0.1191920 + 1 * 0.9503041) / 1.08883)
          <= 0.956) as Hz by (apply labF_bounds; lra).
  lra.
Qed.

Lemma lab_purple : labWithin (rgbToLab (mkRGB 128 0 128)) 29.7 30 57.5 60 (-37) (-36).
Proof.
  rewrite rgbToLab_linear. cbn [r g b].
  rewrite linearize_zero. pose proof linearize_half as Hv.
  set (v := linearize (128 / 255)) in *. unfold labOfLinear, labWithin.
  cbn [lab_l lab_a lab_b].
  assert (0.511 <= labF ((v * 0.4124564 + 0 * 0.3575761 + v * 0.1804375) / 0.95047)
          <= 0.514) as Hx by (apply labF_bounds; lra).
  assert (0.394 <= labF (v * 0.2126729 + 0 * 0.7151522 + v * 0.0721750) <= 0.396)
    as Hy by (apply labF_bounds; lra).
  assert (0.576 <= labF ((v * 0.0193339 + 0 * 0.1191920 + v * 0.9503041) / 1.08883)
          <= 0.579) as Hz by (apply labF_bounds; lra).
  lra.
Qed.

(** In Lab, the quantized purple is nearer to blue than to red. *)
Lemma purple_nearer_blue :
  deltaE (rgbToLab (mkRGB 128 0 128)) (rgbToLab (mkRGB 0 0 255))
  < deltaE (rgbToLab (mkRGB 128 0 128)) (rgbToLab (mkRGB 255 0 0)).
Proof.
  destruct lab_red as (Rl & Ra & Rb). destruct lab_blue as (Bl & Ba & Bb).
  destruct lab_purple as (Pl & Pa & Pb).
  unfold deltaE. cbv zeta.
  set (p := rgbToLab (mkRGB 128 0 128)) in *.
  set (red := rgbToLab (mkRGB 255 0 0)) in *.
  set (blue := rgbToLab (mkRGB 0 0 255)) in *.
  apply sqrt_lt_1_alt. split; [nra|].
  assert ((lab_l p - lab_l blue) * (lab_l p - lab_l blue) <= 9) by nra.
  assert ((lab_a p - lab_a blue) * (lab_a p - lab_a blue) <= 500) by nra.
  assert ((lab_b p - lab_b blue) * (lab_b p - lab_b blue) <= 5200) by nra.
  assert (10000 <= (lab_b p - lab_b red) * (lab_b p - lab_b red)) by nra.
  nra.
Qed.

End LabFacts.

(** The box of these four samples spans no green at all, so its volume is
    zero and the loop breaks before any split: one colour comes back, the
    average. *)
Lemma quantize_redRedBlueBlue :
  medianCutQuantize redRedBlueBlue 2 = [mkRGB 128 0 128].
Proof. vm_compute. reflexivity. Qed.

Lemma closestBeadOf_some q colors :
  colors <> [] ->
  closestBeadOf (Some q) colors = Returned (ColorUtils.findClosestBeadColor q colors).
Proof. destruct colors; [contradiction | reflexivity]. Qed.

Lemma pixelateCell_opaque_single imageData width p colors y x px :
  JsArray.get imageData (y * width + x) = Some px ->
  (px_a px <? 128) = false ->
  colors <> [] ->
  pixelateCell imageData width [p] colors y x
  = Returned (idOrNull (ColorUtils.findClosestBeadColor p colors)).
Proof.
  intros Hget Ha Hne. unfold pixelateCell. rewrite Hget, Ha.
  rewrite mapToNearestColor_single, closestBeadOf_some by assumption.
  reflexivity.
Qed.

Lemma closest_to_purple :
  ColorUtils.findClosestBeadColor
    (mkRGB 128 0 128) (ColorUtils.precomputeLabValues [redBead; blueBead])
  = Some blueBeadWithLab.
Proof.
  unfold ColorUtils.findClosestBeadColor, ColorUtils.precomputeLabValues.
  cbn [map fold_left]. unfold ColorUtils.closestStep at 2.
  cbn [snd ColorUtils.belowMin]. unfold ColorUtils.closestStep.
  cbn [snd fst ColorUtils.belowMin ColorUtils.labOf lab rgb redBead blueBead].
  destruct (Rlt_dec _ _) as [_|Hn]; [reflexivity|].
  exfalso. apply Hn. exact LabFacts.purple_nearer_blue.
Qed.

(** What the pixelizer makes of the scenario: every cell goes through the
    single quantized colour, so all four cells receive the same bead, and
    that bead is blue. *)
Lemma pixelate_redRedBlueBlue_value :
  pixelateImage redRedBlueBlue 2 2 2 [redBead; blueBead]
  = Returned [[Color "blue"; Color "blue"]; [Color "blue"; Color "blue"]].
Proof.
  unfold pixelateImage. rewrite quantize_redRedBlueBlue.
  set (beads := ColorUtils.precomputeLabValues [redBead; blueBead]).
  assert (beads <> []) as Hne by discriminate.
  change (JsArray.range 2) with [0; 1]. cbn [mapM bind].
  rewrite (pixelateCell_opaque_single redRedBlueBlue 2 _ beads 0 0 (opaquePixel 255 0 0))
    by (reflexivity || assumption).
  rewrite (pixelateCell_opaque_single redRedBlueBlue 2 _ beads 0 1 (opaquePixel 255 0 0))
    by (reflexivity || assumption).
  rewrite (pixelateCell_opaque_single redRedBlueBlue 2 _ beads 1 0 (opaquePixel 0 0 255))
    by (reflexivity || assumption).
  rewrite (pixelateCell_opaque_single redRedBlueBlue 2 _ beads 1 1 (opaquePixel 0 0 255))
    by (reflexivity || assumption).
  unfold beads. rewrite closest_to_purple. reflexivity.
Qed.

(** C2, as stated, fails: the scenario does not pixelize to
    [[red, red], [blue, blue]]. *)
Lemma pixelate_redRedBlueBlue_not_two_rows :
  pixelateImage redRedBlueBlue 2 2 2 [redBead; blueBead]
  <> Returned [[Color "red"; Color "red"]; [Color "blue"; Color "blue"]].
Proof.
  rewrite pixelate_redRedBlueBlue_value. discriminate.
Qed.

(** C2, amended.  On the 2x2 image red, red, blue, blue with
    [colorCount = 2] and the palette {red, blue}, the quantizer returns the
    single colour (128, 0, 128), and the pixelizer returns the grid
    [[blue, blue], [blue, blue]]: blue is the bead nearest to that colour
    in Lab. *)
Theorem pixelate_redRedBlueBlue_all_blue :
  medianCutQuantize redRedBlueBlue 2 = [mkRGB 128 0 128]
  /\ pixelateImage redRedBlueBlue 2 2 2 [redBead; blueBead]
     = Returned [[Color "blue"; Color "blue"]; [Color "blue"; Color "blue"]].
Proof.
  split; [apply quantize_redRedBlueBlue | apply pixelate_redRedBlueBlue_value].
Qed.

(** C3, as stated, fails: with [colorCount = 0] on a 1x1 image the
    pixelizer returns a grid; nothing is reported. *)
Lemma pixelateImage_accepts_zero_colorCount :
  pixelateImage [opaquePixel 255 0 0] 1 1 0 [redBead] = Returned [[Color "red"]].
Proof. reflexivity. Qed.

(** C3, amended.  [pixelateImage] fails exactly when the canvas call on
    its first line fails, and then with that call's exception: it checks
    nothing itself.  Whenever the image data is handed back, it returns a
    grid of [height] rows of [width] cells for every colour count; a colour
    count below one gives the very grid of colour count one. *)
Theorem pixelateImage_fails_only_in_sampling
        (getImagePixelData : Z -> Z -> Outcome ImageData)
        (width height colorCount : Z) (beadColors : list BeadColor) :
  ((exists error,
       pixelateImageOf getImagePixelData width height colorCount beadColors
       = Thrown error)
   <-> exists error, getImagePixelData width height = Thrown error)
  /\ (forall error,
         getImagePixelData width height = Thrown error ->
         pixelateImageOf getImagePixelData width height colorCount beadColors
         = Thrown error)
  /\ (forall imageData,
         getImagePixelData width height = Returned imageData ->
         exists grid,
           pixelateImageOf getImagePixelData width height colorCount beadColors
           = Returned grid
           /\ length grid = Z.to_nat height
           /\ Forall (fun row => length row = Z.to_nat width) grid
           /\ (colorCount < 1 ->
               pixelateImageOf getImagePixelData width height 1 beadColors
               = Returned grid)).
Proof.
  unfold pixelateImageOf. split; [|split].
  - destruct (getImagePixelData width height) as [imageData|error0]; cbn [bind].
    + destruct (pixelateImage_returns imageData width height colorCount beadColors)
        as (grid & Hg & _).
      rewrite Hg. split; intros [error Herr]; discriminate.
    + split; intros _; now exists error0.
  - intros error ->. reflexivity.
  - intros imageData ->. cbn [bind].
    destruct (pixelateImage_returns imageData width height colorCount beadColors)
      as (grid & Hg & Hl & Hw).
    exists grid. split; [exact Hg|]. split; [exact Hl|]. split; [exact Hw|].
    intros Hk. rewrite <- Hg. unfold pixelateImage.
    now rewrite (medianCutQuantize_below_one imageData colorCount) by lia.
Qed.




(** ** The view transform *)

Module ViewFacts.
Import View.
Local Open Scope R_scope.

Lemma Int_part_half (z : Z) : Int_part (IZR z + / 2) = z.
Proof. symmetry. apply Int_part_spec. lra. Qed.

(** The inverse of the forward transform, before flooring: the centre of
    cell [(x, y)] comes back as [(x + 1/2, y + 1/2)]. *)
Lemma screenToGrid_of_center canvas o x y screenX screenY :
  optZoom o <> 0 -> cellSize o <> 0 ->
  showsAt canvas screenX screenY
          (gridToCanvas canvas o (fst (cellCenter o x y)) (snd (cellCenter o x y))) ->
  screenToGrid screenX screenY canvas o = (IZR x + / 2, IZR y + / 2).
Proof.
  intros Hz Hc [Hsx Hsy]. unfold screenToGrid. rewrite Hsx, Hsy.
  unfold gridToCanvas, cellCenter. cbn [fst snd]. f_equal; field; auto.
Qed.

Lemma screenToPixel_spec screenX screenY canvas o :
  let p := (Int_part (fst (screenToGrid screenX screenY canvas o)),
            Int_part (snd (screenToGrid screenX screenY canvas o))) in
  (inGrid (optPixelData o) p -> screenToPixel screenX screenY canvas o = Some p)
  /\ (~ inGrid (optPixelData o) p -> screenToPixel screenX screenY canvas o = None).
Proof.
  unfold screenToPixel, inGrid.
  destruct (screenToGrid screenX screenY canvas o) as [gx gy]. cbn [fst snd].
  destruct (Z.geb_spec (Int_part gx) 0);
    destruct (Z.ltb_spec (Int_part gx) (gridWidth (optPixelData o)));
    destruct (Z.geb_spec (Int_part gy) 0);
    destruct (Z.ltb_spec (Int_part gy) (gridHeight (optPixelData o)));
    cbn [andb]; split; intros Hin; try reflexivity; try lia;
    exfalso; apply Hin; lia.
Qed.

End ViewFacts.

(** C8.  For every zoom in [0.1, 10], every pan, every positive cell size
    and every canvas laid out with a non-empty bounding rectangle (so that
    [scaleX] and [scaleY] are defined): if a screen point is where the canvas
    shows the centre of an in-bounds cell under the forward transform,
    [screenToPixel] returns that cell's indices; and on any screen point
    [screenToPixel] returns no cell exactly when the floored coordinates fall
    outside [0, width) x [0, height), and otherwise returns them. *)
Theorem screenToPixel_inverts_forward (canvas : View.Canvas) (o : View.Options) :
  (0.1 <= View.optZoom o <= 10)%R ->
  (0 < View.cellSize o)%R ->
  (0 < View.rectWidth canvas)%R ->
  (0 < View.rectHeight canvas)%R ->
  (forall (x y : Z) (screenX screenY : R),
      0 <= x < gridWidth (View.optPixelData o) ->
      0 <= y < gridHeight (View.optPixelData o) ->
      showsAt canvas screenX screenY
        (View.gridToCanvas canvas o (fst (View.cellCenter o x y))
                           (snd (View.cellCenter o x y))) ->
      View.screenToPixel screenX screenY canvas o = Some (x, y))
  /\ (forall (screenX screenY : R),
         let p := (Int_part (fst (View.screenToGrid screenX screenY canvas o)),
                   Int_part (snd (View.screenToGrid screenX screenY canvas o))) in
         (View.screenToPixel screenX screenY canvas o = None
          <-> ~ inGrid (View.optPixelData o) p)
         /\ (inGrid (View.optPixelData o) p ->
             View.screenToPixel screenX screenY canvas o = Some p)).
Proof.
  intros Hzoom Hcell _ _. split.
  - intros x y screenX screenY Hx Hy Hshow.
    pose proof (ViewFacts.screenToPixel_spec screenX screenY canvas o) as [Hin _].
    rewrite (ViewFacts.screenToGrid_of_center canvas o x y screenX screenY) in Hin;
      [|lra|lra|assumption].
    cbn [fst snd] in Hin. rewrite !ViewFacts.Int_part_half in Hin.
    apply Hin. split; assumption.
  - intros screenX screenY p.
    pose proof (ViewFacts.screenToPixel_spec screenX screenY canvas o) as [Hin Hout].
    fold p in Hin, Hout. split; [split|exact Hin].
    + intros Hnone Hp. rewrite (Hin Hp) in Hnone. discriminate.
    + exact Hout.
Qed.

Lemma screenToPixel_inverts_forward_witness :
  View.screenToPixel 458 286 demoCanvas demoOptions = Some (1, 0).
Proof.
  destruct (screenToPixel_inverts_forward demoCanvas demoOptions) as [Hfwd _].
  - simpl. lra.
  - simpl. lra.
  - simpl. lra.
  - simpl. lra.
  - apply Hfwd.
    + vm_compute. split; [discriminate | reflexivity].
    + vm_compute. split; [discriminate | reflexivity].
    + unfold showsAt, View.gridToCanvas, View.cellCenter.
      change (gridWidth (View.optPixelData demoOptions)) with 2.
      change (gridHeight (View.optPixelData demoOptions)) with 2.
      simpl. split; lra.
Defined.

(** ** Flood fill *)

Section FloodFillFrame.
Variable data : PixelData.
Variables startX startY : Z.
Variable newColorId : Cell.

Lemma fillInv_skip newData q rest :
  fillInv data startX startY newColorId newData (q :: rest) ->
  fillInv data startX startY newColorId newData rest.
Proof.
  intros (Hh & Hc & Hq). repeat split; auto.
  intros q' Hin. apply Hq. now right.
Qed.

Lemma fillInv_mark newData x y rest :
  fillInv data startX startY newColorId newData ((x, y) :: rest) ->
  0 <= x < gridWidth data -> 0 <= y < gridHeight data ->
  cellAt newData x y = cellAt data startX startY ->
  fillInv data startX startY newColorId (gridSet newData x y newColorId)
          (rest ++ [(x + 1, y); (x - 1, y); (x, y + 1); (x, y - 1)]).
Proof.
  intros (Hh & Hc & Hq) Hx Hy Htarget.
  assert (sameColorRegion data startX startY x y) as Hreg.
  { destruct (Hc x y) as [Hsame|[_ Hr]]; [|exact Hr].
    destruct (Hq (x, y) (or_introl eq_refl)) as [[= -> ->]|(px & py & Hp & Hadj)].
    - apply region_start. split; assumption.
    - apply (region_step data startX startY px py x y Hp Hadj).
      + split; assumption.
      + now rewrite <- Hsame. }
  repeat split.
  - now rewrite gridHeight_gridSet.
  - intros x' y'. rewrite cellAt_gridSet by (rewrite ?Hh; lia).
    destruct ((x' =? x) && (y' =? y)) eqn:E.
    + apply andb_true_iff in E as [Ex Ey].
      apply Z.eqb_eq in Ex, Ey. subst. right. split; [reflexivity | exact Hreg].
    + apply Hc.
  - intros q Hin. apply in_app_or in Hin as [Hin|Hin].
    + apply Hq. now right.
    + right. exists x, y. split; [exact Hreg|].
      unfold adjacent4. cbn [fst snd].
      destruct Hin as [<-|[<-|[<-|[<-|[]]]]]; auto.
Qed.

Lemma floodLoop_inv fuel :
  forall newData queue visited,
    fillInv data startX startY newColorId newData queue ->
    fillInv data startX startY newColorId
            (fst (floodLoop fuel (gridWidth data) (gridHeight data)
                            (cellAt data startX startY) newColorId
                            newData queue visited))
            (snd (floodLoop fuel (gridWidth data) (gridHeight data)
                            (cellAt data startX startY) newColorId
                            newData queue visited)).
Proof.
  induction fuel as [|fuel IH]; intros newData queue visited Hinv.
  - destruct queue as [|[x y] rest]; cbn [floodLoop fst snd].
    + exact Hinv.
    + exact Hinv.
  - destruct queue as [|[x y] rest]; cbn [floodLoop].
    + exact Hinv.
    + destruct (visitedHas visited (x, y));
        [apply IH; exact (fillInv_skip _ _ _ Hinv)|].
      destruct (Z.ltb_spec x 0); cbn [orb];
        [apply IH; exact (fillInv_skip _ _ _ Hinv)|].
      destruct (Z.geb_spec x (gridWidth data)); cbn [orb];
        [apply IH; exact (fillInv_skip _ _ _ Hinv)|].
      destruct (Z.ltb_spec y 0); cbn [orb];
        [apply IH; exact (fillInv_skip _ _ _ Hinv)|].
      destruct (Z.geb_spec y (gridHeight data)); cbn [orb];
        [apply IH; exact (fillInv_skip _ _ _ Hinv)|].
      destruct (Cell_eqb (cellAt newData x y) (cellAt data startX startY)) eqn:E;
        cbn [negb]; [|apply IH; exact (fillInv_skip _ _ _ Hinv)].
      apply IH. apply Cell_eqb_eq in E. apply fillInv_mark; auto; lia.
Qed.

End FloodFillFrame.

(** C6.  For every grid, start cell and new colour id, [floodFill] leaves
    unchanged every cell outside the 4-connected region of cells reachable
    from the start through in-bounds cells holding the start cell's original
    value (for a start outside the grid that region is empty and nothing
    changes). *)
Theorem floodFill_frame (data : PixelData) (startX startY : Z) (newColorId : string)
        (x y : Z) :
  ~ sameColorRegion data startX startY x y ->
  cellAt (floodFill data startX startY newColorId) x y = cellAt data x y.
Proof.
  intros Hout. unfold floodFill.
  destruct ((startX <? 0) || (startX >=? gridWidth data) || (startY <? 0)
            || (startY >=? gridHeight data)); [reflexivity|].
  destruct (Cell_eqb (cellAt data startX startY) (Color newColorId)); [reflexivity|].
  pose proof (floodLoop_inv data startX startY (Color newColorId)
                (floodFuel (gridWidth data) (gridHeight data))
                data [(startX, startY)] []) as Hinv.
  destruct Hinv as (_ & Hcells & _).
  - repeat split; auto.
    intros q [<-|[]]. now left.
  - destruct (Hcells x y) as [Hsame|[_ Hreg]]; [exact Hsame | contradiction].
Qed.

Lemma redBlueRed_region x y :
  sameColorRegion redBlueRed 0 0 x y -> x = 0 /\ y = 0.
Proof.
  induction 1 as [|x y x' y' _ [-> ->] Hadj [Hx Hy] Hcell]; [auto|].
  unfold adjacent4 in Hadj. cbn [fst snd] in Hadj.
  change (gridWidth redBlueRed) with 3 in Hx.
  change (gridHeight redBlueRed) with 1 in Hy.
  destruct Hadj as [[= -> ->]|[[= -> ->]|[[= -> ->]|[= -> ->]]]];
    try lia; discriminate.
Qed.

Lemma floodFill_frame_witness :
  cellAt (floodFill redBlueRed 0 0 "green") 2 0 = cellAt redBlueRed 2 0.
Proof.
  apply floodFill_frame.
  intros Hreg. apply redBlueRed_region in Hreg. destruct Hreg as [Hx _]. discriminate.
Defined.

(** *** The loop empties its queue *)

Lemma in_range n i : In i (JsArray.range n) <-> 0 <= i < n.
Proof.
  unfold JsArray.range. rewrite in_map_iff. split.
  - intros (k & <- & Hk). apply in_seq in Hk. lia.
  - intros Hi. exists (Z.to_nat i). split; [lia|]. apply in_seq. lia.
Qed.

Lemma in_allCells width height x y :
  In (x, y) (allCells width height) <-> 0 <= x < width /\ 0 <= y < height.
Proof.
  unfold allCells. rewrite in_flat_map. split.
  - intros (y0 & Hy0 & Hin). apply in_map_iff in Hin as (x0 & [= <- <-] & Hx0).
    apply in_range in Hy0, Hx0. auto.
  - intros [Hx Hy]. exists y. split; [now apply in_range|].
    apply in_map_iff. exists x. split; [reflexivity | now apply in_range].
Qed.

Lemma length_allCells width height :
  length (allCells width height) = (Z.to_nat width * Z.to_nat height)%nat.
Proof.
  unfold allCells.
  assert (forall ys, length (flat_map (fun y : Z => map (fun x : Z => (x, y)) (JsArray.range width)) ys)
                     = (Z.to_nat width * length ys)%nat) as H.
  { induction ys as [|y t IH]; simpl; [lia|].
    rewrite length_app, length_map, length_range, IH. lia. }
  now rewrite H, length_range.
Qed.

Lemma visitedHas_cons visited p q :
  visitedHas (p :: visited) q
  = ((fst p =? fst q) && (snd p =? snd q)) || visitedHas visited q.
Proof. reflexivity. Qed.

(** Marking a fresh in-bounds cell leaves strictly fewer unvisited cells. *)
Lemma unvisited_mark width height visited x y :
  0 <= x < width -> 0 <= y < height ->
  visitedHas visited (x, y) = false ->
  (unvisited width height ((x, y) :: visited) < unvisited width height visited)%nat.
Proof.
  intros Hx Hy Hfresh. unfold unvisited.
  assert (In (x, y) (allCells width height)) as Hin by now apply in_allCells.
  revert Hin. generalize (allCells width height) as cells.
  assert (forall cells,
             (length (filter (fun p => negb (visitedHas ((x, y) :: visited) p)) cells)
              <= length (filter (fun p => negb (visitedHas visited p)) cells))%nat) as Hle.
  { induction cells as [|c t IH]; [simpl; lia|].
    cbn [filter]. rewrite visitedHas_cons.
    destruct (visitedHas visited c); cbn [negb].
    - rewrite orb_true_r. cbn [negb]. exact IH.
    - rewrite orb_false_r.
      destruct ((fst (x, y) =? fst c) && (snd (x, y) =? snd c)); cbn [negb length]; lia. }
  induction cells as [|c t IH]; intros Hin; [contradiction|].
  destruct Hin as [->|Hin].
  - cbn [filter]. rewrite Hfresh, visitedHas_cons. cbn [fst snd negb].
    rewrite !Z.eqb_refl. cbn [andb orb negb length].
    specialize (Hle t). lia.
  - cbn [filter]. rewrite visitedHas_cons.
    destruct (visitedHas visited c); cbn [negb].
    + rewrite orb_true_r. cbn [negb]. now apply IH.
    + rewrite orb_false_r. specialize (IH Hin).
      destruct ((fst (x, y) =? fst c) && (snd (x, y) =? snd c)); cbn [negb length]; lia.
Qed.

(** With at least [4 * unvisited + |queue|] passes allowed, the loop ends
    with an empty queue. *)
Lemma floodLoop_drains fuel :
  forall width height targetColorId newColorId newData queue visited,
    (4 * unvisited width height visited + length queue <= fuel)%nat ->
    snd (floodLoop fuel width height targetColorId newColorId newData queue visited) = [].
Proof.
  induction fuel as [|fuel IH];
    intros width height targetColorId newColorId newData queue visited Hfuel.
  - destruct queue as [|[x y] rest]; [reflexivity | simpl in Hfuel; lia].
  - destruct queue as [|[x y] rest]; [reflexivity|]. cbn [floodLoop].
    cbn [length] in Hfuel.
    destruct (visitedHas visited (x, y)) eqn:Ev; [apply IH; lia|].
    destruct (Z.ltb_spec x 0); cbn [orb]; [apply IH; lia|].
    destruct (Z.geb_spec x width); cbn [orb]; [apply IH; lia|].
    destruct (Z.ltb_spec y 0); cbn [orb]; [apply IH; lia|].
    destruct (Z.geb_spec y height); cbn [orb]; [apply IH; lia|].
    destruct (Cell_eqb (cellAt newData x y) targetColorId); cbn [negb];
      [|apply IH; lia].
    apply IH. rewrite length_app. cbn [length].
    pose proof (unvisited_mark width height visited x y ltac:(lia) ltac:(lia) Ev).
    lia.
Qed.

(** The passes [floodFill] allows always suffice: its loop runs until the
    queue is empty. *)
Lemma floodFill_loop_completes (data : PixelData) (startX startY : Z)
      (targetColorId newColorId : Cell) :
  snd (floodLoop (floodFuel (gridWidth data) (gridHeight data))
                 (gridWidth data) (gridHeight data) targetColorId newColorId
                 data [(startX, startY)] []) = [].
Proof.
  apply floodLoop_drains. unfold unvisited. cbn [visitedHas existsb negb].
  assert (forall l : list Point, filter (fun _ => true) l = l) as Hall.
  { induction l as [|c t IH]; simpl; [reflexivity | now rewrite IH]. }
  rewrite Hall, length_allCells. cbn [length]. unfold floodFuel.
  assert (0 <= gridWidth data) as Hw
      by (unfold gridWidth, JsArray.len; destruct data; lia).
  assert (0 <= gridHeight data) as Hh by (unfold gridHeight, JsArray.len; lia).
  nia.
Qed.

(** The scenario of the specification: filling [(0, 0)] with blue on
    [[red, red], [blue, blue]] gives an all-blue grid. *)
Example floodFill_demo :
  floodFill demoGrid 0 0 "blue"
  = [[Color "blue"; Color "blue"]; [Color "blue"; Color "blue"]]%string.
Proof. vm_compute. reflexivity. Qed.

(** ** The store: what [undo] can bring back *)

Lemma firstn_succ_snoc {A} (l : list A) (n : nat) (a : A) :
  nth_error l n = Some a -> firstn (S n) l = firstn n l ++ [a].
Proof.
  revert l. induction n as [|n IH]; intros [|h t] H; simpl in *; try discriminate.
  - now injection H as ->.
  - now rewrite (IH t H).
Qed.

Lemma undoStack_undo st :
  history_inv st -> 0 <= historyIndex st ->
  exists item,
    JsArray.get (history st) (historyIndex st) = Some item
    /\ undoStack st = itemPixelData item :: undoStack (Store.undo st)
    /\ pixelData (Store.undo st) = itemPixelData item.
Proof.
  intros [Hi Hc] Hpos.
  destruct (get_in_range (history st) (historyIndex st) ltac:(lia)) as [item Hget].
  exists item. split; [exact Hget|].
  unfold Store.undo. destruct (Z.geb_spec (historyIndex st) 0); [|lia].
  rewrite Hget. unfold undoStack. cbn [historyIndex history pixelData].
  split; [|reflexivity].
  rewrite get_nth in Hget by lia.
  replace (Z.to_nat (historyIndex st + 1)) with (S (Z.to_nat (historyIndex st))) by lia.
  rewrite (firstn_succ_snoc _ _ _ Hget), map_app, rev_app_distr. cbn [map rev app].
  now replace (historyIndex st - 1 + 1) with (historyIndex st) by lia.
Qed.

Lemma map_tl {A B} (f : A -> B) (l : list A) : tl (map f l) = map f (tl l).
Proof. now destruct l. Qed.

Lemma rev_tl {A} (l : list A) : rev (tl l) = firstn (length l - 1) (rev l).
Proof.
  destruct l as [|a t]; [reflexivity|]. cbn [tl rev length].
  replace (S (length t) - 1)%nat with (length (rev t) + 0)%nat
    by (rewrite length_rev; lia).
  rewrite firstn_app_2. cbn [firstn]. now rewrite app_nil_r.
Qed.

(** An edit puts the grid it replaces on top of the stack; the stack never
    holds more than [MAX_HISTORY] grids. *)
Lemma undoStack_setPixelData data now st :
  history_inv st ->
  undoStack (Store.setPixelData data true now st)
  = firstn (Z.to_nat MAX_HISTORY) (pixelData st :: undoStack st).
Proof.
  intros [Hi Hc]. unfold undoStack at 1.
  rewrite historyIndex_setPixelData, history_setPixelData.
  replace (Z.to_nat (JsArray.len (pushHistory st now) - 1 + 1))
    with (length (pushHistory st now)) by (unfold JsArray.len; lia).
  rewrite firstn_all. unfold pushHistory.
  destruct (slice0_in_range (history st) (historyIndex st + 1)) as [Hs Hl]; [lia|].
  assert (JsArray.len (JsArray.slice0 (history st) (historyIndex st + 1)
                       ++ [mkItem (pixelData st) now]) = historyIndex st + 2) as Hp.
  { unfold JsArray.len in *. rewrite length_app. simpl. lia. }
  assert (rev (map itemPixelData
                   (JsArray.slice0 (history st) (historyIndex st + 1)
                    ++ [mkItem (pixelData st) now]))
          = pixelData st :: undoStack st) as Hrev.
  { rewrite map_app, rev_app_distr, Hs. reflexivity. }
  assert (length (pixelData st :: undoStack st) = Z.to_nat (historyIndex st + 2)) as Hlen.
  { rewrite <- Hrev, length_rev, length_map. unfold JsArray.len in Hp. lia. }
  rewrite Hp. destruct (Z.gtb_spec (historyIndex st + 2) MAX_HISTORY) as [Hgt|Hle].
  - rewrite <- (map_tl itemPixelData), rev_tl, length_map.
    rewrite Hrev. f_equal. unfold JsArray.len in Hp. unfold MAX_HISTORY in *. lia.
  - rewrite Hrev. symmetry. apply firstn_all2. rewrite Hlen.
    unfold MAX_HISTORY in *. lia.
Qed.

Lemma history_inv_applyEdits edits st :
  history_inv st -> history_inv (applyEdits edits st).
Proof.
  revert st. induction edits as [|e t IH]; intros st H; [exact H|].
  change (applyEdits (e :: t) st)
    with (applyEdits t (Store.setPixelData (fst e) true (snd e) st)).
  apply IH. now apply history_inv_setPixelData.
Qed.

(** Edits push the older entries of the stack down, as long as they fit. *)
Lemma undoStack_applyEdits edits :
  forall st j,
    history_inv st ->
    (length edits + j < Z.to_nat MAX_HISTORY)%nat ->
    nth_error (undoStack (applyEdits edits st)) (length edits + j)
    = nth_error (undoStack st) j.
Proof.
  induction edits as [|e t IH]; intros st j Hinv Hj; [reflexivity|].
  change (applyEdits (e :: t) st)
    with (applyEdits t (Store.setPixelData (fst e) true (snd e) st)).
  cbn [length] in *.
  replace (S (length t) + j)%nat with (length t + S j)%nat by lia.
  rewrite IH; [|now apply history_inv_setPixelData | lia].
  rewrite undoStack_setPixelData by assumption.
  rewrite nth_error_firstn.
  destruct (Nat.ltb_spec (S j) (Z.to_nat MAX_HISTORY)); [reflexivity | lia].
Qed.

Lemma undoTimes_stack n :
  forall st g,
    history_inv st ->
    nth_error (undoStack st) n = Some g ->
    pixelData (undoTimes (S n) st) = g.
Proof.
  induction n as [|n IH]; intros st g Hinv Hnth.
  - destruct (Z_lt_ge_dec (historyIndex st) 0) as [Hneg|Hpos].
    + unfold undoStack in Hnth. destruct Hinv as [Hi _].
      replace (Z.to_nat (historyIndex st + 1)) with 0%nat in Hnth by lia.
      discriminate.
    + destruct (undoStack_undo st Hinv ltac:(lia)) as (item & _ & Hstack & Hpd).
      rewrite Hstack in Hnth. cbn [undoTimes]. rewrite Hpd. now injection Hnth.
  - destruct (Z_lt_ge_dec (historyIndex st) 0) as [Hneg|Hpos].
    + unfold undoStack in Hnth. destruct Hinv as [Hi _].
      replace (Z.to_nat (historyIndex st + 1)) with 0%nat in Hnth by lia.
      discriminate.
    + destruct (undoStack_undo st Hinv ltac:(lia)) as (item & _ & Hstack & _).
      rewrite Hstack in Hnth. cbn [nth_error] in Hnth.
      change (undoTimes (S (S n)) st) with (undoTimes (S n) (Store.undo st)).
      apply IH; [now apply history_inv_undo | exact Hnth].
Qed.

(** After [N] committed edits, [N] not exceeding the history capacity,
    [undo] applied [N] times brings back the grid the edits started from. *)
Lemma undo_all_edits (st : StoreState) (edits : list (PixelData * Z)) :
  history_inv st ->
  (length edits <= Z.to_nat MAX_HISTORY)%nat ->
  pixelData (undoTimes (length edits) (applyEdits edits st)) = pixelData st.
Proof.
  intros Hinv Hn. destruct edits as [|e t]; [reflexivity|].
  change (applyEdits (e :: t) st)
    with (applyEdits t (Store.setPixelData (fst e) true (snd e) st)).
  cbn [length] in *.
  apply undoTimes_stack.
  - apply history_inv_applyEdits. now apply history_inv_setPixelData.
  - pose proof (undoStack_applyEdits t (Store.setPixelData (fst e) true (snd e) st) 0)
      as H.
    rewrite Nat.add_0_r in H. rewrite H.
    + rewrite undoStack_setPixelData by assumption. reflexivity.
    + now apply history_inv_setPixelData.
    + lia.
Qed.

Lemma undo_all_edits_witness :
  pixelData
    (undoTimes 2
       (applyEdits [([[Null; Null]; [Null; Null]], 1); (demoGrid, 2)] demoStore))
  = pixelData demoStore.
Proof.
  apply (undo_all_edits demoStore [([[Null; Null]; [Null; Null]], 1); (demoGrid, 2)]).
  - unfold history_inv, MAX_HISTORY. vm_compute.
    repeat split; discriminate.
  - vm_compute. lia.
Defined.

(** A committed edit keeps the entries up to the cursor, drops every entry
    beyond it, and leaves nothing to redo. *)
Lemma edit_discards_redo_branch (st : StoreState) (data : PixelData) (now : Z) :
  history_inv st ->
  historyIndex st + 1 < MAX_HISTORY ->
  history (Store.setPixelData data true now st)
  = firstn (Z.to_nat (historyIndex st + 1)) (history st) ++ [mkItem (pixelData st) now]
  /\ Store.canRedo (Store.setPixelData data true now st) = false.
Proof.
  intros [Hi Hc] Hbelow.
  assert (Store.canRedo (Store.setPixelData data true now st) = false) as Hredo.
  { unfold Store.canRedo. rewrite historyIndex_setPixelData, history_setPixelData.
    apply Z.ltb_irrefl. }
  split; [|exact Hredo].
  rewrite history_setPixelData. unfold pushHistory.
  destruct (slice0_in_range (history st) (historyIndex st + 1)) as [Hs Hl]; [lia|].
  assert (JsArray.len (JsArray.slice0 (history st) (historyIndex st + 1)
                       ++ [mkItem (pixelData st) now]) = historyIndex st + 2) as Hp.
  { unfold JsArray.len in *. rewrite length_app. simpl. lia. }
  rewrite Hp. destruct (Z.gtb_spec (historyIndex st + 2) MAX_HISTORY); [lia|].
  now rewrite Hs.
Qed.

Lemma edit_discards_redo_branch_witness :
  history (Store.setPixelData demoGrid true 3
             (Store.undo (Store.setPixelData [[Null]] true 1 demoStore)))
  = [mkItem demoGrid 3].
Proof.
  apply (edit_discards_redo_branch
           (Store.undo (Store.setPixelData [[Null]] true 1 demoStore)) demoGrid 3).
  - unfold history_inv, MAX_HISTORY. vm_compute. repeat split; discriminate.
  - vm_compute. reflexivity.
Defined.

Lemma history_inv_reachable_witness :
  history_inv (Store.dispatch demoConfig Store.Undo (Store.initialState demoConfig)).
Proof.
  apply (history_inv_reachable demoConfig).
  apply Store.reach_step, Store.reach_init.
Defined.

(** ** Flood fill: the whole region is recoloured *)

Lemma visitedHas_In visited p : visitedHas visited p = true -> In p visited.
Proof.
  unfold visitedHas. rewrite existsb_exists. intros (q & Hin & Heq).
  apply andb_true_iff in Heq as [Hx Hy]. apply Z.eqb_eq in Hx, Hy.
  destruct p, q. cbn [fst snd] in *. now subst.
Qed.

Section FloodFillComplete.
Variable data : PixelData.
Variables startX startY : Z.
Variable newColorId : Cell.
Hypothesis Hfresh : cellAt data startX startY <> newColorId.

Lemma openCell_skip newData q rest p :
  ~ (inBounds data (fst q) (snd q)
     /\ cellAt newData (fst q) (snd q) = cellAt data startX startY) ->
  openCell data startX startY newData (q :: rest) p ->
  openCell data startX startY newData rest p.
Proof.
  intros Hdead Hopen.
  induction Hopen as [p [->|Hin] Hb Hc|p' p _ IH Hadj Hb Hc].
  - exfalso. apply Hdead. split; assumption.
  - now apply open_here.
  - now apply (open_step _ _ _ _ _ p' p).
Qed.

Lemma openCell_mark newData x y rest p :
  gridHeight newData = gridHeight data ->
  inBounds data x y ->
  openCell data startX startY newData ((x, y) :: rest) p ->
  p = (x, y)
  \/ openCell data startX startY (gridSet newData x y newColorId)
              (rest ++ [(x + 1, y); (x - 1, y); (x, y + 1); (x, y - 1)]) p.
Proof.
  intros Hh [Hx Hy] Hopen.
  assert (forall c, c <> (x, y) ->
            cellAt (gridSet newData x y newColorId) (fst c) (snd c)
            = cellAt newData (fst c) (snd c)) as Hother.
  { intros [cx cy] Hne. cbn [fst snd]. rewrite cellAt_gridSet by (rewrite ?Hh; lia).
    destruct (Z.eqb_spec cx x); destruct (Z.eqb_spec cy y); cbn [andb];
      try reflexivity. subst. contradiction. }
  induction Hopen as [p Hin Hb Hc|p' p _ IH Hadj Hb Hc].
  - destruct Hin as [<-|Hin]; [now left|].
    destruct (Z.eq_dec (fst p) x) as [Ex|Ex];
      [destruct (Z.eq_dec (snd p) y) as [Ey|Ey]|].
    + left. destruct p. cbn [fst snd] in *. now subst.
    + right. apply open_here; [apply in_or_app; now left | assumption|].
      rewrite Hother; [assumption|]. intros ->. now cbn in Ey.
    + right. apply open_here; [apply in_or_app; now left | assumption|].
      rewrite Hother; [assumption|]. intros ->. now cbn in Ex.
  - destruct (Z.eq_dec (fst p) x) as [Ex|Ex];
      [destruct (Z.eq_dec (snd p) y) as [Ey|Ey]|].
    + left. destruct p. cbn [fst snd] in *. now subst.
    + right. assert (p <> (x, y)) as Hne by (intros ->; now cbn in Ey).
      destruct IH as [->|IH].
      * apply open_here; [|assumption | now rewrite Hother].
        apply in_or_app. right. unfold adjacent4 in Hadj. cbn [fst snd] in Hadj.
        cbn [In]. intuition.
      * apply (open_step _ _ _ _ _ p' p); auto. now rewrite Hother.
    + right. assert (p <> (x, y)) as Hne by (intros ->; now cbn in Ex).
      destruct IH as [->|IH].
      * apply open_here; [|assumption | now rewrite Hother].
        apply in_or_app. right. unfold adjacent4 in Hadj. cbn [fst snd] in Hadj.
        cbn [In]. intuition.
      * apply (open_step _ _ _ _ _ p' p); auto. now rewrite Hother.
Qed.

Lemma fillProgress_skip newData q rest visited :
  ~ (inBounds data (fst q) (snd q)
     /\ cellAt newData (fst q) (snd q) = cellAt data startX startY) ->
  fillProgress data startX startY newColorId newData (q :: rest) visited ->
  fillProgress data startX startY newColorId newData rest visited.
Proof.
  intros Hdead (Hh & Hv & Hr). repeat split; auto.
  intros x y Hreg. destruct (Hr x y Hreg) as [Hc|Ho]; [now left|].
  right. now apply (openCell_skip newData q).
Qed.

Lemma fillProgress_mark newData x y rest visited :
  inBounds data x y ->
  fillProgress data startX startY newColorId newData ((x, y) :: rest) visited ->
  fillProgress data startX startY newColorId (gridSet newData x y newColorId)
               (rest ++ [(x + 1, y); (x - 1, y); (x, y + 1); (x, y - 1)])
               ((x, y) :: visited).
Proof.
  intros Hb (Hh & Hv & Hr). pose proof Hb as [Hx Hy].
  assert (forall cx cy,
             cellAt newData cx cy = newColorId ->
             cellAt (gridSet newData x y newColorId) cx cy = newColorId) as Hkeep.
  { intros cx cy Hc. rewrite cellAt_gridSet by (rewrite ?Hh; lia).
    now destruct ((cx =? x) && (cy =? y)). }
  assert (cellAt (gridSet newData x y newColorId) x y = newColorId) as Hset.
  { rewrite cellAt_gridSet by (rewrite ?Hh; lia). now rewrite !Z.eqb_refl. }
  repeat split.
  - now rewrite gridHeight_gridSet.
  - intros v [<-|Hin]; [exact Hset | now apply Hkeep, Hv].
  - intros cx cy Hreg. destruct (Hr cx cy Hreg) as [Hc|Ho]; [left; now apply Hkeep|].
    destruct (openCell_mark newData x y rest (cx, cy) Hh Hb Ho) as [[= -> ->]|Ho'].
    + left. exact Hset.
    + now right.
Qed.

Lemma floodLoop_progress fuel :
  forall newData queue visited,
    fillProgress data startX startY newColorId newData queue visited ->
    forall x y,
      sameColorRegion data startX startY x y ->
      cellAt (fst (floodLoop fuel (gridWidth data) (gridHeight data)
                             (cellAt data startX startY) newColorId
                             newData queue visited)) x y = newColorId
      \/ openCell data startX startY
                  (fst (floodLoop fuel (gridWidth data) (gridHeight data)
                                  (cellAt data startX startY) newColorId
                                  newData queue visited))
                  (snd (floodLoop fuel (gridWidth data) (gridHeight data)
                                  (cellAt data startX startY) newColorId
                                  newData queue visited))
                  (x, y).
Proof.
  induction fuel as [|fuel IH]; intros newData queue visited Hinv.
  - destruct queue as [|[qx qy] rest]; cbn [floodLoop fst snd]; apply Hinv.
  - destruct queue as [|[qx qy] rest]; cbn [floodLoop]; [apply Hinv|].
    assert (forall newData',
               newData' = newData ->
               ~ (inBounds data qx qy
                  /\ cellAt newData qx qy = cellAt data startX startY) ->
               fillProgress data startX startY newColorId newData rest visited)
      as Hskip.
    { intros _ _ Hdead. now apply (fillProgress_skip newData (qx, qy)). }
    destruct (visitedHas visited (qx, qy)) eqn:Ev.
    { apply IH, (Hskip newData eq_refl). intros [_ Hc].
      destruct Hinv as (_ & Hv & _).
      apply visitedHas_In in Ev. apply Hv in Ev. cbn [fst snd] in Ev. congruence. }
    destruct (Z.ltb_spec qx 0); cbn [orb].
    { apply IH, (Hskip newData eq_refl). intros [[Hb _] _]. lia. }
    destruct (Z.geb_spec qx (gridWidth data)); cbn [orb].
    { apply IH, (Hskip newData eq_refl). intros [[Hb _] _]. lia. }
    destruct (Z.ltb_spec qy 0); cbn [orb].
    { apply IH, (Hskip newData eq_refl). intros [[_ Hb] _]. lia. }
    destruct (Z.geb_spec qy (gridHeight data)); cbn [orb].
    { apply IH, (Hskip newData eq_refl). intros [[_ Hb] _]. lia. }
    destruct (Cell_eqb (cellAt newData qx qy) (cellAt data startX startY)) eqn:E;
      cbn [negb].
    + apply IH. apply fillProgress_mark; [split; lia | exact Hinv].
    + apply IH, (Hskip newData eq_refl). intros [_ Hc].
      apply Cell_eqb_neq in E. contradiction.
Qed.

End FloodFillComplete.

Lemma openCell_nil data startX startY newData p :
  ~ openCell data startX startY newData [] p.
Proof. induction 1; auto. Qed.

Lemma region_open data startX startY x y :
  sameColorRegion data startX startY x y ->
  openCell data startX startY data [(startX, startY)] (x, y).
Proof.
  induction 1 as [Hb|x y x' y' _ IH Hadj Hb Hc].
  - apply open_here; [now left | exact Hb | reflexivity].
  - apply (open_step _ _ _ _ _ (x, y) (x', y')); assumption.
Qed.

Lemma floodFill_in_range data startX startY newColorId :
  inBounds data startX startY ->
  cellAt data startX startY <> Color newColorId ->
  floodFill data startX startY newColorId
  = fst (floodLoop (floodFuel (gridWidth data) (gridHeight data))
                   (gridWidth data) (gridHeight data) (cellAt data startX startY)
                   (Color newColorId) data [(startX, startY)] []).
Proof.
  intros [Hx Hy] Hne. unfold floodFill.
  destruct (Z.ltb_spec startX 0); [lia|].
  destruct (Z.geb_spec startX (gridWidth data)); [lia|].
  destruct (Z.ltb_spec startY 0); [lia|].
  destruct (Z.geb_spec startY (gridHeight data)); [lia|]. cbn [orb].
  apply Cell_eqb_neq in Hne. now rewrite Hne.
Qed.

Lemma floodFill_region_filled (data : PixelData) (startX startY : Z)
      (newColorId : string) (x y : Z) :
  inBounds data startX startY ->
  cellAt data startX startY <> Color newColorId ->
  sameColorRegion data startX startY x y ->
  cellAt (floodFill data startX startY newColorId) x y = Color newColorId.
Proof.
  intros Hb Hne Hreg. rewrite floodFill_in_range by assumption.
  pose proof (floodLoop_progress data startX startY (Color newColorId) Hne
                (floodFuel (gridWidth data) (gridHeight data))
                data [(startX, startY)] []) as Hprog.
  destruct (Hprog) with (x := x) (y := y) as [Hc|Ho].
  - repeat split; [intros v [] | intros cx cy Hr; right; now apply region_open].
  - exact Hreg.
  - exact Hc.
  - rewrite floodFill_loop_completes in Ho. now apply openCell_nil in Ho.
Qed.

(** [floodFill] recolours the whole region: started on an in-bounds cell
    whose value is not the new colour, it leaves the new colour in every
    cell of the 4-connected region of the start cell. *)
Theorem floodFill_fills_region (data : PixelData) (startX startY : Z)
        (newColorId : string) (x y : Z) :
  inBounds data startX startY ->
  cellAt data startX startY <> Color newColorId ->
  sameColorRegion data startX startY x y ->
  cellAt (floodFill data startX startY newColorId) x y = Color newColorId.
Proof.
  intros Hb Hne Hreg. rewrite floodFill_in_range by assumption.
  pose proof (floodLoop_progress data startX startY (Color newColorId) Hne
                (floodFuel (gridWidth data) (gridHeight data))
                data [(startX, startY)] []) as Hprog.
  destruct (Hprog) with (x := x) (y := y) as [Hc|Ho].
  - repeat split; [intros v [] | intros cx cy Hr; right; now apply region_open].
  - exact Hreg.
  - exact Hc.
  - rewrite floodFill_loop_completes in Ho. now apply openCell_nil in Ho.
Qed.


Lemma floodFill_fills_region_witness :
  cellAt (floodFill demoGrid 0 0 "green") 1 0 = Color "green".
Proof.
  apply floodFill_fills_region.
  - vm_compute. repeat split; discriminate.
  - discriminate.
  - apply (region_step demoGrid 0 0 0 0 1 0).
    + apply region_start. vm_compute. repeat split; discriminate.
    + left. reflexivity.
    + vm_compute. repeat split; discriminate.
    + reflexivity.
Defined.

(** Filling twice is filling once: after a fill the start cell holds the new
    colour (or lies outside the grid), so the same fill again changes
    nothing. *)
Theorem floodFill_idempotent (data : PixelData) (startX startY : Z)
        (newColorId : string) :
  floodFill (floodFill data startX startY newColorId) startX startY newColorId
  = floodFill data startX startY newColorId.
Proof.
  assert (forall g, cellAt g startX startY = Color newColorId ->
                    floodFill g startX startY newColorId = g) as Hsame.
  { intros g Hc. apply floodFill_noop. do 4 right. exact Hc. }
  destruct (Z_lt_ge_dec startX 0) as [Hx0|Hx0];
    [now rewrite !(floodFill_noop data) by (left; lia)|].
  destruct (Z_lt_ge_dec startX (gridWidth data)) as [Hx1|Hx1];
    [|now rewrite !(floodFill_noop data) by (right; left; lia)].
  destruct (Z_lt_ge_dec startY 0) as [Hy0|Hy0];
    [now rewrite !(floodFill_noop data) by (do 2 right; left; lia)|].
  destruct (Z_lt_ge_dec startY (gridHeight data)) as [Hy1|Hy1];
    [|now rewrite !(floodFill_noop data) by (do 3 right; left; lia)].
  destruct (Cell_eqb (cellAt data startX startY) (Color newColorId)) eqn:E.
  - apply Cell_eqb_eq in E. now rewrite !(Hsame data E).
  - apply Cell_eqb_neq in E. apply Hsame.
    apply floodFill_region_filled; [split; lia | exact E|].
    apply region_start. split; lia.
Qed.

(** *** The shape of the grid *)

Lemma rowSetNat_length (row : list Cell) (n : nat) (v : Cell) :
  length (rowSetNat row n v) = Nat.max (length row) (S n).
Proof.
  revert row. induction n as [|n IH]; intros [|c t]; cbn [rowSetNat length].
  - reflexivity.
  - lia.
  - rewrite IH. cbn [length]. lia.
  - rewrite IH. lia.
Qed.

Lemma rows_gridSetNat (data : PixelData) (w x : Z) (n : nat) (v : Cell) :
  0 <= x < w ->
  Forall (fun row => JsArray.len row = w) data ->
  Forall (fun row => JsArray.len row = w) (gridSetNat data x n v).
Proof.
  intros Hx. revert n. induction data as [|row t IH]; intros n Hrows;
    [now destruct n|].
  inversion Hrows as [|? ? Hrow Ht]; subst.
  destruct n; cbn [gridSetNat]; constructor; auto.
  unfold JsArray.len, rowSet in *. rewrite rowSetNat_length. lia.
Qed.

Lemma rectangular_gridSet (data : PixelData) (x y : Z) (v : Cell) :
  0 <= x < gridWidth data -> rectangular data -> rectangular (gridSet data x y v).
Proof.
  intros Hx Hrect. unfold rectangular. rewrite gridWidth_gridSet by assumption.
  now apply rows_gridSetNat.
Qed.

Lemma floodLoop_shape fuel width height target newColorId :
  forall newData queue visited,
    width = gridWidth newData ->
    gridWidth (fst (floodLoop fuel width height target newColorId
                              newData queue visited)) = gridWidth newData
    /\ gridHeight (fst (floodLoop fuel width height target newColorId
                                  newData queue visited)) = gridHeight newData
    /\ (rectangular newData ->
        rectangular (fst (floodLoop fuel width height target newColorId
                                    newData queue visited))).
Proof.
  induction fuel as [|fuel IH]; intros newData queue visited Hw.
  - destruct queue as [|[x y] rest]; cbn [floodLoop fst]; auto.
  - destruct queue as [|[x y] rest]; cbn [floodLoop]; [cbn [fst]; auto|].
    destruct (visitedHas visited (x, y)); [now apply IH|].
    destruct (Z.ltb_spec x 0); cbn [orb]; [now apply IH|].
    destruct (Z.geb_spec x width); cbn [orb]; [now apply IH|].
    destruct (y <? 0); cbn [orb]; [now apply IH|].
    destruct (y >=? height); cbn [orb]; [now apply IH|].
    destruct (negb (Cell_eqb (cellAt newData x y) target)); [now apply IH|].
    assert (0 <= x < gridWidth newData) as Hx by lia.
    destruct (IH (gridSet newData x y newColorId)
                 (rest ++ [(x + 1, y); (x - 1, y); (x, y + 1); (x, y - 1)])
                 ((x, y) :: visited)) as (H1 & H2 & H3).
    { now rewrite gridWidth_gridSet. }
    rewrite H1, H2, gridWidth_gridSet, gridHeight_gridSet by assumption.
    repeat split. intros Hrect. apply H3. now apply rectangular_gridSet.
Qed.

(** [floodFill] never changes the shape of the grid: the height and the
    width stay, and a rectangular grid stays rectangular. *)
Theorem floodFill_keeps_shape (data : PixelData) (startX startY : Z)
        (newColorId : string) :
  gridWidth (floodFill data startX startY newColorId) = gridWidth data
  /\ gridHeight (floodFill data startX startY newColorId) = gridHeight data
  /\ (rectangular data -> rectangular (floodFill data startX startY newColorId)).
Proof.
  unfold floodFill.
  destruct ((startX <? 0) || (startX >=? gridWidth data) || (startY <? 0)
            || (startY >=? gridHeight data)); [auto|].
  destruct (Cell_eqb (cellAt data startX startY) (Color newColorId)); [auto|].
  now apply floodLoop_shape.
Qed.

(** ** The store: what an edit changes and how it is undone *)

(** [setPixel] on an in-bounds cell writes that cell and no other. *)
Theorem setPixel_writes_one_cell (st : StoreState) (x y : Z) (colorId : option string)
        (now x' y' : Z) :
  0 <= y < gridHeight (pixelData st) ->
  0 <= x < gridWidth (pixelData st) ->
  cellAt (pixelData (Store.setPixel x y colorId now st)) x' y'
  = if (x' =? x) && (y' =? y) then cellOf colorId else cellAt (pixelData st) x' y'.
Proof.
  intros Hy Hx. rewrite setPixel_in_range by assumption.
  destruct (Cell_eqb (cellAt (pixelData st) x y) (cellOf colorId)) eqn:E.
  - apply Cell_eqb_eq in E.
    destruct (Z.eqb_spec x' x); destruct (Z.eqb_spec y' y); cbn [andb];
      try reflexivity. now subst.
  - rewrite pixelData_setPixelData. apply cellAt_gridSet; lia.
Qed.

Lemma setPixel_writes_one_cell_witness :
  cellAt (pixelData (Store.setPixel 1 0 (Some "green"%string) 5 demoStore)) 1 1
  = if (1 =? 1) && (1 =? 0) then cellOf (Some "green"%string)
    else cellAt (pixelData demoStore) 1 1.
Proof.
  apply (setPixel_writes_one_cell demoStore 1 0 (Some "green"%string) 5 1 1).
  - vm_compute. repeat split; discriminate.
  - vm_compute. repeat split; discriminate.
Defined.

(** A fill is always undone by one [undo], whatever it changed; a
    [setPixel] that changes its cell is undone by one [undo] as well. *)
Theorem edit_then_undo_restores (st : StoreState) (x y : Z) (now : Z) :
  (forall colorId : string,
      pixelData (Store.undo (Store.fillArea x y colorId now st)) = pixelData st)
  /\ (forall colorId : option string,
         0 <= y < gridHeight (pixelData st) ->
         0 <= x < gridWidth (pixelData st) ->
         cellAt (pixelData st) x y <> cellOf colorId ->
         pixelData (Store.undo (Store.setPixel x y colorId now st)) = pixelData st).
Proof.
  split.
  - intros colorId. unfold Store.fillArea. cbv zeta.
    apply (undo_setPixelData _ now st).
  - intros colorId Hy Hx Hne. rewrite setPixel_in_range by assumption.
    apply Cell_eqb_neq in Hne. rewrite Hne.
    apply (undo_setPixelData _ now st).
Qed.

Lemma edit_then_undo_restores_witness :
  pixelData (Store.undo (Store.setPixel 0 1 None 3 demoStore)) = pixelData demoStore.
Proof.
  apply (proj2 (edit_then_undo_restores demoStore 0 1 3) None).
  - vm_compute. repeat split; discriminate.
  - vm_compute. repeat split; discriminate.
  - discriminate.
Defined.

Lemma get_app_at {A} (l : list A) (a : A) (rest : list A) :
  JsArray.get (l ++ a :: rest) (JsArray.len l) = Some a.
Proof.
  unfold JsArray.len. rewrite get_nth by lia. rewrite Nat2Z.id.
  rewrite nth_error_app2 by lia. now rewrite Nat.sub_diag.
Qed.

(** [redo] does bring back every edit but the latest: after two edits and
    two [undo]s, one [redo] restores the grid of the first edit, and a second
    [redo] leaves that grid in place. *)
Theorem redo_restores_all_but_latest (st : StoreState) (data1 data2 : PixelData)
        (now1 now2 : Z) :
  history_inv st ->
  historyIndex st + 2 < MAX_HISTORY ->
  let edited :=
    Store.setPixelData data2 true now2 (Store.setPixelData data1 true now1 st) in
  pixelData (Store.undo (Store.undo edited)) = pixelData st
  /\ pixelData (Store.redo (Store.undo (Store.undo edited))) = data1
  /\ pixelData (Store.redo (Store.redo (Store.undo (Store.undo edited)))) = data1.
Proof.
  intros Hinv Hbelow. cbv zeta.
  set (st1 := Store.setPixelData data1 true now1 st).
  assert (history_inv st1) as Hinv1 by now apply history_inv_setPixelData.
  destruct (pushHistory_below_capacity st now1 Hinv ltac:(lia)) as [Hh1 Hl1].
  assert (historyIndex st1 = historyIndex st + 1) as Hi1.
  { unfold st1. rewrite historyIndex_setPixelData. lia. }
  assert (history st1 = pushHistory st now1) as Hhist1 by reflexivity.
  assert (pixelData st1 = data1) as Hp1 by apply pixelData_setPixelData.
  destruct (pushHistory_below_capacity st1 now2 Hinv1 ltac:(lia)) as [Hh2 Hl2].
  set (prefix := firstn (Z.to_nat (historyIndex st + 1)) (history st)) in *.
  assert (JsArray.len prefix = historyIndex st + 1) as Hlp.
  { unfold JsArray.len in *. rewrite Hh1, length_app in Hl1. cbn [length] in Hl1. lia. }
  assert (pushHistory st1 now2
          = prefix ++ [mkItem (pixelData st) now1; mkItem data1 now2]) as Hh.
  { rewrite Hh2, Hhist1, Hi1, Hp1, Hh1.
    rewrite firstn_all2.
    - now rewrite <- app_assoc.
    - unfold JsArray.len in Hlp. rewrite length_app. cbn [length]. lia. }
  destruct (undo_setPixelData data2 now2 st1) as (Hup & Huh & Hui).
  set (u1 := Store.undo (Store.setPixelData data2 true now2 st1)) in *.
  assert (Store.undo u1
          = mkStore (pixelData st) (config u1) (originalImage u1) (ui u1)
                    (history u1) (historyIndex st)) as Hu2.
  { unfold Store.undo at 1. rewrite Hui, Hl2, Hi1, Huh, Hh.
    destruct (Z.geb_spec (historyIndex st + 1 + 2 - 2) 0);
      [|destruct Hinv as [? _]; lia].
    replace (historyIndex st + 1 + 2 - 2) with (JsArray.len prefix) by lia.
    rewrite get_app_at. cbn [itemPixelData]. f_equal. lia. }
  rewrite Hu2. cbn [pixelData]. split; [reflexivity|].
  assert (JsArray.len (history u1) = historyIndex st + 3) as Hlen
      by (rewrite Huh, Hl2, Hi1; lia).
  set (u2 := mkStore (pixelData st) (config u1) (originalImage u1) (ui u1)
                     (history u1) (historyIndex st)).
  assert (Store.redo u2
          = mkStore data1 (config u1) (originalImage u1) (ui u1)
                    (history u1) (historyIndex st + 1)) as Hr1.
  { unfold Store.redo, u2. cbn [historyIndex history pixelData config originalImage ui].
    rewrite Hlen.
    destruct (Z.ltb_spec (historyIndex st) (historyIndex st + 3 - 1)); [|lia].
    destruct (Z.ltb_spec (historyIndex st + 1 + 1) (historyIndex st + 3)); [|lia].
    rewrite Huh, Hh.
    replace (prefix ++ [mkItem (pixelData st) now1; mkItem data1 now2])
      with ((prefix ++ [mkItem (pixelData st) now1]) ++ [mkItem data1 now2])
      by (now rewrite <- app_assoc).
    replace (historyIndex st + 1 + 1)
      with (JsArray.len (prefix ++ [mkItem (pixelData st) now1]))
      by (unfold JsArray.len in *; rewrite length_app; cbn [length]; lia).
    rewrite get_app_at. reflexivity. }
  rewrite Hr1. cbn [pixelData]. split; [reflexivity|].
  unfold Store.redo. cbn [historyIndex history pixelData config originalImage ui].
  rewrite Hlen.
  destruct (Z.ltb_spec (historyIndex st + 1) (historyIndex st + 3 - 1)); [|lia].
  destruct (Z.ltb_spec (historyIndex st + 1 + 1 + 1) (historyIndex st + 3)); [lia|].
  reflexivity.
Qed.

Lemma redo_restores_all_but_latest_witness :
  pixelData
    (Store.redo
       (Store.undo
          (Store.undo
             (Store.setPixelData [[Null]] true 2
                (Store.setPixelData [[Color "red"]] true 1 demoStore)))))
  = [[Color "red"]].
Proof.
  apply (redo_restores_all_but_latest demoStore [[Color "red"]] [[Null]] 1 2).
  - unfold history_inv, MAX_HISTORY. vm_compute. repeat split; discriminate.
  - vm_compute. reflexivity.
Defined.

(** ** Nearest colours: the quantized palette and the bead palette *)

Lemma nearest_fold (c : RGB) (rest pre : list RGB) (p : RGB) (mid : list RGB) :
  (forall q, In q pre -> sqDist c p < sqDist c q) ->
  (forall q, In q mid -> sqDist c p <= sqDist c q) ->
  exists pre' p' post',
    pre ++ p :: mid ++ rest = pre' ++ p' :: post'
    /\ fst (fold_left
              (fun (st : option RGB * option Z) color =>
                 let dist := sqDist c color in
                 if nearer dist (snd st) then (Some color, Some dist) else st)
              rest (Some p, Some (sqDist c p))) = Some p'
    /\ (forall q, In q pre' -> sqDist c p' < sqDist c q)
    /\ (forall q, In q post' -> sqDist c p' <= sqDist c q).
Proof.
  revert pre p mid. induction rest as [|x rest IH]; intros pre p mid Hpre Hmid.
  - exists pre, p, mid. rewrite app_nil_r. cbn [fold_left fst]. auto.
  - cbn [fold_left snd nearer]. cbv zeta.
    destruct (Z.ltb_spec (sqDist c x) (sqDist c p)) as [Hlt|Hge].
    + destruct (IH (pre ++ p :: mid) x []) as (pre' & p' & post' & Heq & Hrest).
      * intros q Hq. apply in_app_or in Hq. destruct Hq as [Hq|[<-|Hq]].
        -- specialize (Hpre q Hq). lia.
        -- lia.
        -- specialize (Hmid q Hq). lia.
      * intros q [].
      * exists pre', p', post'. split; [|exact Hrest].
        rewrite <- Heq. rewrite <- app_assoc. reflexivity.
    + destruct (IH pre p (mid ++ [x])) as (pre' & p' & post' & Heq & Hrest).
      * exact Hpre.
      * intros q Hq. apply in_app_or in Hq. destruct Hq as [Hq|[<-|[]]].
        -- now apply Hmid.
        -- lia.
      * exists pre', p', post'. split; [|exact Hrest].
        rewrite <- Heq. rewrite <- app_assoc. reflexivity.
Qed.

(** [mapToNearestColor] returns the first palette entry at the least squared
    RGB distance from the colour: strictly nearer than every entry before it,
    and at least as near as every entry after it. *)
Theorem mapToNearestColor_first_nearest (c first : RGB) (rest : list RGB) :
  exists pre p post,
    first :: rest = pre ++ p :: post
    /\ mapToNearestColor (Some c) (first :: rest) = Some p
    /\ (forall q, In q pre -> sqDist c p < sqDist c q)
    /\ (forall q, In q post -> sqDist c p <= sqDist c q).
Proof.
  destruct (nearest_fold c rest [] first []) as (pre & p & post & Heq & Hres);
    [intros q []|intros q []|].
  exists pre, p, post. split; [exact Heq|].
  unfold mapToNearestColor. cbn [fold_left hd_error snd nearer]. exact Hres.
Qed.

Lemma closest_fold (t : Lab) (rest pre : list BeadColor) (p : BeadColor)
      (mid : list BeadColor) :
  (forall q, In q pre ->
             (ColorUtils.deltaE t (ColorUtils.labOf p)
              < ColorUtils.deltaE t (ColorUtils.labOf q))%R) ->
  (forall q, In q mid ->
             (ColorUtils.deltaE t (ColorUtils.labOf p)
              <= ColorUtils.deltaE t (ColorUtils.labOf q))%R) ->
  exists pre' p' post',
    pre ++ p :: mid ++ rest = pre' ++ p' :: post'
    /\ fst (fold_left (ColorUtils.closestStep t) rest
                      (p, Some (ColorUtils.deltaE t (ColorUtils.labOf p)))) = p'
    /\ (forall q, In q pre' ->
                  (ColorUtils.deltaE t (ColorUtils.labOf p')
                   < ColorUtils.deltaE t (ColorUtils.labOf q))%R)
    /\ (forall q, In q post' ->
                  (ColorUtils.deltaE t (ColorUtils.labOf p')
                   <= ColorUtils.deltaE t (ColorUtils.labOf q))%R).
Proof.
  revert pre p mid. induction rest as [|x rest IH]; intros pre p mid Hpre Hmid.
  - exists pre, p, mid. rewrite app_nil_r. cbn [fold_left fst]. auto.
  - cbn [fold_left]. unfold ColorUtils.closestStep at 2.
    cbn [snd ColorUtils.belowMin].
    destruct (Rlt_dec (ColorUtils.deltaE t (ColorUtils.labOf x))
                      (ColorUtils.deltaE t (ColorUtils.labOf p))) as [Hlt|Hge].
    + destruct (IH (pre ++ p :: mid) x []) as (pre' & p' & post' & Heq & Hrest).
      * intros q Hq. apply in_app_or in Hq. destruct Hq as [Hq|[<-|Hq]].
        -- specialize (Hpre q Hq). lra.
        -- lra.
        -- specialize (Hmid q Hq). lra.
      * intros q [].
      * exists pre', p', post'. split; [|exact Hrest].
        rewrite <- Heq. rewrite <- app_assoc. reflexivity.
    + destruct (IH pre p (mid ++ [x])) as (pre' & p' & post' & Heq & Hrest).
      * exact Hpre.
      * intros q Hq. apply in_app_or in Hq. destruct Hq as [Hq|[<-|[]]].
        -- now apply Hmid.
        -- lra.
      * exists pre', p', post'. split; [|exact Hrest].
        rewrite <- Heq. rewrite <- app_assoc. reflexivity.
Qed.

Lemma findClosestBeadColor_split (target : RGB) (first : BeadColor)
      (rest : list BeadColor) :
  exists pre p post,
    first :: rest = pre ++ p :: post
    /\ ColorUtils.findClosestBeadColor target (first :: rest) = Some p
    /\ (forall q, In q pre ->
                  (ColorUtils.deltaE (ColorUtils.rgbToLab target) (ColorUtils.labOf p)
                   < ColorUtils.deltaE (ColorUtils.rgbToLab target) (ColorUtils.labOf q))%R)
    /\ (forall q, In q post ->
                  (ColorUtils.deltaE (ColorUtils.rgbToLab target) (ColorUtils.labOf p)
                   <= ColorUtils.deltaE (ColorUtils.rgbToLab target) (ColorUtils.labOf q))%R).
Proof.
  destruct (closest_fold (ColorUtils.rgbToLab target) rest [] first [])
    as (pre & p & post & Heq & Hres & Hpre & Hpost);
    [intros q []|intros q []|].
  exists pre, p, post. split; [exact Heq|]. split; [|now split].
  unfold ColorUtils.findClosestBeadColor. cbv zeta. f_equal.
  cbn [fold_left]. unfold ColorUtils.closestStep at 2.
  cbn [snd ColorUtils.belowMin]. exact Hres.
Qed.

(** [findClosestBeadColor] returns the first bead at the least Delta E from
    the target: strictly nearer than every bead before it in the palette, and
    at least as near as every bead after it. *)
Theorem findClosestBeadColor_first_nearest (target : RGB) (first : BeadColor)
        (rest : list BeadColor) :
  exists pre p post,
    first :: rest = pre ++ p :: post
    /\ ColorUtils.findClosestBeadColor target (first :: rest) = Some p
    /\ (forall q, In q pre ->
                  (ColorUtils.deltaE (ColorUtils.rgbToLab target) (ColorUtils.labOf p)
                   < ColorUtils.deltaE (ColorUtils.rgbToLab target) (ColorUtils.labOf q))%R)
    /\ (forall q, In q post ->
                  (ColorUtils.deltaE (ColorUtils.rgbToLab target) (ColorUtils.labOf p)
                   <= ColorUtils.deltaE (ColorUtils.rgbToLab target) (ColorUtils.labOf q))%R).
Proof.
  destruct (closest_fold (ColorUtils.rgbToLab target) rest [] first [])
    as (pre & p & post & Heq & Hres & Hpre & Hpost);
    [intros q []|intros q []|].
  exists pre, p, post. split; [exact Heq|]. split; [|now split].
  unfold ColorUtils.findClosestBeadColor. cbv zeta. f_equal.
  cbn [fold_left]. unfold ColorUtils.closestStep at 2.
  cbn [snd ColorUtils.belowMin]. exact Hres.
Qed.

Lemma labOf_withLab (color : BeadColor) :
  ColorUtils.labOf (withLab color) = ColorUtils.labOf color.
Proof. reflexivity. Qed.

Lemma precomputeLabValues_map (colors : list BeadColor) :
  ColorUtils.precomputeLabValues colors = map withLab colors.
Proof. reflexivity. Qed.

Lemma closestStep_withLab (t : Lab) (colors : list BeadColor) (best : BeadColor)
      (m : option R) :
  fold_left (ColorUtils.closestStep t) (map withLab colors) (withLab best, m)
  = (withLab (fst (fold_left (ColorUtils.closestStep t) colors (best, m))),
     snd (fold_left (ColorUtils.closestStep t) colors (best, m))).
Proof.
  revert best m. induction colors as [|x colors IH]; intros best m.
  - reflexivity.
  - cbn [map fold_left]. unfold ColorUtils.closestStep at 2 4 6.
    cbn [snd]. rewrite labOf_withLab.
    destruct (ColorUtils.belowMin _ m); apply IH.
Qed.

Lemma findClosestBeadColor_precomputed (target : RGB) (colors : list BeadColor) :
  ColorUtils.findClosestBeadColor target (ColorUtils.precomputeLabValues colors)
  = option_map withLab (ColorUtils.findClosestBeadColor target colors).
Proof.
  rewrite precomputeLabValues_map. destruct colors as [|first rest]; [reflexivity|].
  unfold ColorUtils.findClosestBeadColor. cbn [map option_map]. cbv zeta. f_equal.
  change (withLab first :: map withLab rest) with (map withLab (first :: rest)).
  now rewrite closestStep_withLab.
Qed.

(** Filling in the Lab values first does not change which bead is matched:
    the match in the precomputed palette is the match in the original one
    with its Lab value filled in, so it has the same id; and precomputing
    twice is precomputing once. *)
Theorem precomputeLabValues_same_match (target : RGB) (colors : list BeadColor) :
  ColorUtils.findClosestBeadColor target (ColorUtils.precomputeLabValues colors)
  = option_map withLab (ColorUtils.findClosestBeadColor target colors)
  /\ option_map id
       (ColorUtils.findClosestBeadColor target (ColorUtils.precomputeLabValues colors))
     = option_map id (ColorUtils.findClosestBeadColor target colors)
  /\ ColorUtils.precomputeLabValues (ColorUtils.precomputeLabValues colors)
     = ColorUtils.precomputeLabValues colors.
Proof.
  split; [apply findClosestBeadColor_precomputed|]. split.
  - rewrite findClosestBeadColor_precomputed.
    now destruct (ColorUtils.findClosestBeadColor target colors).
  - unfold ColorUtils.precomputeLabValues. rewrite List.map_map.
    apply map_ext. reflexivity.
Qed.

Lemma deltaE_nonneg (lab1 lab2 : Lab) : (0 <= ColorUtils.deltaE lab1 lab2)%R.
Proof. apply sqrt_pos. Qed.

Lemma deltaE_refl (l : Lab) : ColorUtils.deltaE l l = 0%R.
Proof.
  unfold ColorUtils.deltaE. cbv zeta.
  replace ((lab_l l - lab_l l) * (lab_l l - lab_l l)
           + (lab_a l - lab_a l) * (lab_a l - lab_a l)
           + (lab_b l - lab_b l) * (lab_b l - lab_b l))%R with 0%R by ring.
  apply sqrt_0.
Qed.

Lemma deltaE_zero (lab1 lab2 : Lab) :
  ColorUtils.deltaE lab1 lab2 = 0%R -> lab1 = lab2.
Proof.
  unfold ColorUtils.deltaE. cbv zeta. intros H.
  destruct lab1 as [l1 a1 b1], lab2 as [l2 a2 b2]. cbn [lab_l lab_a lab_b] in H.
  pose proof (Rle_0_sqr (l1 - l2)) as Hl.
  pose proof (Rle_0_sqr (a1 - a2)) as Ha.
  pose proof (Rle_0_sqr (b1 - b2)) as Hb.
  unfold Rsqr in Hl, Ha, Hb.
  apply sqrt_eq_0 in H; [|lra].
  assert ((l1 - l2) * (l1 - l2) = 0)%R as Hl0 by lra.
  assert ((a1 - a2) * (a1 - a2) = 0)%R as Ha0 by lra.
  assert ((b1 - b2) * (b1 - b2) = 0)%R as Hb0 by lra.
  apply Rmult_integral in Hl0, Ha0, Hb0.
  f_equal; lra.
Qed.

(** A target whose Lab value is that of some bead of the palette is matched
    to a bead of exactly that Lab value. *)
Theorem findClosestBeadColor_exact (target : RGB) (colors : list BeadColor)
        (bead : BeadColor) :
  In bead colors ->
  ColorUtils.labOf bead = ColorUtils.rgbToLab target ->
  exists best,
    ColorUtils.findClosestBeadColor target colors = Some best
    /\ In best colors
    /\ ColorUtils.labOf best = ColorUtils.rgbToLab target.
Proof.
  intros Hin Hlab. destruct colors as [|first rest]; [destruct Hin|].
  destruct (findClosestBeadColor_split target first rest)
    as (pre & p & post & Heq & Hres & Hpre & Hpost).
  exists p. split; [exact Hres|]. split.
  - rewrite Heq. apply in_or_app. right. now left.
  - symmetry. apply deltaE_zero.
    pose proof (deltaE_nonneg (ColorUtils.rgbToLab target) (ColorUtils.labOf p)) as H0.
    pose proof (deltaE_refl (ColorUtils.rgbToLab target)) as Hz.
    rewrite Heq in Hin. apply in_app_or in Hin. destruct Hin as [Hin|[<-|Hin]].
    + specialize (Hpre bead Hin). rewrite Hlab in Hpre. lra.
    + rewrite Hlab. exact Hz.
    + specialize (Hpost bead Hin). rewrite Hlab in Hpost. lra.
Qed.

Lemma findClosestBeadColor_exact_witness :
  exists best,
    ColorUtils.findClosestBeadColor (mkRGB 255 0 0) [blueBead; redBead] = Some best
    /\ In best [blueBead; redBead]
    /\ ColorUtils.labOf best = ColorUtils.rgbToLab (mkRGB 255 0 0).
Proof.
  apply (findClosestBeadColor_exact (mkRGB 255 0 0) [blueBead; redBead] redBead).
  - right. left. reflexivity.
  - reflexivity.
Defined.

(** ** Delta E and the helpers built on it *)

Lemma deltaE_sym (lab1 lab2 : Lab) :
  ColorUtils.deltaE lab1 lab2 = ColorUtils.deltaE lab2 lab1.
Proof. unfold ColorUtils.deltaE. cbv zeta. f_equal. ring. Qed.

(** Delta E is never negative, does not depend on the order of its
    arguments, and is zero between a Lab value and itself. *)
Theorem deltaE_distance (lab1 lab2 : Lab) :
  (0 <= ColorUtils.deltaE lab1 lab2)%R
  /\ ColorUtils.deltaE lab1 lab2 = ColorUtils.deltaE lab2 lab1
  /\ ColorUtils.deltaE lab1 lab1 = 0%R.
Proof.
  split; [apply deltaE_nonneg|]. split; [apply deltaE_sym | apply deltaE_refl].
Qed.

(** [colorSimilarity] stays within 0..100, is 100 between a colour and
    itself, and does not depend on the order of its arguments. *)
Theorem colorSimilarity_range (rgb1 rgb2 : RGB) :
  (0 <= colorSimilarity rgb1 rgb2 <= 100)%R
  /\ colorSimilarity rgb1 rgb1 = 100%R
  /\ colorSimilarity rgb1 rgb2 = colorSimilarity rgb2 rgb1.
Proof.
  unfold colorSimilarity. cbv zeta. split; [|split].
  - pose proof (deltaE_nonneg (ColorUtils.rgbToLab rgb1) (ColorUtils.rgbToLab rgb2)).
    split; [apply Rmax_l|]. apply Rmax_lub; lra.
  - rewrite deltaE_refl. rewrite Rmax_right; lra.
  - now rewrite deltaE_sym.
Qed.

(** ** Hit testing *)

(** [screenToPixel] undoes the drawing transform around the whole middle
    of a cell, not only at its centre: a screen point that shows a point of
    the drawn cell [(x, y)] at least a quarter of a cell away from the
    cell's edges is mapped to [(x, y)] when that cell is in the grid, and to
    nothing when it lies outside the grid. *)
Theorem screenToPixel_hits_cell (canvas : View.Canvas) (o : View.Options)
        (x y : Z) (px py screenX screenY : R) :
  (0.1 <= View.optZoom o <= 10)%R ->
  (0 < View.cellSize o)%R ->
  (0 < View.rectWidth canvas)%R ->
  (0 < View.rectHeight canvas)%R ->
  ((IZR x + / 4) * View.cellSize o <= px <= (IZR x + 3 / 4) * View.cellSize o)%R ->
  ((IZR y + / 4) * View.cellSize o <= py <= (IZR y + 3 / 4) * View.cellSize o)%R ->
  showsAt canvas screenX screenY (View.gridToCanvas canvas o px py) ->
  View.screenToPixel screenX screenY canvas o
  = if (x >=? 0) && (x <? gridWidth (View.optPixelData o))
       && (y >=? 0) && (y <? gridHeight (View.optPixelData o))
    then Some (x, y) else None.
Proof.
  intros Hzoom Hcell _ _ Hpx Hpy [Hsx Hsy].
  assert (View.screenToGrid screenX screenY canvas o
          = (px / View.cellSize o, py / View.cellSize o)%R) as Hgrid.
  { unfold View.screenToGrid. cbv zeta. rewrite Hsx, Hsy.
    unfold View.gridToCanvas. cbn [fst snd]. f_equal; field; split; lra. }
  assert (forall (z : Z) (p : R),
             ((IZR z + / 4) * View.cellSize o <= p
              <= (IZR z + 3 / 4) * View.cellSize o)%R ->
             Int_part (p / View.cellSize o) = z) as Hfloor.
  { intros z p [Hlo Hhi]. symmetry. apply Int_part_spec.
    assert (IZR z + / 4 <= p / View.cellSize o)%R.
    { apply Rmult_le_reg_r with (View.cellSize o); [lra|].
      unfold Rdiv. rewrite Rmult_assoc, Rinv_l by lra. lra. }
    assert (p / View.cellSize o <= IZR z + 3 / 4)%R.
    { apply Rmult_le_reg_r with (View.cellSize o); [lra|].
      unfold Rdiv. rewrite Rmult_assoc, Rinv_l by lra. lra. }
    lra. }
  unfold View.screenToPixel. cbv zeta. rewrite Hgrid.
  rewrite (Hfloor x px Hpx), (Hfloor y py Hpy). reflexivity.
Qed.

Lemma screenToPixel_hits_cell_witness :
  View.screenToPixel 452 280 demoCanvas demoOptions
  = if (1 >=? 0) && (1 <? gridWidth (View.optPixelData demoOptions))
       && (0 >=? 0) && (0 <? gridHeight (View.optPixelData demoOptions))
    then Some (1, 0) else None.
Proof.
  apply (screenToPixel_hits_cell demoCanvas demoOptions 1 0 27 7 452 280).
  - simpl. lra.
  - simpl. lra.
  - simpl. lra.
  - simpl. lra.
  - simpl. lra.
  - simpl. lra.
  - unfold showsAt, View.gridToCanvas, demoCanvas, demoOptions.
    cbn [View.rectLeft View.rectTop View.rectWidth View.rectHeight
         View.canvasWidth View.canvasHeight View.optPixelData View.cellSize
         View.optZoom View.optPanX View.optPanY fst snd].
    change (gridWidth demoGrid) with 2. change (gridHeight demoGrid) with 2.
    split; lra.
Defined.

(** ** Hex codes, blending and brightness *)

Lemma hexDigit_digitChar (d : Z) : 0 <= d < 16 -> hexDigit (digitChar d) = Some d.
Proof.
  intros H.
  assert (d = 0 \/ d = 1 \/ d = 2 \/ d = 3 \/ d = 4 \/ d = 5 \/ d = 6 \/ d = 7
          \/ d = 8 \/ d = 9 \/ d = 10 \/ d = 11 \/ d = 12 \/ d = 13 \/ d = 14
          \/ d = 15) as Hd by lia.
  repeat (destruct Hd as [->|Hd]; [reflexivity|]). subst. reflexivity.
Qed.

Lemma toHex_digits (n : Z) :
  toHex n = String (digitChar (clampChannel n / 16))
                   (String (digitChar (clampChannel n mod 16)) EmptyString).
Proof.
  unfold toHex, toString16. fold (clampChannel n). cbv zeta.
  assert (0 <= clampChannel n <= 255) as Hv by (unfold clampChannel; lia).
  destruct (Z.ltb_spec (clampChannel n) 16) as [Hlt|Hge].
  - cbn [String.length Nat.eqb].
    rewrite Z.div_small, Z.mod_small by lia. reflexivity.
  - reflexivity.
Qed.

(** Writing a colour as a hex code and reading the code back gives the
    colour with each channel clamped to 0..255: colours within that range
    survive the round trip unchanged. *)
Theorem hexToRgb_rgbToHex (rgb : RGB) :
  hexToRgb (rgbToHex rgb)
  = mkRGB (clampChannel (r rgb)) (clampChannel (g rgb)) (clampChannel (b rgb)).
Proof.
  unfold rgbToHex. rewrite !toHex_digits.
  unfold hexToRgb. cbn [append list_ascii_of_string map].
  assert (forall n, 0 <= clampChannel n / 16 < 16) as Hhi.
  { intros n. assert (0 <= clampChannel n <= 255) by (unfold clampChannel; lia).
    split; [apply Z.div_pos; lia|apply Z.div_lt_upper_bound; lia]. }
  assert (forall n, 0 <= clampChannel n mod 16 < 16) as Hlo
      by (intros n; apply Z.mod_pos_bound; lia).
  rewrite !hexDigit_digitChar by auto.
  f_equal; symmetry; apply Z.div_mod; lia.
Qed.

Lemma hexDigit_range (c : ascii) (d : Z) : hexDigit c = Some d -> 0 <= d <= 15.
Proof.
  unfold hexDigit. cbv zeta.
  destruct (Z.leb_spec 48 (Z.of_N (N_of_ascii c)));
    destruct (Z.leb_spec (Z.of_N (N_of_ascii c)) 57);
    destruct (Z.leb_spec 97 (Z.of_N (N_of_ascii c)));
    destruct (Z.leb_spec (Z.of_N (N_of_ascii c)) 102);
    destruct (Z.leb_spec 65 (Z.of_N (N_of_ascii c)));
    destruct (Z.leb_spec (Z.of_N (N_of_ascii c)) 70);
    cbn [andb]; intros Heq; inversion Heq; lia.
Qed.

(** [hexToRgb] never fails and never leaves 0..255: every string, valid
    code or not, is read as a colour with channels in that range, and a
    string that is not six hexadecimal digits after an optional [#] because
    of its length is read as black. *)
Theorem hexToRgb_total (hex : string) :
  (0 <= r (hexToRgb hex) <= 255
   /\ 0 <= g (hexToRgb hex) <= 255
   /\ 0 <= b (hexToRgb hex) <= 255)
  /\ ((String.length hex < 6 \/ 7 < String.length hex)%nat ->
      hexToRgb hex = mkRGB 0 0 0).
Proof.
  assert (forall s,
             let c := match map hexDigit (list_ascii_of_string s) with
                      | [Some r1; Some r2; Some g1; Some g2; Some b1; Some b2] =>
                          mkRGB (16 * r1 + r2) (16 * g1 + g2) (16 * b1 + b2)
                      | _ => mkRGB 0 0 0
                      end in
             (0 <= r c <= 255 /\ 0 <= g c <= 255 /\ 0 <= b c <= 255)
             /\ (String.length s <> 6%nat -> c = mkRGB 0 0 0)) as Hbody.
  { intros s.
    destruct s as [|c1 [|c2 [|c3 [|c4 [|c5 [|c6 [|c7 s]]]]]]];
      cbn [list_ascii_of_string map String.length];
      try (cbv zeta; split; [cbn; lia|reflexivity]);
      try (cbv zeta;
           repeat match goal with
                  | |- context [hexDigit ?c] =>
                      let E := fresh "E" in
                      destruct (hexDigit c) eqn:E;
                      [apply hexDigit_range in E|]
                  end;
           (split; [cbn [r g b]; lia|]);
           intros Hlen; try reflexivity; congruence). }
  unfold hexToRgb. cbv zeta.
  destruct hex as [|c hex'].
  - destruct (Hbody EmptyString) as [Hr Hb]. split; [exact Hr|]. intros _.
    reflexivity.
  - destruct (Ascii.eqb_spec c "#"%char) as [->|Hne].
    + destruct (Hbody hex') as [Hr Hb]. split; [exact Hr|].
      intros Hlen. apply Hb. cbn [String.length] in Hlen. lia.
    + assert (match String c hex' with
              | String "#" rest => rest
              | _ => String c hex'
              end = String c hex') as ->.
      { destruct c as [[] [] [] [] [] [] [] []]; try reflexivity.
        now elim Hne. }
      destruct (Hbody (String c hex')) as [Hr Hb]. split; [exact Hr|].
      intros Hlen. apply Hb. cbn [String.length] in *. lia.
Qed.

Lemma Int_part_ge (z : Z) (x : R) : (IZR z <= x)%R -> z <= Int_part x.
Proof.
  intros H. destruct (base_Int_part x) as [_ Hup].
  assert (IZR z < IZR (Int_part x + 1))%R as Hlt by (rewrite plus_IZR; lra).
  apply lt_IZR in Hlt. lia.
Qed.

Lemma Int_part_le (z : Z) (x : R) : (x < IZR z + 1)%R -> Int_part x <= z.
Proof.
  intros H. destruct (base_Int_part x) as [Hlo _].
  assert (IZR (Int_part x) < IZR (z + 1))%R as Hlt by (rewrite plus_IZR; lra).
  apply lt_IZR in Hlt. lia.
Qed.

Lemma roundR_IZR (z : Z) : roundR (IZR z) = z.
Proof. apply ViewFacts.Int_part_half. Qed.

Lemma roundR_between (lo hi : Z) (x : R) :
  (IZR lo <= x <= IZR hi)%R -> lo <= roundR x <= hi.
Proof.
  intros [Hlo Hhi]. unfold roundR. split.
  - apply Int_part_ge. lra.
  - apply Int_part_le. lra.
Qed.

Lemma blend_between (c1 c2 : Z) (ratio : R) :
  (0 <= ratio <= 1)%R ->
  Z.min c1 c2 <= roundR (IZR c1 * (1 - ratio) + IZR c2 * ratio) <= Z.max c1 c2.
Proof.
  intros Hr. apply roundR_between.
  destruct (Z.le_ge_cases c1 c2) as [Hle|Hle].
  - rewrite Z.min_l, Z.max_r by lia. apply IZR_le in Hle. nra.
  - rewrite Z.min_r, Z.max_l by lia. apply IZR_le in Hle. nra.
Qed.

(** [blendColors] interpolates: ratio 0 gives the first colour, ratio 1 the
    second, and for a ratio in between every channel lies between the two
    colours' channels. *)
Theorem blendColors_interpolates (color1 color2 : RGB) :
  blendColors color1 color2 0 = color1
  /\ blendColors color1 color2 1 = color2
  /\ (forall ratio : R,
         (0 <= ratio <= 1)%R ->
         Z.min (r color1) (r color2) <= r (blendColors color1 color2 ratio)
           <= Z.max (r color1) (r color2)
         /\ Z.min (g color1) (g color2) <= g (blendColors color1 color2 ratio)
              <= Z.max (g color1) (g color2)
         /\ Z.min (b color1) (b color2) <= b (blendColors color1 color2 ratio)
              <= Z.max (b color1) (b color2)).
Proof.
  split; [|split].
  - unfold blendColors. destruct color1 as [r1 g1 b1]. cbn [r g b].
    f_equal; rewrite <- roundR_IZR; f_equal; ring.
  - unfold blendColors. destruct color2 as [r2 g2 b2]. cbn [r g b].
    f_equal; rewrite <- roundR_IZR; f_equal; ring.
  - intros ratio Hr. unfold blendColors. cbn [r g b].
    split; [|split]; now apply blend_between.
Qed.

Lemma clamp_Num (n : Z) :
  Math.min (Num 255) (Math.max (Num 0) (Num (IZR n)))
  = Num (IZR (Z.min 255 (Z.max 0 n))).
Proof.
  cbn [Math.max Math.min]. f_equal.
  assert (Rmax 0 (IZR n) = IZR (Z.max 0 n)) as ->.
  { destruct (Z.le_ge_cases 0 n) as [H|H].
    - rewrite Z.max_r by lia. apply Rmax_right. now apply IZR_le.
    - rewrite Z.max_l by lia. apply Rmax_left. apply IZR_le. lia. }
  destruct (Z.le_ge_cases 255 (Z.max 0 n)) as [H|H].
  - rewrite Z.min_l by lia. apply Rmin_left. now apply IZR_le.
  - rewrite Z.min_r by lia. apply Rmin_right. apply IZR_le. lia.
Qed.

Lemma adjustChannel_finite (c : Z) (factor : R) :
  Math.min (Num 255) (Math.max (Num 0) (Math.round (Math.times c (Num factor))))
  = Num (IZR (Z.min 255 (Z.max 0 (roundR (IZR c * factor))))).
Proof. cbn [Math.times Math.round]. apply clamp_Num. Qed.

(** [adjustBrightness] with a finite factor never leaves 0..255; factor 1
    clamps the colour and changes nothing else, and factor 0 gives black.
    The clamp does not catch NaN: a NaN factor gives three NaN channels,
    and so does an infinite factor on a channel that is zero. *)
Theorem adjustBrightness_clamps (rgb : RGB) :
  (forall factor : R,
      exists c : RGB,
        adjustBrightness rgb (Num factor) = ofRGB c
        /\ 0 <= r c <= 255 /\ 0 <= g c <= 255 /\ 0 <= b c <= 255)
  /\ adjustBrightness rgb (Num 1)
     = ofRGB (mkRGB (clampChannel (r rgb)) (clampChannel (g rgb))
                    (clampChannel (b rgb)))
  /\ adjustBrightness rgb (Num 0) = ofRGB (mkRGB 0 0 0)
  /\ adjustBrightness rgb NaN = mkJsRGB NaN NaN NaN
  /\ (r rgb = 0 -> jsR (adjustBrightness rgb PosInfinity) = NaN).
Proof.
  split; [|split; [|split; [|split]]].
  - intros factor.
    exists (mkRGB (Z.min 255 (Z.max 0 (roundR (IZR (r rgb) * factor))))
                  (Z.min 255 (Z.max 0 (roundR (IZR (g rgb) * factor))))
                  (Z.min 255 (Z.max 0 (roundR (IZR (b rgb) * factor))))).
    split; [|cbn [r g b]; lia].
    unfold adjustBrightness, ofRGB. cbn [r g b].
    now rewrite !adjustChannel_finite.
  - unfold adjustBrightness, ofRGB. cbn [r g b].
    rewrite !adjustChannel_finite, !Rmult_1_r, !roundR_IZR.
    unfold clampChannel. f_equal; f_equal; f_equal; lia.
  - unfold adjustBrightness, ofRGB. cbn [r g b].
    rewrite !adjustChannel_finite, !Rmult_0_r.
    change 0%R with (IZR 0). rewrite roundR_IZR. reflexivity.
  - reflexivity.
  - intros Hr. unfold adjustBrightness. cbn [jsR Math.times]. rewrite Hr.
    reflexivity.
Qed.

(** ** The quantizer: where its representatives lie *)

Lemma In_insertBy key (x y : RGB) (l : list RGB) :
  In x (insertBy key y l) -> x = y \/ In x l.
Proof.
  induction l as [|h t IH]; cbn [insertBy].
  - intros [<-|[]]. now left.
  - destruct (key y <=? key h).
    + intros [<-|Hin]; [now left | now right].
    + intros [<-|Hin]; [right; now left|].
      destruct (IH Hin) as [->|Ht]; [now left | right; now right].
Qed.

Lemma In_sortBy key (x : RGB) (l : list RGB) : In x (sortBy key l) -> In x l.
Proof.
  induction l as [|h t IH]; cbn [sortBy fold_right]; [auto|].
  intros Hin. apply In_insertBy in Hin. destruct Hin as [->|Hin].
  - now left.
  - right. now apply IH.
Qed.

Lemma In_slice0 {A} (x : A) (l : list A) (e : Z) :
  In x (JsArray.slice0 l e) -> In x l.
Proof.
  unfold JsArray.slice0. destruct (e <? 0); intros Hin.
  - rewrite <- (firstn_skipn (Z.to_nat (Z.max (JsArray.len l + e) 0)) l).
    apply in_or_app. now left.
  - rewrite <- (firstn_skipn (Z.to_nat e) l). apply in_or_app. now left.
Qed.

Lemma In_sliceFrom {A} (x : A) (l : list A) (s : Z) :
  In x (JsArray.sliceFrom l s) -> In x l.
Proof.
  unfold JsArray.sliceFrom. intros Hin.
  rewrite <- (firstn_skipn (Z.to_nat s) l). apply in_or_app. now right.
Qed.

Lemma splitColorBox_incl (box : ColorBox) :
  incl (colors (fst (splitColorBox box))) (colors box)
  /\ incl (colors (snd (splitColorBox box))) (colors box).
Proof.
  unfold splitColorBox. cbv zeta. cbn [fst snd]. rewrite !colors_createColorBox.
  split; intros x Hin.
  - apply In_slice0 in Hin. now apply In_sortBy in Hin.
  - apply In_sliceFrom in Hin. now apply In_sortBy in Hin.
Qed.

Lemma splitStep_from samples boxes boxes' :
  splitStep boxes = Some boxes' -> boxesFrom samples boxes -> boxesFrom samples boxes'.
Proof.
  unfold splitStep, boxesFrom. destruct (selectBox boxes) as [maxIndex maxVolume].
  destruct (maxVolume =? 0); [discriminate|].
  destruct (JsArray.get boxes maxIndex) as [box|] eqn:Hget; [|discriminate].
  pose proof (splitColorBox_incl box) as [Hi1 Hi2].
  destruct (splitColorBox box) as [box1 box2]. cbn [fst snd] in Hi1, Hi2.
  intros [= <-] Hfrom. rewrite Forall_forall in Hfrom |- *.
  assert (In box boxes) as Hbox.
  { unfold JsArray.get in Hget. destruct (maxIndex <? 0); [discriminate|].
    now apply nth_error_In in Hget. }
  intros b' Hin. unfold JsArray.splice2 in Hin.
  apply in_app_or in Hin. destruct Hin as [Hin|[<-|[<-|Hin]]].
  - apply Hfrom. rewrite <- (firstn_skipn (Z.to_nat maxIndex) boxes).
    apply in_or_app. now left.
  - intros x Hx. apply (Hfrom box Hbox). now apply Hi1.
  - intros x Hx. apply (Hfrom box Hbox). now apply Hi2.
  - apply Hfrom. rewrite <- (firstn_skipn (S (Z.to_nat maxIndex)) boxes).
    apply in_or_app. now right.
Qed.

Lemma splitLoop_from samples (fuel : nat) (k : Z) (boxes : list ColorBox) :
  boxesFrom samples boxes -> boxesFrom samples (fst (splitLoop fuel k boxes)).
Proof.
  revert boxes. induction fuel as [|fuel IH]; intros boxes Hfrom; cbn [splitLoop].
  - destruct (JsArray.len boxes <? k); exact Hfrom.
  - destruct (JsArray.len boxes <? k); [|exact Hfrom].
    destruct (splitStep boxes) as [boxes'|] eqn:Hstep; [|exact Hfrom].
    apply IH. now apply (splitStep_from samples boxes).
Qed.

Lemma sum_between (f : RGB -> Z) (lo hi : Z) (l : list RGB) (a : Z) :
  Forall (fun c => lo <= f c <= hi) l ->
  a + JsArray.len l * lo <= fold_left (fun s c => s + f c) l a <= a + JsArray.len l * hi.
Proof.
  unfold JsArray.len. intros Hall. revert a.
  induction Hall as [|c t Hc Ht IH]; intros a; cbn [fold_left length].
  - lia.
  - specialize (IH (a + f c)). lia.
Qed.

Lemma roundDiv_between (sum count lo hi : Z) :
  0 < count -> count * lo <= sum <= count * hi -> lo <= roundDiv sum count <= hi.
Proof.
  intros Hc [Hlo Hhi]. unfold roundDiv. split.
  - apply Z.div_le_lower_bound; lia.
  - assert ((2 * sum + count) / (2 * count) < hi + 1); [|lia].
    apply Z.div_lt_upper_bound; lia.
Qed.

Lemma getAverageColor_within (ch : Channel) (lo hi : Z) (box : ColorBox) :
  colors box <> [] ->
  Forall (channelWithin ch lo hi) (colors box) ->
  channelWithin ch lo hi (getAverageColor box).
Proof.
  intros Hne Hall. unfold channelWithin, getAverageColor. cbv zeta.
  assert (0 < JsArray.len (colors box)) as Hpos.
  { unfold JsArray.len. destruct (colors box); [contradiction|cbn [length]; lia]. }
  destruct ch; cbn [channelOf r g b]; apply roundDiv_between; try assumption.
  - pose proof (sum_between r lo hi (colors box) 0 Hall). lia.
  - pose proof (sum_between g lo hi (colors box) 0 Hall). lia.
  - pose proof (sum_between b lo hi (colors box) 0 Hall). lia.
Qed.

Lemma boxesFrom_single (samples : list RGB) :
  boxesFrom samples [createColorBox samples].
Proof.
  constructor; [|constructor]. rewrite colors_createColorBox. apply incl_refl.
Qed.

Lemma boxesInhabited_single (c : RGB) (t : list RGB) :
  boxesInhabited [createColorBox (c :: t)].
Proof.
  constructor; [|constructor]. rewrite colors_createColorBox. cbn [length]. lia.
Qed.

(** The representatives the quantizer returns stay within the range of the
    samples, channel by channel: if a channel of every sampled pixel lies
    within [lo .. hi], so does that channel of every representative. *)
Theorem medianCutQuantize_within_samples (imageData : ImageData) (colorCount : Z)
        (ch : Channel) (lo hi : Z) :
  opaqueColors imageData <> [] ->
  Forall (channelWithin ch lo hi) (opaqueColors imageData) ->
  Forall (channelWithin ch lo hi) (medianCutQuantize imageData colorCount).
Proof.
  intros Hne Hall. unfold medianCutQuantize.
  destruct (opaqueColors imageData) as [|c t] eqn:Es; [contradiction|].
  cbv zeta.
  pose proof (splitLoop_from (c :: t) (Z.to_nat colorCount) colorCount _
                             (boxesFrom_single (c :: t))) as Hfrom.
  pose proof (splitLoop_spec (Z.to_nat colorCount) colorCount _
                             (boxesInhabited_single c t)) as Hspec.
  destruct (splitLoop (Z.to_nat colorCount) colorCount [createColorBox (c :: t)])
    as [boxes exited].
  destruct Hspec as (_ & _ & Hinh & _). cbn [fst] in *.
  unfold boxesFrom, boxesInhabited in *.
  rewrite Forall_forall in Hfrom, Hinh, Hall. apply Forall_forall.
  intros avg Havg. apply in_map_iff in Havg. destruct Havg as (box & <- & Hbox).
  apply getAverageColor_within.
  - specialize (Hinh box Hbox). destruct (colors box); [cbn in Hinh; lia|discriminate].
  - apply Forall_forall. intros x Hx. apply Hall. now apply (Hfrom box Hbox).
Qed.

Lemma medianCutQuantize_within_samples_witness :
  Forall (channelWithin chR 0 255) (medianCutQuantize blackBlackBlackWhite 3).
Proof.
  apply (medianCutQuantize_within_samples blackBlackBlackWhite 3 chR 0 255).
  - discriminate.
  - repeat constructor; cbn; lia.
Defined.

Lemma createColorBox_fold_tight (c : RGB) (all t : list RGB) (box : ColorBox) :
  tightAround c box ->
  Forall (eq c) t ->
  tightAround c
    (fold_left
       (fun box color =>
          mkBox all
                (Z.min (rMin box) (r color)) (Z.max (rMax box) (r color))
                (Z.min (gMin box) (g color)) (Z.max (gMax box) (g color))
                (Z.min (bMin box) (b color)) (Z.max (bMax box) (b color)))
       t box).
Proof.
  intros Htight Hall. revert box Htight.
  induction Hall as [|x t <- Ht IH]; intros box Htight; cbn [fold_left].
  - exact Htight.
  - apply IH. unfold tightAround in *. cbn [rMin rMax gMin gMax bMin bMax]. lia.
Qed.

Lemma createColorBox_uniform (c : RGB) (t : list RGB) :
  0 <= r c <= 255 -> 0 <= g c <= 255 -> 0 <= b c <= 255 ->
  Forall (eq c) t ->
  tightAround c (createColorBox (c :: t)).
Proof.
  intros Hr Hg Hb Hall. unfold createColorBox. cbn [fold_left].
  apply createColorBox_fold_tight; [|exact Hall].
  unfold tightAround. cbn [rMin rMax gMin gMax bMin bMax]. lia.
Qed.

Lemma medianCutQuantize_uniform_list (imageData : ImageData) (colorCount : Z)
      (c : RGB) (t : list RGB) :
  opaqueColors imageData = c :: t ->
  Forall (eq c) t ->
  0 <= r c <= 255 -> 0 <= g c <= 255 -> 0 <= b c <= 255 ->
  medianCutQuantize imageData colorCount = [c].
Proof.
  intros Es Hall Hr Hg Hb. unfold medianCutQuantize. rewrite Es. cbv zeta.
  pose proof (createColorBox_uniform c t Hr Hg Hb Hall) as Htight.
  assert (fst (splitLoop (Z.to_nat colorCount) colorCount [createColorBox (c :: t)])
          = [createColorBox (c :: t)]) as ->.
  { destruct (Z.to_nat colorCount) as [|fuel]; cbn [splitLoop].
    - now destruct (JsArray.len [createColorBox (c :: t)] <? colorCount).
    - destruct (JsArray.len [createColorBox (c :: t)] <? colorCount); [|reflexivity].
      assert (splitStep [createColorBox (c :: t)] = None) as ->; [|reflexivity].
      unfold splitStep, selectBox. cbn [fold_left]. unfold selectStep.
      assert (boxVolume (createColorBox (c :: t)) = 0) as ->.
      { unfold boxVolume. destruct Htight as (-> & -> & _). lia. }
      destruct (JsArray.len (colors (createColorBox (c :: t))) <? 2); reflexivity. }
  cbn [map]. f_equal.
  assert (Forall (eq c) (c :: t)) as Hall' by (constructor; [reflexivity|exact Hall]).
  assert (forall ch, channelWithin ch (channelOf ch c) (channelOf ch c)
                                   (getAverageColor (createColorBox (c :: t)))) as Hch.
  { intros ch. apply getAverageColor_within.
    - rewrite colors_createColorBox. discriminate.
    - rewrite colors_createColorBox. apply Forall_forall. intros x Hx.
      rewrite Forall_forall in Hall'. rewrite <- (Hall' x Hx).
      unfold channelWithin. lia. }
  pose proof (Hch chR) as HR. pose proof (Hch chG) as HG. pose proof (Hch chB) as HB.
  unfold channelWithin in HR, HG, HB. cbn [channelOf] in HR, HG, HB.
  destruct (getAverageColor (createColorBox (c :: t))) as [ar ag ab].
  destruct c as [cr cg cb]. cbn [r g b] in *. f_equal; lia.
Qed.

(** An image whose opaque pixels all have one colour is quantized to exactly
    that colour, whatever the colour count asked for. *)
Theorem medianCutQuantize_uniform (imageData : ImageData) (colorCount : Z) (c : RGB) :
  opaqueColors imageData <> [] ->
  Forall (eq c) (opaqueColors imageData) ->
  0 <= r c <= 255 -> 0 <= g c <= 255 -> 0 <= b c <= 255 ->
  medianCutQuantize imageData colorCount = [c].
Proof.
  intros Hne Hall Hr Hg Hb.
  destruct (opaqueColors imageData) as [|c0 t] eqn:Es; [contradiction|].
  inversion Hall as [|? ? Hc Ht]; subst.
  now apply (medianCutQuantize_uniform_list imageData colorCount c0 t).
Qed.

Lemma medianCutQuantize_uniform_witness :
  medianCutQuantize [opaquePixel 10 20 30; mkRGBA 0 0 0 0; opaquePixel 10 20 30] 8
  = [mkRGB 10 20 30].
Proof.
  apply (medianCutQuantize_uniform _ 8 (mkRGB 10 20 30)).
  - discriminate.
  - repeat constructor.
  - cbn. lia.
  - cbn. lia.
  - cbn. lia.
Defined.

(** ** The pixelizer: what its cells can be *)

Lemma closestBeadOf_defined (q : RGB) (colors : list BeadColor) :
  closestBeadOf (Some q) colors = Returned (ColorUtils.findClosestBeadColor q colors).
Proof. destruct colors; reflexivity. Qed.





Lemma index_in_image (width height x y : Z) :
  0 <= x < width -> 0 <= y < height -> 0 <= y * width + x < width * height.
Proof. intros Hx Hy. nia. Qed.

Lemma get_Forall {A} (P : A -> Prop) (l : list A) (i : Z) :
  Forall P l -> 0 <= i < JsArray.len l ->
  exists a, JsArray.get l i = Some a /\ P a.
Proof.
  intros Hall Hi. rewrite get_nth by lia.
  destruct (nth_error l (Z.to_nat i)) as [a|] eqn:Hnth.
  - exists a. split; [reflexivity|]. rewrite Forall_forall in Hall.
    apply Hall. now apply nth_error_In in Hnth.
  - apply nth_error_None in Hnth. unfold JsArray.len in Hi. lia.
Qed.

Lemma mapM_rows {A} (cell : Z -> Z -> Outcome A) (v : A) (width height : Z) :
  (forall x y, 0 <= x < width -> 0 <= y < height -> cell y x = Returned v) ->
  mapM (fun y => mapM (cell y) (JsArray.range width)) (JsArray.range height)
  = Returned (repeat (repeat v (Z.to_nat width)) (Z.to_nat height)).
Proof.
  intros Hcell.
  rewrite (mapM_ext _ (fun _ => Returned (repeat v (Z.to_nat width)))).
  - now rewrite mapM_const, length_range.
  - intros y Hy. apply in_range in Hy.
    rewrite (mapM_ext _ (fun _ => Returned v)).
    + now rewrite mapM_const, length_range.
    + intros x Hx. apply in_range in Hx. now apply Hcell.
Qed.

(** An image that covers the grid and is transparent throughout pixelizes
    to the empty grid, whatever the palette and the colour count. *)
Theorem pixelateImage_transparent (imageData : ImageData)
        (width height colorCount : Z) (beadColors : list BeadColor) :
  width * height <= JsArray.len imageData ->
  Forall (fun px => px_a px < 128) imageData ->
  pixelateImage imageData width height colorCount beadColors
  = Returned (createEmptyPixelData width height).
Proof.
  intros Hcover Hall. unfold pixelateImage, createEmptyPixelData. cbv zeta.
  apply mapM_rows. intros x y Hx Hy.
  pose proof (index_in_image width height x y Hx Hy) as Hi.
  destruct (get_Forall _ imageData (y * width + x) Hall) as (px & Hget & Hpx); [lia|].
  unfold pixelateCell. rewrite Hget.
  destruct (Z.ltb_spec (px_a px) 128); [reflexivity | lia].
Qed.

Lemma pixelateImage_transparent_witness :
  pixelateImage [mkRGBA 9 9 9 0; mkRGBA 200 0 0 127] 2 1 4 [redBead]
  = Returned (createEmptyPixelData 2 1).
Proof.
  apply (pixelateImage_transparent _ 2 1 4 [redBead]).
  - vm_compute. discriminate.
  - repeat constructor.
Defined.

Lemma opaqueColors_allOpaque (c : RGB) (imageData : ImageData) :
  allOpaque c imageData ->
  opaqueColors imageData = repeat c (length imageData).
Proof.
  unfold allOpaque, opaqueColors.
  induction 1 as [|px t [Ha Hc] Ht IH]; [reflexivity|].
  cbn [flat_map length repeat]. rewrite IH.
  destruct (Z.ltb_spec (px_a px) 128); [lia|]. now rewrite Hc.
Qed.

(** An image that covers the grid and is opaque with one colour throughout
    pixelizes to a uniform grid: every cell receives the bead nearest to
    that colour. *)
Theorem pixelateImage_uniform (imageData : ImageData) (width height colorCount : Z)
        (beadColors : list BeadColor) (c : RGB) :
  imageData <> [] ->
  width * height <= JsArray.len imageData ->
  allOpaque c imageData ->
  0 <= r c <= 255 -> 0 <= g c <= 255 -> 0 <= b c <= 255 ->
  pixelateImage imageData width height colorCount beadColors
  = Returned
      (repeat
         (repeat (idOrNull (ColorUtils.findClosestBeadColor
                              c (ColorUtils.precomputeLabValues beadColors)))
                 (Z.to_nat width))
         (Z.to_nat height)).
Proof.
  intros Hne Hcover Hall Hr Hg Hb. unfold pixelateImage. cbv zeta.
  pose proof (opaqueColors_allOpaque c imageData Hall) as Hop.
  assert (medianCutQuantize imageData colorCount = [c]) as ->.
  { destruct imageData as [|px t]; [contradiction|].
    cbn [length repeat] in Hop.
    apply (medianCutQuantize_uniform_list _ colorCount c (repeat c (length t)));
      try assumption.
    apply Forall_forall. intros x Hx. now apply repeat_spec in Hx. }
  apply mapM_rows. intros x y Hx Hy.
  pose proof (index_in_image width height x y Hx Hy) as Hi.
  destruct (get_Forall _ imageData (y * width + x) Hall) as (px & Hget & Ha & Hc);
    [lia|].
  unfold pixelateCell. rewrite Hget.
  destruct (Z.ltb_spec (px_a px) 128); [lia|].
  cbv zeta. rewrite Hc, mapToNearestColor_single, closestBeadOf_defined.
  reflexivity.
Qed.

Lemma pixelateImage_uniform_witness :
  pixelateImage [opaquePixel 0 0 255; opaquePixel 0 0 255] 1 2 3 [redBead; blueBead]
  = Returned
      (repeat
         (repeat (idOrNull (ColorUtils.findClosestBeadColor
                              (mkRGB 0 0 255)
                              (ColorUtils.precomputeLabValues [redBead; blueBead])))
                 (Z.to_nat 1))
         (Z.to_nat 2)).
Proof.
  apply (pixelateImage_uniform _ 1 2 3 [redBead; blueBead] (mkRGB 0 0 255)).
  - discriminate.
  - vm_compute. discriminate.
  - repeat constructor; vm_compute; discriminate.
  - cbn. lia.
  - cbn. lia.
  - cbn. lia.
Defined.

(** ** Resizing *)

Lemma list_tabulate_from {A} (f : Z -> A) (l : list A) (s : nat) :
  (forall k a, nth_error l k = Some a -> f (Z.of_nat (s + k)) = a) ->
  l = map f (map Z.of_nat (seq s (length l))).
Proof.
  revert s. induction l as [|a t IH]; intros s Hf; [reflexivity|].
  cbn [length seq map]. f_equal.
  - symmetry. rewrite <- (Hf 0%nat a eq_refl). f_equal. lia.
  - apply IH. intros k a' Hk. rewrite <- (Hf (S k) a' Hk). f_equal. lia.
Qed.

Lemma list_tabulate {A} (f : Z -> A) (l : list A) :
  (forall i a, JsArray.get l i = Some a -> f i = a) ->
  l = map f (JsArray.range (JsArray.len l)).
Proof.
  intros Hf. unfold JsArray.range, JsArray.len. rewrite Nat2Z.id.
  apply list_tabulate_from. intros k a Hk. apply Hf.
  rewrite get_nth by lia. now rewrite Nat2Z.id.
Qed.

Lemma get_range (n i : Z) : 0 <= i < n -> JsArray.get (JsArray.range n) i = Some i.
Proof.
  intros Hi. rewrite get_nth by lia. unfold JsArray.range.
  rewrite nth_error_map, nth_error_seq.
  destruct (Nat.ltb_spec (Z.to_nat i) (Z.to_nat n)); [|lia].
  cbn [option_map]. f_equal. lia.
Qed.

Lemma get_map {A B} (f : A -> B) (l : list A) (i : Z) :
  JsArray.get (map f l) i = option_map f (JsArray.get l i).
Proof.
  unfold JsArray.get. destruct (i <? 0); [reflexivity | apply nth_error_map].
Qed.

Lemma cellAt_tabulate (f : Z -> Z -> Cell) (w h x y : Z) :
  0 <= x < w -> 0 <= y < h ->
  cellAt (map (fun y => map (fun x => f x y) (JsArray.range w)) (JsArray.range h)) x y
  = f x y.
Proof.
  intros Hx Hy. unfold cellAt, rowGet.
  rewrite get_map, get_range by assumption. cbn [option_map].
  rewrite get_map, get_range by assumption. reflexivity.
Qed.

Lemma grid_tabulate (data : PixelData) :
  rectangular data ->
  data = map (fun y => map (fun x => cellAt data x y)
                           (JsArray.range (gridWidth data)))
             (JsArray.range (gridHeight data)).
Proof.
  intros Hrect. unfold gridHeight. apply list_tabulate.
  intros y row Hget.
  assert (JsArray.len row = gridWidth data) as <-.
  { unfold rectangular in Hrect. rewrite Forall_forall in Hrect. apply Hrect.
    unfold JsArray.get in Hget. destruct (y <? 0); [discriminate|].
    now apply nth_error_In in Hget. }
  symmetry. rewrite (list_tabulate (rowGet row) row) at 1.
  - apply map_ext. intros x. unfold cellAt. now rewrite Hget.
  - intros i a Hi. unfold rowGet. now rewrite Hi.
Qed.

Lemma map_range_const {A} (v : A) (n : Z) :
  map (fun _ => v) (JsArray.range n) = repeat v (Z.to_nat n).
Proof.
  unfold JsArray.range. rewrite map_map.
  generalize 0%nat. induction (Z.to_nat n) as [|k IH]; intros s; [reflexivity|].
  cbn [seq map repeat]. now rewrite IH.
Qed.

Lemma resizePixelData_shape_aux (pixelData : PixelData) (newWidth newHeight : Z) :
  gridHeight (resizePixelData pixelData newWidth newHeight) = Z.max 0 newHeight
  /\ (0 < newHeight ->
      gridWidth (resizePixelData pixelData newWidth newHeight) = Z.max 0 newWidth).
Proof.
  unfold resizePixelData, gridHeight, gridWidth, JsArray.len. cbv zeta. split.
  - rewrite length_map, length_range. lia.
  - intros Hpos. unfold JsArray.range at 2.
    replace (Z.to_nat newHeight) with (S (Z.to_nat (newHeight - 1))) by lia.
    cbn [seq map]. rewrite length_map, length_range. lia.
Qed.

(** [resizePixelData] always returns a rectangular grid of the size asked
    for (no rows, or rows of no cells, when a size is negative), and for
    sizes that are not negative resizing the empty grid gives the empty
    grid of that size. *)
Theorem resizePixelData_shape (pixelData : PixelData) (newWidth newHeight : Z) :
  gridHeight (resizePixelData pixelData newWidth newHeight) = Z.max 0 newHeight
  /\ Forall (fun row => JsArray.len row = Z.max 0 newWidth)
            (resizePixelData pixelData newWidth newHeight)
  /\ (0 <= newWidth -> 0 <= newHeight ->
      resizePixelData [] newWidth newHeight
      = createEmptyPixelData newWidth newHeight).
Proof.
  split; [|split; [|intros _ _]].
  - unfold resizePixelData, gridHeight, JsArray.len. cbv zeta.
    rewrite length_map, length_range. lia.
  - unfold resizePixelData. cbv zeta. apply Forall_forall. intros row Hrow.
    apply in_map_iff in Hrow. destruct Hrow as (y & <- & _).
    unfold JsArray.len. rewrite length_map, length_range. lia.
  - unfold resizePixelData, createEmptyPixelData. cbv zeta.
    change (gridHeight []) with 0.
    rewrite <- map_range_const. apply map_ext. intros y.
    rewrite <- map_range_const. apply map_ext. intros x.
    rewrite Z.mul_0_r. destruct (0 / newHeight <? 0) eqn:E; [|reflexivity].
    apply Z.ltb_lt in E. pose proof (Zdiv.Zdiv_0_l newHeight). lia.
Qed.

Lemma resize_same (data : PixelData) (x y : Z) (k : Z) :
  1 <= k ->
  0 <= x < gridWidth data -> 0 <= y < gridHeight data ->
  cellAt (resizePixelData data (k * gridWidth data) (k * gridHeight data))
         (x * k) (y * k)
  = cellAt data x y.
Proof.
  intros Hk Hx Hy. unfold resizePixelData. cbv zeta.
  rewrite cellAt_tabulate by nia.
  replace (x * k * gridWidth data / (k * gridWidth data)) with x.
  2:{ replace (x * k * gridWidth data) with (x * (k * gridWidth data)) by ring.
      symmetry. apply Z.div_mul. nia. }
  replace (y * k * gridHeight data / (k * gridHeight data)) with y.
  2:{ replace (y * k * gridHeight data) with (y * (k * gridHeight data)) by ring.
      symmetry. apply Z.div_mul. nia. }
  destruct (Z.ltb_spec y (gridHeight data)); [|lia].
  destruct (Z.ltb_spec x (gridWidth data)); [|lia].
  reflexivity.
Qed.

(** Nearest-neighbour resizing loses nothing when it enlarges by a whole
    factor: resizing a rectangular grid to its own size leaves it as it is,
    and enlarging it [k] times and resizing the result back to the original
    size gives the original grid. *)
Theorem resizePixelData_round_trip (data : PixelData) (k : Z) :
  rectangular data ->
  1 <= k ->
  resizePixelData data (gridWidth data) (gridHeight data) = data
  /\ resizePixelData
       (resizePixelData data (k * gridWidth data) (k * gridHeight data))
       (gridWidth data) (gridHeight data)
     = data.
Proof.
  intros Hrect Hk.
  assert (forall big : PixelData,
             gridHeight big = k * gridHeight data ->
             (0 < gridHeight data -> gridWidth big = k * gridWidth data) ->
             (forall x y, 0 <= x < gridWidth data -> 0 <= y < gridHeight data ->
                          cellAt big (x * k) (y * k) = cellAt data x y) ->
             resizePixelData big (gridWidth data) (gridHeight data) = data) as Hback.
  { intros big Hh Hw Hcell. rewrite (grid_tabulate data Hrect) at 3.
    unfold resizePixelData. cbv zeta.
    apply map_ext_in. intros y Hy. apply in_range in Hy.
    apply map_ext_in. intros x Hx. apply in_range in Hx.
    rewrite Hh, Hw by lia.
    replace (x * (k * gridWidth data) / gridWidth data) with (x * k).
    2:{ replace (x * (k * gridWidth data)) with (x * k * gridWidth data) by ring.
        symmetry. apply Z.div_mul. lia. }
    replace (y * (k * gridHeight data) / gridHeight data) with (y * k).
    2:{ replace (y * (k * gridHeight data)) with (y * k * gridHeight data) by ring.
        symmetry. apply Z.div_mul. lia. }
    destruct (Z.ltb_spec (y * k) (k * gridHeight data)); [|nia].
    destruct (Z.ltb_spec (x * k) (k * gridWidth data)); [|nia].
    now apply Hcell. }
  split.
  - rewrite (grid_tabulate data Hrect) at 4.
    unfold resizePixelData. cbv zeta.
    apply map_ext_in. intros y Hy. apply in_range in Hy.
    apply map_ext_in. intros x Hx. apply in_range in Hx.
    rewrite !Z.div_mul by lia.
    destruct (Z.ltb_spec y (gridHeight data)); [|lia].
    destruct (Z.ltb_spec x (gridWidth data)); [|lia].
    reflexivity.
  - apply Hback.
    + destruct (resizePixelData_shape_aux data (k * gridWidth data) (k * gridHeight data))
        as [Hh _].
      rewrite Hh. unfold gridHeight, JsArray.len. nia.
    + intros Hpos.
      destruct (resizePixelData_shape_aux data (k * gridWidth data) (k * gridHeight data))
        as [_ Hw].
      rewrite Hw by nia.
      assert (0 <= gridWidth data)
        by (unfold gridWidth, JsArray.len; destruct data; lia).
      nia.
    + intros x y Hx Hy. now apply resize_same.
Qed.

Lemma resizePixelData_round_trip_witness :
  resizePixelData (resizePixelData demoGrid (3 * gridWidth demoGrid)
                                   (3 * gridHeight demoGrid))
                  (gridWidth demoGrid) (gridHeight demoGrid)
  = demoGrid.
Proof.
  apply (resizePixelData_round_trip demoGrid 3).
  - repeat constructor.
  - lia.
Defined.

(** ** The colour map *)

Lemma mapGet_mapSet {V} (m : JsMap V) (key key' : string) (value : V) :
  mapGet (mapSet m key value) key'
  = if String.eqb key key' then Some value else mapGet m key'.
Proof.
  induction m as [|[k v] rest IH]; cbn [mapSet mapGet].
  - destruct (String.eqb key key'); reflexivity.
  - destruct (String.eqb_spec k key) as [->|Hk]; cbn [mapGet].
    + destruct (String.eqb key key'); reflexivity.
    + rewrite IH. destruct (String.eqb_spec k key') as [->|Hk'].
      * destruct (String.eqb_spec key key') as [->|]; [contradiction | reflexivity].
      * reflexivity.
Qed.

Lemma keys_mapSet {V} (m : JsMap V) (key : string) (value : V) :
  map fst (mapSet m key value)
  = if existsb (String.eqb key) (map fst m) then map fst m else map fst m ++ [key].
Proof.
  induction m as [|[k v] rest IH]; cbn [mapSet map fst existsb app]; [reflexivity|].
  rewrite (String.eqb_sym key k).
  destruct (String.eqb k key); cbn [map fst orb]; [reflexivity|].
  rewrite IH. destruct (existsb (String.eqb key) (map fst rest)); reflexivity.
Qed.

Lemma NoDup_keys_mapSet {V} (m : JsMap V) (key : string) (value : V) :
  NoDup (map fst m) -> NoDup (map fst (mapSet m key value)).
Proof.
  intros Hnd. rewrite keys_mapSet.
  destruct (existsb (String.eqb key) (map fst m)) eqn:E; [assumption|].
  apply NoDup_app; [assumption | repeat constructor; intros [] |].
  intros k Hin [Heq|[]]. subst k.
  assert (existsb (String.eqb key) (map fst m) = true); [|congruence].
  apply existsb_exists. exists key. split; [assumption | apply String.eqb_refl].
Qed.

(** The colour map holds one entry per id, and looking an id up gives the
    last bead of the list with that id: of two beads with the same id the
    later one wins. *)
Theorem createColorMap_last_wins (colors : list BeadColor) (key : string) :
  mapGet (createColorMap colors) key
  = find (fun c => String.eqb (id c) key) (rev colors)
  /\ NoDup (map fst (createColorMap colors)).
Proof.
  unfold createColorMap. induction colors as [|c t [IHget IHnd]] using rev_ind.
  - split; [reflexivity | constructor].
  - rewrite fold_left_app, rev_app_distr. cbn [fold_left rev app find]. split.
    + rewrite mapGet_mapSet, IHget. reflexivity.
    + now apply NoDup_keys_mapSet.
Qed.

(** ** Colour statistics *)

Lemma countColors_concat (pixelData : PixelData) (m : JsMap Z) :
  fold_left (fun countMap row => fold_left countCell row countMap) pixelData m
  = fold_left countCell (concat pixelData) m.
Proof.
  revert m. induction pixelData as [|row t IH]; intros m; [reflexivity|].
  cbn [fold_left concat]. now rewrite fold_left_app, IH.
Qed.

Lemma countCell_counted (m : JsMap Z) (colorId : string) :
  colorId <> ""%string ->
  countCell m (Color colorId) = mapSet m colorId (countOf m colorId + 1).
Proof.
  intros Hne. unfold countCell, countOf.
  destruct (String.eqb_spec colorId "") as [|_]; [contradiction|]. cbv zeta.
  destruct (mapGet m colorId) as [n|]; [|reflexivity].
  destruct (Z.eqb_spec n 0) as [->|]; reflexivity.
Qed.

Lemma countCell_skipped (m : JsMap Z) (cell : Cell) :
  (forall colorId, cell = Color colorId -> colorId = ""%string) ->
  countCell m cell = m.
Proof.
  intros Hskip. destruct cell as [| |colorId]; try reflexivity.
  unfold countCell. now rewrite (Hskip colorId eq_refl).
Qed.

Lemma countCell_cases (m : JsMap Z) (cell : Cell) :
  (countCell m cell = m
   /\ forall colorId, cell = Color colorId -> colorId = ""%string)
  \/ exists colorId,
       cell = Color colorId /\ colorId <> ""%string
       /\ countCell m cell = mapSet m colorId (countOf m colorId + 1).
Proof.
  destruct cell as [| |colorId].
  - left. split; [reflexivity | discriminate].
  - left. split; [reflexivity | discriminate].
  - destruct (String.eqb_spec colorId "") as [->|Hne].
    + left. split; [reflexivity|]. now intros ? [= <-].
    + right. exists colorId. split; [reflexivity|]. split; [assumption|].
      now apply countCell_counted.
Qed.

Lemma countOf_countCell (m : JsMap Z) (cell : Cell) (key : string) :
  key <> ""%string ->
  countOf (countCell m cell) key
  = countOf m key + (if holdsId key cell then 1 else 0).
Proof.
  intros Hkey.
  destruct (countCell_cases m cell) as [[-> Hskip]|(colorId & -> & Hne & ->)].
  - destruct cell as [| |colorId]; cbn [holdsId]; try lia.
    rewrite (Hskip colorId eq_refl).
    destruct (String.eqb_spec "" key) as [<-|]; [contradiction | lia].
  - unfold countOf at 1. rewrite mapGet_mapSet. cbn [holdsId].
    destruct (String.eqb_spec colorId key) as [->|]; [reflexivity|].
    fold (countOf m key). lia.
Qed.

Lemma countOf_fold (cells : list Cell) (m : JsMap Z) (key : string) :
  key <> ""%string ->
  countOf (fold_left countCell cells m) key
  = countOf m key + Z.of_nat (length (filter (holdsId key) cells)).
Proof.
  intros Hkey. revert m. induction cells as [|cell t IH]; intros m.
  - cbn [fold_left filter length]. lia.
  - cbn [fold_left filter]. rewrite IH, countOf_countCell by assumption.
    destruct (holdsId key cell); cbn [length]; lia.
Qed.

Lemma Forall_mapSet {V} (P : string * V -> Prop) (m : JsMap V) (key : string)
      (value : V) :
  Forall P m -> P (key, value) -> Forall P (mapSet m key value).
Proof.
  intros Hall Hnew. induction Hall as [|[k v] rest Hkv Hrest IH]; cbn [mapSet].
  - now constructor.
  - destruct (String.eqb_spec k key) as [->|]; constructor; assumption.
Qed.

Lemma countOf_nonneg (m : JsMap Z) (key : string) :
  Forall (fun entry => fst entry <> ""%string /\ 1 <= snd entry) m ->
  0 <= countOf m key.
Proof.
  intros Hall. unfold countOf.
  induction Hall as [|[k v] rest [_ Hv] Hrest IH]; cbn [mapGet]; [lia|].
  cbn [snd] in Hv. destruct (String.eqb k key); [lia | exact IH].
Qed.

Lemma countMap_inv (cells : list Cell) (m : JsMap Z) :
  NoDup (map fst m) ->
  Forall (fun entry => fst entry <> ""%string /\ 1 <= snd entry) m ->
  NoDup (map fst (fold_left countCell cells m))
  /\ Forall (fun entry => fst entry <> ""%string /\ 1 <= snd entry)
            (fold_left countCell cells m).
Proof.
  revert m. induction cells as [|cell t IH]; intros m Hnd Hall; [now split|].
  cbn [fold_left].
  destruct (countCell_cases m cell) as [[-> _]|(colorId & _ & Hne & ->)].
  - now apply IH.
  - apply IH.
    + now apply NoDup_keys_mapSet.
    + apply Forall_mapSet; [assumption|]. cbn [fst snd]. split; [assumption|].
      pose proof (countOf_nonneg m colorId Hall). lia.
Qed.

Lemma mapGet_In {V} (m : JsMap V) (key : string) (value : V) :
  NoDup (map fst m) -> In (key, value) m -> mapGet m key = Some value.
Proof.
  induction m as [|[k v] rest IH]; cbn [map fst mapGet]; intros Hnd Hin;
    [destruct Hin|].
  inversion Hnd as [|? ? Hk Hrest]; subst.
  destruct Hin as [[= -> ->]|Hin].
  - now rewrite String.eqb_refl.
  - destruct (String.eqb_spec k key) as [->|].
    + exfalso. apply Hk. apply in_map_iff. now exists (key, value).
    + now apply IH.
Qed.

Lemma totalCount_from (stats : list ColorStatItem) (a : Z) :
  fold_left (fun sum item => sum + statCount item) stats a = a + totalCount stats.
Proof.
  unfold totalCount. revert a. induction stats as [|item t IH]; intros a.
  - cbn. lia.
  - cbn [fold_left]. rewrite IH, (IH (0 + statCount item)). lia.
Qed.

Lemma totalCount_cons (item : ColorStatItem) (stats : list ColorStatItem) :
  totalCount (item :: stats) = statCount item + totalCount stats.
Proof. unfold totalCount at 1. cbn [fold_left]. now rewrite totalCount_from. Qed.

Lemma totalCount_app (l1 l2 : list ColorStatItem) :
  totalCount (l1 ++ l2) = totalCount l1 + totalCount l2.
Proof.
  induction l1 as [|item t IH]; [reflexivity|].
  cbn [app]. rewrite !totalCount_cons, IH. lia.
Qed.

Lemma find_existsb {A} (f : A -> bool) (l : list A) :
  existsb f l = match find f l with Some _ => true | None => false end.
Proof.
  induction l as [|a t IH]; cbn [existsb find]; [reflexivity|].
  destruct (f a); [reflexivity | exact IH].
Qed.

Lemma statsOf_cons (colors : list BeadColor) (key : string) (n : Z) (m : JsMap Z) :
  totalCount (statsOf colors ((key, n) :: m))
  = (if existsb (fun c => String.eqb (id c) key) colors then n else 0)
    + totalCount (statsOf colors m).
Proof.
  unfold statsOf. cbn [flat_map]. fold (statsOf colors m).
  rewrite totalCount_app, find_existsb.
  destruct (find (fun c => String.eqb (id c) key) colors); reflexivity.
Qed.

Lemma statsOf_mapSet (colors : list BeadColor) (m : JsMap Z) (key : string) :
  totalCount (statsOf colors (mapSet m key (countOf m key + 1)))
  = totalCount (statsOf colors m)
    + (if existsb (fun c => String.eqb (id c) key) colors then 1 else 0).
Proof.
  induction m as [|[k v] rest IH].
  - cbn [mapSet]. rewrite statsOf_cons. unfold countOf. cbn [mapGet].
    destruct (existsb _ colors); reflexivity.
  - unfold countOf. cbn [mapSet mapGet].
    destruct (String.eqb_spec k key) as [->|Hk].
    + rewrite !statsOf_cons. destruct (existsb _ colors); lia.
    + fold (countOf rest key). rewrite !statsOf_cons, IH. lia.
Qed.

Lemma statsOf_countCell (colors : list BeadColor) (m : JsMap Z) (cell : Cell) :
  totalCount (statsOf colors (countCell m cell))
  = totalCount (statsOf colors m) + (if countedCell colors cell then 1 else 0).
Proof.
  destruct (countCell_cases m cell) as [[-> Hskip]|(colorId & -> & Hne & ->)].
  - destruct cell as [| |colorId]; cbn [countedCell]; try lia.
    rewrite (Hskip colorId eq_refl). cbn [String.eqb negb andb]. lia.
  - rewrite statsOf_mapSet. cbn [countedCell].
    destruct (String.eqb_spec colorId "") as [|_]; [contradiction|].
    cbn [negb andb]. reflexivity.
Qed.

Lemma statsOf_fold (colors : list BeadColor) (cells : list Cell) (m : JsMap Z) :
  totalCount (statsOf colors (fold_left countCell cells m))
  = totalCount (statsOf colors m)
    + Z.of_nat (length (filter (countedCell colors) cells)).
Proof.
  revert m. induction cells as [|cell t IH]; intros m.
  - cbn [fold_left filter length]. lia.
  - cbn [fold_left filter]. rewrite IH, statsOf_countCell.
    destruct (countedCell colors cell); cbn [length]; lia.
Qed.

Lemma In_insertStat (item x : ColorStatItem) (l : list ColorStatItem) :
  In item (insertStat x l) <-> item = x \/ In item l.
Proof.
  induction l as [|h t IH]; cbn [insertStat].
  - cbn. intuition.
  - destruct (statCount h <=? statCount x); cbn [In]; [intuition|].
    rewrite IH. intuition.
Qed.

Lemma In_sortStats (item : ColorStatItem) (l : list ColorStatItem) :
  In item (sortStats l) <-> In item l.
Proof.
  induction l as [|h t IH]; cbn [sortStats fold_right]; [reflexivity|].
  fold (sortStats t). rewrite In_insertStat, IH. cbn [In]. intuition.
Qed.

Lemma totalCount_insertStat (x : ColorStatItem) (l : list ColorStatItem) :
  totalCount (insertStat x l) = statCount x + totalCount l.
Proof.
  induction l as [|h t IH]; cbn [insertStat]; [apply totalCount_cons|].
  destruct (statCount h <=? statCount x); [apply totalCount_cons|].
  rewrite !totalCount_cons, IH. lia.
Qed.

Lemma totalCount_sortStats (l : list ColorStatItem) :
  totalCount (sortStats l) = totalCount l.
Proof.
  induction l as [|h t IH]; cbn [sortStats fold_right]; [reflexivity|].
  fold (sortStats t). now rewrite totalCount_insertStat, totalCount_cons, IH.
Qed.

Lemma descending_insertStat (x : ColorStatItem) (l : list ColorStatItem) :
  descending l -> descending (insertStat x l).
Proof.
  induction l as [|h t IH]; cbn [insertStat]; intros Hd.
  - cbn. split; [intros ? []|exact I].
  - destruct Hd as [Hh Ht].
    destruct (Z.leb_spec (statCount h) (statCount x)) as [Hle|Hlt].
    + cbn [descending]. split; [|split; assumption].
      intros later [<-|Hin]; [assumption|]. specialize (Hh later Hin). lia.
    + cbn [descending]. split; [|now apply IH].
      intros later Hin. apply (proj1 (In_insertStat _ _ _)) in Hin.
      destruct Hin as [->|Hin]; [lia | now apply Hh].
Qed.

Lemma descending_sortStats (l : list ColorStatItem) : descending (sortStats l).
Proof.
  induction l as [|h t IH]; cbn [sortStats fold_right]; [exact I|].
  now apply descending_insertStat.
Qed.

Lemma NoDup_insertStat (x : ColorStatItem) (l : list ColorStatItem) :
  NoDup (map statColorId (x :: l)) -> NoDup (map statColorId (insertStat x l)).
Proof.
  induction l as [|h t IH]; cbn [insertStat]; intros Hnd; [exact Hnd|].
  destruct (statCount h <=? statCount x); [exact Hnd|].
  cbn [map] in *. inversion Hnd as [|? ? Hx Ht]; subst.
  inversion Ht as [|? ? Hh Ht']; subst.
  constructor.
  - intros Hin. apply in_map_iff in Hin. destruct Hin as (item & Hid & Hin).
    apply (proj1 (In_insertStat _ _ _)) in Hin. destruct Hin as [->|Hin].
    + apply Hx. left. now symmetry.
    + apply Hh. apply in_map_iff. now exists item.
  - apply IH. constructor; [|assumption].
    intros Hin. apply Hx. now right.
Qed.

Lemma NoDup_sortStats (l : list ColorStatItem) :
  NoDup (map statColorId l) -> NoDup (map statColorId (sortStats l)).
Proof.
  induction l as [|h t IH]; cbn [sortStats fold_right]; intros Hnd; [exact Hnd|].
  fold (sortStats t). apply NoDup_insertStat. cbn [map] in *.
  inversion Hnd as [|? ? Hh Ht]; subst. constructor; [|now apply IH].
  intros Hin. apply Hh. apply in_map_iff in Hin. destruct Hin as (item & Hid & Hin).
  apply (proj1 (In_sortStats _ _)) in Hin. apply in_map_iff. exists item. split; assumption.
Qed.

Lemma In_statsOf (colors : list BeadColor) (m : JsMap Z) (item : ColorStatItem) :
  In item (statsOf colors m) ->
  In (statColorId item, statCount item) m
  /\ find (fun c => String.eqb (id c) (statColorId item)) colors
     = Some (statColor item).
Proof.
  unfold statsOf. intros Hin. apply in_flat_map in Hin.
  destruct Hin as ([k v] & Hentry & Hitem).
  destruct (find (fun c => String.eqb (id c) k) colors) as [c|] eqn:Hfind;
    [|destruct Hitem].
  destruct Hitem as [<-|[]]. cbn [statColorId statCount statColor]. now split.
Qed.

Lemma NoDup_statsOf (colors : list BeadColor) (m : JsMap Z) :
  NoDup (map fst m) -> NoDup (map statColorId (statsOf colors m)).
Proof.
  induction m as [|[k v] rest IH]; cbn [map fst]; intros Hnd; [constructor|].
  inversion Hnd as [|? ? Hk Hrest]; subst.
  unfold statsOf. cbn [flat_map]. fold (statsOf colors rest).
  destruct (find (fun c => String.eqb (id c) k) colors) as [c|];
    [|now apply IH].
  cbn [app map statColorId]. constructor; [|now apply IH].
  intros Hin. apply Hk. apply in_map_iff in Hin. destruct Hin as (item & <- & Hin).
  apply In_statsOf in Hin. destruct Hin as [Hin _].
  apply in_map_iff. now exists (statColorId item, statCount item).
Qed.

(** The statistics panel counts beads correctly.  Its total is the number
    of cells that hold a non-empty id known to the palette (cells with an
    id the palette does not know are left out); its entries come largest
    count first, one per id; and each entry carries a bead of the palette
    with that id and the number of cells that hold it. *)
Theorem colorStats_counts (pixelData : PixelData) (colors : list BeadColor) :
  totalCount (colorStats pixelData colors) = countedCells colors pixelData
  /\ descending (colorStats pixelData colors)
  /\ NoDup (map statColorId (colorStats pixelData colors))
  /\ (forall item,
         In item (colorStats pixelData colors) ->
         In (statColor item) colors
         /\ id (statColor item) = statColorId item
         /\ statCount item = cellsHolding (statColorId item) pixelData
         /\ 1 <= statCount item).
Proof.
  change (colorStats pixelData colors)
    with (sortStats (statsOf colors (countColors pixelData))).
  unfold countColors. rewrite countColors_concat.
  destruct (countMap_inv (concat pixelData) [] (NoDup_nil _) (Forall_nil _))
    as [Hnd Hall].
  split; [|split; [|split]].
  - rewrite totalCount_sortStats, statsOf_fold. reflexivity.
  - apply descending_sortStats.
  - apply NoDup_sortStats. now apply NoDup_statsOf.
  - intros item Hin. apply (proj1 (In_sortStats _ _)) in Hin. apply In_statsOf in Hin.
    destruct Hin as [Hentry Hfind].
    apply find_some in Hfind. destruct Hfind as [Hcolor Hid].
    apply String.eqb_eq in Hid.
    rewrite Forall_forall in Hall. destruct (Hall _ Hentry) as [Hkey Hpos].
    cbn [fst snd] in Hkey, Hpos.
    split; [assumption|]. split; [assumption|]. split; [|assumption].
    pose proof (countOf_fold (concat pixelData) [] (statColorId item) Hkey) as Hc.
    unfold countOf in Hc at 1. rewrite (mapGet_In _ _ _ Hnd Hentry) in Hc.
    unfold cellsHolding. rewrite Hc. reflexivity.
Qed.

(** ** The store: what the other actions leave alone *)

(** Setting the configuration, the image or any field of the UI leaves the
    grid and its history untouched; in particular [setConfig] with a new
    width or height does not resize the grid. *)
Theorem view_actions_keep_grid (cfg : PixelConfig) (a : Store.Action)
        (st : StoreState) :
  touchesGrid a = false ->
  pixelData (Store.dispatch cfg a st) = pixelData st
  /\ history (Store.dispatch cfg a st) = history st
  /\ historyIndex (Store.dispatch cfg a st) = historyIndex st.
Proof.
  intros Hview.
  destruct a; cbn [touchesGrid] in Hview; try discriminate;
    (split; [reflexivity | split; reflexivity]).
Qed.

Lemma view_actions_keep_grid_witness :
  pixelData
    (Store.dispatch demoConfig
       (Store.SetConfig (mkPartial (Some 7) (Some 9) None None None)) demoStore)
  = pixelData demoStore.
Proof.
  apply (view_actions_keep_grid demoConfig
           (Store.SetConfig (mkPartial (Some 7) (Some 9) None None None))
           demoStore).
  reflexivity.
Defined.
